(** * Schema resolver and TypeScript generator: a shallow embedding

    The development follows the two source files.

    - [Py] collects the pieces of the Python runtime that the code relies
      on: insertion-ordered dictionaries, sets, and the [str] methods
      [replace], [upper], [capitalize], [split], [join], [endswith], together
      with the two regular-expression substitutions of the generator.
    - [Agent] embeds [sort_apps_by_dependencies] of [claude_agent.py].
    - [Generator] embeds [TypeScriptGenerator] of [typescript_generator.py].
    - [PyFacts], [AgentFacts], [GeneratorFacts] and [Scenario] hold the
      lemmas and the results about them.
    - [ResolverOrder] and [NamingLaws] add results on the resolver and on
      the naming transform.
    - [Creation] embeds [create_apps] and [TypescriptTool] embeds
      [generate_typescript], both of [claude_agent.py]; [CreationFacts]
      and [TypescriptToolFacts] hold their results.

    A Python [str] is represented by its UTF-8 encoding, a [string] of
    bytes.  A Python [dict] is an association list in insertion order with
    unique keys; a [set] is a duplicate-free list. *)

From Stdlib Require Import List String Ascii ZArith Lia Bool Arith Permutation.
Import ListNotations.

Open Scope string_scope.
Open Scope list_scope.

(* ================================================================== *)
(** * Python runtime *)
(* ================================================================== *)

Module Py.

(** ** Exceptions and results *)

Inductive exn : Type :=
| KeyError (key : string)
| AttributeError.

(** The outcome of running a piece of Python: a value, a raised exception,
    or (for the fuelled [while] loop only) exhaustion of the fuel. *)
Inductive result (A : Type) : Type :=
| Ok (a : A)
| Raise (e : exn)
| OutOfFuel.

Arguments Ok {A} a.
Arguments Raise {A} e.
Arguments OutOfFuel {A}.

Definition bind {A B : Type} (m : result A) (f : A -> result B) : result B :=
  match m with
  | Ok a => f a
  | Raise e => Raise e
  | OutOfFuel => OutOfFuel
  end.

Notation "x <- m ;; k" := (bind m (fun x => k))
  (at level 61, m at next level, right associativity).

(** A [for] loop that appends one result per element: the first element
    whose body raises ends the loop. *)
Fixpoint traverse {A B : Type} (f : A -> result B) (l : list A)
    : result (list B) :=
  match l with
  | [] => Ok []
  | x :: l' => y <- f x ;; ys <- traverse f l' ;; Ok (y :: ys)
  end.

(** ** Dictionaries: association lists in insertion order *)

Definition dict (V : Type) : Type := list (string * V).

(** [d.get(k)] *)
Fixpoint dget {V : Type} (d : dict V) (k : string) : option V :=
  match d with
  | [] => None
  | (k', v) :: d' => if String.eqb k' k then Some v else dget d' k
  end.

(** [d[k] = v]: an existing key keeps its position, a new key goes last. *)
Fixpoint dset {V : Type} (d : dict V) (k : string) (v : V) : dict V :=
  match d with
  | [] => [(k, v)]
  | (k', v') :: d' =>
      if String.eqb k' k then (k', v) :: d' else (k', v') :: dset d' k v
  end.

Definition keys {V : Type} (d : dict V) : list string := map fst d.

Definition values {V : Type} (d : dict V) : list V := map snd d.

(** ** Sets of strings: duplicate-free lists *)

Fixpoint mem (x : string) (s : list string) : bool :=
  match s with
  | [] => false
  | y :: s' => if String.eqb y x then true else mem x s'
  end.

(** [s.add(x)] *)
Definition set_add (x : string) (s : list string) : list string :=
  if mem x s then s else s ++ [x].

(** ** Characters *)

Definition is_upper (c : ascii) : bool :=
  let n := nat_of_ascii c in ((65 <=? n) && (n <=? 90))%nat.

Definition is_lower (c : ascii) : bool :=
  let n := nat_of_ascii c in ((97 <=? n) && (n <=? 122))%nat.

Definition is_digit (c : ascii) : bool :=
  let n := nat_of_ascii c in ((48 <=? n) && (n <=? 57))%nat.

(** The class [[a-zA-Z0-9]]. *)
Definition is_alnum (c : ascii) : bool :=
  is_lower c || is_upper c || is_digit c.

(** The code points below 128 that [str.split()] treats as white space. *)
Definition is_space (c : ascii) : bool :=
  let n := nat_of_ascii c in
  ((n =? 32) || ((9 <=? n) && (n <=? 13)) || ((28 <=? n) && (n <=? 31)))%nat.

Definition to_upper (c : ascii) : ascii :=
  if is_lower c then ascii_of_nat (nat_of_ascii c - 32) else c.

Definition to_lower (c : ascii) : ascii :=
  if is_upper c then ascii_of_nat (nat_of_ascii c + 32) else c.

(** ** Strings *)

Fixpoint smap (f : ascii -> ascii) (s : string) : string :=
  match s with
  | EmptyString => EmptyString
  | String c s' => String (f c) (smap f s')
  end.

(** [s.upper()] and [s.lower()] on the letters a-z and A-Z; every other
    byte is kept, so the model is exact on ASCII text. *)
Definition upper (s : string) : string := smap to_upper s.

Definition lower (s : string) : string := smap to_lower s.

(** [s.capitalize()]: first character upper-cased, the rest lower-cased. *)
Definition capitalize (s : string) : string :=
  match s with
  | EmptyString => EmptyString
  | String c s' => String (to_upper c) (lower s')
  end.

(** [needle in hay] *)
Fixpoint contains (needle hay : string) : bool :=
  if prefix needle hay then true
  else match hay with
       | EmptyString => false
       | String _ hay' => contains needle hay'
       end.

(** [s.replace(old, new)] for a non-empty [old]: the occurrences are
    replaced from the left and do not overlap.  [skip] counts the
    characters of a matched occurrence that are still to be dropped. *)
Fixpoint replace_from (old new : string) (skip : nat) (s : string) : string :=
  match s with
  | EmptyString => EmptyString
  | String c s' =>
      match skip with
      | S k => replace_from old new k s'
      | O =>
          if prefix old s
          then new ++ replace_from old new (String.length old - 1) s'
          else String c (replace_from old new 0 s')
      end
  end.

Definition replace (old new s : string) : string := replace_from old new 0 s.

(** [s.split()]: the maximal runs of characters that are not white space.
    [cur] is the word being read. *)
Fixpoint split_from (cur : string) (s : string) : list string :=
  match s with
  | EmptyString => match cur with EmptyString => [] | _ => [cur] end
  | String c s' =>
      if is_space c
      then match cur with
           | EmptyString => split_from EmptyString s'
           | _ => cur :: split_from EmptyString s'
           end
      else split_from (cur ++ String c EmptyString) s'
  end.

Definition split (s : string) : list string := split_from EmptyString s.

(** [s.split(sep)] for a one-character separator: never empty. *)
Fixpoint split_on_from (sep : ascii) (cur : string) (s : string) : list string :=
  match s with
  | EmptyString => [cur]
  | String c s' =>
      if Ascii.eqb c sep
      then cur :: split_on_from sep EmptyString s'
      else split_on_from sep (cur ++ String c EmptyString) s'
  end.

Definition split_on (sep : ascii) (s : string) : list string :=
  split_on_from sep EmptyString s.

(** [sep.join(parts)] *)
Definition join (sep : string) (parts : list string) : string :=
  String.concat sep parts.

(** [s.endswith(c)] for a one-character suffix. *)
Fixpoint endswith (s : string) (c : ascii) : bool :=
  match s with
  | EmptyString => false
  | String a EmptyString => Ascii.eqb a c
  | String _ s' => endswith s' c
  end.

(** [s[:-1]] *)
Fixpoint drop_last (s : string) : string :=
  match s with
  | EmptyString => EmptyString
  | String _ EmptyString => EmptyString
  | String a s' => String a (drop_last s')
  end.

(** [re.sub(r"[^a-zA-Z0-9]", " ", s)].  A character outside ASCII is
    several bytes, each of which becomes a space; [split] below reads the
    longer run of spaces as the same word boundary. *)
Definition sub_non_alnum (s : string) : string :=
  smap (fun c => if is_alnum c then c else " "%char) s.

(** [re.sub(r"_+", "_", s)]: every maximal run of underscores becomes one
    underscore. *)
Fixpoint sub_underscores (s : string) : string :=
  match s with
  | EmptyString => EmptyString
  | String c s' =>
      if Ascii.eqb c "_"%char
      then match s' with
           | String c' _ =>
               if Ascii.eqb c' "_"%char then sub_underscores s'
               else String c (sub_underscores s')
           | EmptyString => String c EmptyString
           end
      else String c (sub_underscores s')
  end.

(** The line feed used by ["\n".join(lines)]. *)
Definition nl : string := String (ascii_of_nat 10) EmptyString.

End Py.

(* ================================================================== *)
(** * claude_agent.py: the dependency resolver *)
(* ================================================================== *)

Module Agent.
Import Py.

(** ** Data *)

(** One entry of an app definition's ["controls"]: the keys the resolver
    reads, each possibly absent. *)
Record control : Type := {
  fulltype : option string;
  lookup_app_ref : option string
}.

(** One element of the [apps] array handed to [create_apps]. *)
Record app : Type := {
  name : string;
  identifier : string;
  controls : option (dict control)
}.

(** ** sort_apps_by_dependencies *)

(** Truthiness of [ctrl.get("lookup_app_ref")]: present and not empty. *)
Definition truthy (r : option string) : option string :=
  match r with
  | Some EmptyString => None
  | other => other
  end.

(** The body of the inner [for ctrl in ...] loop, acting on the set
    [dependencies[identifier]]. *)
Definition add_ref (deps : list string) (ctrl : control) : list string :=
  if contains "applookup" (match fulltype ctrl with Some t => t | None => "" end)
  then match truthy (lookup_app_ref ctrl) with
       | Some ref => set_add ref deps
       | None => deps
       end
  else deps.

(** The set that the first loop leaves in [dependencies[identifier]] for
    one app, starting from [set()]. *)
Definition deps_of (a : app) : list string :=
  fold_left add_ref
    (values (match controls a with Some c => c | None => [] end)) [].

(** The first loop: [dependencies] and [app_map]. *)
Definition build (apps : list app) : dict (list string) * dict app :=
  fold_left
    (fun acc a =>
       (dset (fst acc) (identifier a) (deps_of a),
        dset (snd acc) (identifier a) a))
    apps ([], []).

(** [{app_id: len(deps) for app_id, deps in dependencies.items()}] *)
Definition initial_in_degree (dependencies : dict (list string)) : dict Z :=
  map (fun kd => (fst kd, Z.of_nat (List.length (snd kd)))) dependencies.

(** [[app_id for app_id, degree in in_degree.items() if degree == 0]] *)
Definition initial_queue (in_degree : dict Z) : list string :=
  keys (filter (fun kd => Z.eqb (snd kd) 0) in_degree).

(** The [for app_id, deps in dependencies.items()] loop of one iteration
    of the [while]: it threads [queue] and [in_degree].  Reading
    [in_degree[app_id]] raises [KeyError] on a missing key; the value
    compared with zero is the one just stored. *)
Fixpoint relax (items : dict (list string)) (current : string)
    (queue : list string) (in_degree : dict Z)
    : result (list string * dict Z) :=
  match items with
  | [] => Ok (queue, in_degree)
  | (app_id, deps) :: rest =>
      if mem current deps then
        match dget in_degree app_id with
        | None => Raise (KeyError app_id)
        | Some d =>
            let in_degree' := dset in_degree app_id (d - 1)%Z in
            if Z.eqb (d - 1) 0
            then relax rest current (queue ++ [app_id]) in_degree'
            else relax rest current queue in_degree'
        end
      else relax rest current queue in_degree
  end.

(** The [while queue:] loop.  Each unit of fuel pays for one iteration;
    an empty queue ends the loop whatever fuel is left. *)
Fixpoint kahn (fuel : nat) (dependencies : dict (list string))
    (app_map : dict app) (queue : list string) (in_degree : dict Z)
    (sorted_apps : list app) : result (list app) :=
  match queue with
  | [] => Ok sorted_apps
  | current :: queue' =>
      match fuel with
      | O => OutOfFuel
      | S fuel' =>
          let sorted_apps' :=
            match dget app_map current with
            | Some a => sorted_apps ++ [a]
            | None => sorted_apps
            end in
          qd <- relax dependencies current queue' in_degree ;;
          kahn fuel' dependencies app_map (fst qd) (snd qd) sorted_apps'
      end
  end.

(** The list [sorted_apps] as the [while] loop leaves it.  The loop pops
    every identifier at most once ([kahn_total] below), so one unit of
    fuel per input app is enough. *)
Definition topological (apps : list app) : result (list app) :=
  let dependencies := fst (build apps) in
  let app_map := snd (build apps) in
  let in_degree := initial_in_degree dependencies in
  kahn (List.length apps) dependencies app_map
    (initial_queue in_degree) in_degree [].

Definition sort_apps_by_dependencies (apps : list app) : result (list app) :=
  sorted_apps <- topological apps ;;
  Ok (if Nat.eqb (List.length sorted_apps) (List.length apps)
      then sorted_apps else apps).

(** ** The cross-reference graph of a batch *)

(** [references a r]: some control of [a] is an applookup field whose
    [lookup_app_ref] is the non-empty identifier [r]. *)
Definition references (a : app) (r : string) : Prop :=
  exists key ctrl cs,
    controls a = Some cs /\ In (key, ctrl) cs /\
    contains "applookup"
      (match fulltype ctrl with Some t => t | None => "" end) = true /\
    lookup_app_ref ctrl = Some r /\ r <> "".

(** An edge leads from the identifier of a definition to each identifier
    it references; a field that names its own definition is an edge from
    the identifier to itself. *)
Definition edge (apps : list app) (x y : string) : Prop :=
  exists a, In a apps /\ identifier a = x /\ references a y.

(** A non-empty path along a relation between identifiers. *)
Inductive path (R : string -> string -> Prop) : string -> string -> Prop :=
| path_edge x y : R x y -> path R x y
| path_step x z y : R x z -> path R z y -> path R x y.

Definition acyclic (apps : list app) : Prop :=
  forall x, ~ path (edge apps) x x.

Definition no_dangling (apps : list app) : Prop :=
  forall a r, In a apps -> references a r ->
    In r (map identifier apps).

Definition unique_identifiers (apps : list app) : Prop :=
  NoDup (map identifier apps).

(** [respects out]: every definition of [out] comes after every definition
    it references. *)
Definition respects (out : list app) : Prop :=
  forall before a after r,
    out = before ++ a :: after -> references a r ->
    In r (map identifier before).

End Agent.

(* ================================================================== *)
(** * typescript_generator.py: the schema compiler *)
(* ================================================================== *)

Module Generator.
Import Py.
Local Open Scope string_scope.

(** ** Data *)

(** The value stored under ["lookup_app"]: a string, or any other JSON
    value (null, number, list, object), none of which has a [split]
    method. *)
Inductive value : Type :=
| VStr (s : string)
| VOther.

(** The value stored under ["lookup_data"]: a mapping from the keys of a
    select field to their labels, or any other JSON value (null, number,
    string, list), none of which has a [keys] method. *)
Inductive lookup_data_value : Type :=
| Mapping (data : dict string)
| NotMapping.

(** One entry of a materialized app's ["controls"]: the keys the generator
    reads, each possibly absent, and the [required] flag, which it never
    reads. *)
Record control : Type := {
  fulltype : option string;
  required : bool;
  lookup_data : option lookup_data_value;
  lookup_app : option value
}.

(** One value of [metadata["apps"]]. *)
Record app_data : Type := {
  app_id : string;
  controls : dict control
}.

(** ** _to_pascal_case *)

Definition _to_pascal_case (text : string) : string :=
  let text :=
    replace "ß" "ss" (replace "ü" "ue" (replace "ö" "oe" (replace "ä" "ae" text))) in
  join "" (map capitalize (split (sub_non_alnum text))).

(** ** _map_type *)

(** [control["lookup_data"].keys()]: only a mapping has keys. *)
Definition keys_of (v : lookup_data_value) : result (list string) :=
  match v with
  | Mapping data => Ok (keys data)
  | NotMapping => Raise AttributeError
  end.

Definition _map_type (ctrl : control) : result string :=
  let ftype := match fulltype ctrl with Some t => t | None => "string" end in
  if String.eqb ftype "number" then Ok "number"
  else if String.eqb ftype "bool" then Ok "boolean"
  else if String.eqb ftype "date/date" || String.eqb ftype "date/datetimeminute"
  then Ok "string"
  else
    match String.eqb ftype "lookup/select", lookup_data ctrl with
    | true, Some v =>
        ks <- keys_of v ;;
        let options := map (fun k => "'" ++ k ++ "'") ks in
        match options with
        | [] => Ok "string"
        | _ => Ok (join " | " options)
        end
    | _, _ => Ok "string"
    end.

(** ** generate_types *)

(** Step 1: the map from app id to the PascalCase name of its key. *)
Definition build_app_id_to_name (apps : dict app_data) : dict string :=
  fold_left
    (fun m kd => dset m (app_id (snd kd)) (_to_pascal_case (fst kd)))
    apps [].

(** [ctrl_data["lookup_app"].split("/")]: only a string can be split. *)
Definition split_value (v : value) : result (list string) :=
  match v with
  | VStr s => Ok (split_on "/" s)
  | VOther => Raise AttributeError
  end.

(** The comment of the [except] branch. *)
Definition generic_comment : string := " // applookup -> URL zum Record".

(** The "smart comment" of one field. *)
Definition field_comment (app_id_to_name : dict string) (ctrl_data : control)
    : string :=
  let fulltype := match fulltype ctrl_data with Some t => t | None => "" end in
  if contains "date" fulltype then " // Format: YYYY-MM-DD oder ISO String"
  else
    match String.eqb fulltype "applookup/select", lookup_app ctrl_data with
    | true, Some v =>
        match split_value v with
        | Ok parts =>
            let target_id := last parts "" in
            let target_name :=
              match dget app_id_to_name target_id with
              | Some n => n
              | None => "UnknownApp"
              end in
            " // applookup -> URL zu '" ++ target_name ++ "' Record"
        | _ => generic_comment
        end
    | _, _ => ""
    end.

(** The line of one field inside [fields: { ... }]; an exception of
    [_map_type] is not caught. *)
Definition field_line (app_id_to_name : dict string)
    (kc : string * control) : result string :=
  ts_type <- _map_type (snd kc) ;;
  Ok ("    " ++ fst kc ++ "?: " ++ ts_type ++ ";"
      ++ field_comment app_id_to_name (snd kc)).

(** Step 2, for one app: the lines of its interface. *)
Definition interface_lines (app_id_to_name : dict string)
    (kd : string * app_data) : result (list string) :=
  fields <- traverse (field_line app_id_to_name) (controls (snd kd)) ;;
  Ok (List.app
        ["export interface " ++ _to_pascal_case (fst kd) ++ " {";
         "  record_id: string;";
         "  createdat: string;";
         "  updatedat: string | null;";
         "  fields: {"]
        (List.app fields ["  };"; "}"; ""])).

(** The name of an app's constant in [APP_IDS]. *)
Definition const_name (app_key : string) : string :=
  sub_underscores
    (replace " " "_" (replace "&" "" (replace "-" "_" (upper app_key)))).

Definition const_line (kd : string * app_data) : string :=
  "  " ++ const_name (fst kd) ++ ": '" ++ app_id (snd kd) ++ "',".

Definition create_line (app_key : string) : string :=
  "export type Create" ++ _to_pascal_case app_key ++ " = "
  ++ _to_pascal_case app_key ++ "['fields'];".

(** The list [lines] at the [return] of [generate_types]. *)
Definition generate_types_lines (apps : dict app_data) : result (list string) :=
  interfaces <- traverse (interface_lines (build_app_id_to_name apps)) apps ;;
  Ok (List.app ["// AUTOMATICALLY GENERATED TYPES - DO NOT EDIT"; ""]
        (List.app (List.concat interfaces)
           (List.app ["export const APP_IDS = {"]
              (List.app (map const_line apps)
                 (List.app ["} as const;"; ""]
                    (List.app ["// Helper Types for creating new records"]
                       (map create_line (keys apps)))))))).

Definition generate_types (apps : dict app_data) : result string :=
  lines <- generate_types_lines apps ;;
  Ok (join nl lines).

(** ** generate_service *)

Definition service_header (apps : dict app_data) : list string :=
  ["// AUTOMATICALLY GENERATED SERVICE";
   "import { APP_IDS } from '@/types/app';";
   "import type { " ++ join ", " (map _to_pascal_case (keys apps))
     ++ " } from '@/types/app';";
   "";
   "// Base Configuration";
   "const API_BASE_URL = 'https://my.living-apps.de/rest';";
   "";
   "// --- HELPER FUNCTIONS ---";
   "export function extractRecordId(url: string | null | undefined): string | null {";
   "  if (!url) return null;";
   "  // Extrahiere die letzten 24 Hex-Zeichen mit Regex";
   "  const match = url.match(/([a-f0-9]{24})$/i);";
   "  return match ? match[1] : null;";
   "}";
   "";
   "export function createRecordUrl(appId: string, recordId: string): string {";
   "  return `https://my.living-apps.de/rest/apps/${appId}/records/${recordId}`;";
   "}";
   "";
   "async function callApi(method: string, endpoint: string, data?: any) {";
   "  const response = await fetch(`${API_BASE_URL}${endpoint}`, {";
   "    method,";
   "    headers: { 'Content-Type': 'application/json' },";
   "    credentials: 'include',  // Nutze Session Cookies für Auth";
   "    body: data ? JSON.stringify(data) : undefined";
   "  });";
   "  if (!response.ok) throw new Error(await response.text());";
   "  // DELETE returns often empty body or simple status";
   "  if (method === 'DELETE') return true;";
   "  return response.json();";
   "}";
   "";
   "export class LivingAppsService {"].

(** The singular used in the names of the methods on one record. *)
Definition singular_name (class_name : string) : string :=
  if endswith class_name "s" then drop_last class_name
  else class_name ++ "Entry".

(** The lines of the five methods of one app. *)
Definition service_methods (app_key : string) : list string :=
  let class_name := _to_pascal_case app_key in
  let const_name := const_name app_key in
  let singular_name := singular_name class_name in
  ["  // --- " ++ upper app_key ++ " ---";
   "  static async get" ++ class_name ++ "(): Promise<" ++ class_name ++ "[]> {";
   "    const data = await callApi('GET', `/apps/${APP_IDS." ++ const_name
     ++ "}/records`);";
   "    return Object.entries(data).map(([id, rec]: [string, any]) => ({";
   "      record_id: id, ...rec";
   "    }));";
   "  }";
   "  static async get" ++ singular_name ++ "(id: string): Promise<"
     ++ class_name ++ " | undefined> {";
   "    const data = await callApi('GET', `/apps/${APP_IDS." ++ const_name
     ++ "}/records/${id}`);";
   "    return { record_id: data.id, ...data };";
   "  }";
   "  static async create" ++ singular_name ++ "(fields: " ++ class_name
     ++ "['fields']) {";
   "    return callApi('POST', `/apps/${APP_IDS." ++ const_name
     ++ "}/records`, { fields });";
   "  }";
   "  static async update" ++ singular_name ++ "(id: string, fields: Partial<"
     ++ class_name ++ "['fields']>) {";
   "    return callApi('PATCH', `/apps/${APP_IDS." ++ const_name
     ++ "}/records/${id}`, { fields });";
   "  }";
   "  static async delete" ++ singular_name ++ "(id: string) {";
   "    return callApi('DELETE', `/apps/${APP_IDS." ++ const_name
     ++ "}/records/${id}`);";
   "  }";
   ""].

Definition generate_service_lines (apps : dict app_data) : list string :=
  List.app (service_header apps)
    (List.app (flat_map service_methods (keys apps)) ["}"]).

Definition generate_service (apps : dict app_data) : string :=
  join nl (generate_service_lines apps).

End Generator.

(* ================================================================== *)
(** * Facts about the runtime *)
(* ================================================================== *)

Module PyFacts.
Import Py.

Lemma mem_In (x : string) (s : list string) : mem x s = true <-> In x s.
Proof.
  induction s as [|y s IH]; simpl.
  - split; [discriminate | tauto].
  - destruct (String.eqb_spec y x) as [->|Hne].
    + split; auto.
    + rewrite IH. split; [auto | intros [H|H]; [contradiction | exact H]].
Qed.

Lemma mem_false (x : string) (s : list string) : mem x s = false <-> ~ In x s.
Proof.
  rewrite <- mem_In. destruct (mem x s); split; congruence.
Qed.

Lemma set_add_In (x y : string) (s : list string) :
  In y (set_add x s) <-> y = x \/ In y s.
Proof.
  unfold set_add. destruct (mem x s) eqn:E.
  - apply mem_In in E. split; [auto | intros [->|H]; auto].
  - rewrite in_app_iff. simpl. split; intros H; intuition (subst; auto).
Qed.

Lemma set_add_NoDup (x : string) (s : list string) :
  NoDup s -> NoDup (set_add x s).
Proof.
  intros H. unfold set_add. destruct (mem x s) eqn:E; [exact H|].
  apply mem_false in E.
  apply NoDup_app; auto.
  - constructor; [simpl; tauto | constructor].
  - intros a Ha [<-|[]]. contradiction.
Qed.

Section Dict.
Context {V : Type}.
Implicit Types (d : dict V) (k : string) (v : V).

Lemma dget_In_keys d k : (exists v, dget d k = Some v) <-> In k (keys d).
Proof.
  induction d as [|[k' v'] d IH]; simpl.
  - split; [intros [v H]; discriminate | tauto].
  - destruct (String.eqb_spec k' k) as [->|Hne].
    + split; eauto.
    + rewrite IH. split; [auto | intros [H|H]; [contradiction | exact H]].
Qed.

Lemma dget_None d k : dget d k = None <-> ~ In k (keys d).
Proof.
  rewrite <- dget_In_keys. destruct (dget d k) eqn:E.
  - split; [discriminate | intros H; exfalso; eauto].
  - split; [intros _ [v H]; discriminate | reflexivity].
Qed.

Lemma dget_In d k v : NoDup (keys d) -> In (k, v) d -> dget d k = Some v.
Proof.
  induction d as [|[k' v'] d IH]; simpl; intros Hnd Hin; [contradiction|].
  inversion Hnd as [|? ? Hk' Hnd']; subst.
  destruct Hin as [Heq|Hin].
  - inversion Heq; subst. now rewrite String.eqb_refl.
  - destruct (String.eqb_spec k' k) as [->|Hne]; [|auto].
    exfalso. apply Hk'. unfold keys.
    change k with (fst (k, v)). now apply in_map.
Qed.

Lemma dget_Some_In d k v : dget d k = Some v -> In (k, v) d.
Proof.
  induction d as [|[k' v'] d IH]; simpl; [discriminate|].
  destruct (String.eqb_spec k' k) as [->|Hne].
  - intros H; inversion H; auto.
  - auto.
Qed.

Lemma dget_dset d k k' v :
  dget (dset d k v) k' = if String.eqb k k' then Some v else dget d k'.
Proof.
  induction d as [|[k0 v0] d IH]; simpl.
  - reflexivity.
  - destruct (String.eqb_spec k0 k) as [->|Hne]; simpl.
    + destruct (String.eqb_spec k k'); reflexivity.
    + rewrite IH. destruct (String.eqb_spec k0 k') as [->|Hne'].
      * destruct (String.eqb_spec k k'); [congruence | reflexivity].
      * reflexivity.
Qed.

Lemma keys_dset_old d k v : In k (keys d) -> keys (dset d k v) = keys d.
Proof.
  induction d as [|[k0 v0] d IH]; simpl; [tauto|].
  destruct (String.eqb_spec k0 k) as [->|Hne]; simpl; [reflexivity|].
  intros [H|H]; [contradiction|]. now rewrite IH.
Qed.

Lemma keys_dset_new d k v : ~ In k (keys d) -> keys (dset d k v) = keys d ++ [k].
Proof.
  induction d as [|[k0 v0] d IH]; simpl; [reflexivity|].
  destruct (String.eqb_spec k0 k) as [->|Hne]; simpl; [tauto|].
  intros H. rewrite IH; tauto.
Qed.

End Dict.

(** ** Loops whose body may raise *)

Section Traverse.

Context {A B : Type}.

Lemma traverse_ok (f : A -> result B) (g : A -> B) (l : list A) :
  (forall x, In x l -> f x = Ok (g x)) -> traverse f l = Ok (map g l).
Proof.
  induction l as [|x l IH]; intros H; simpl; [reflexivity|].
  rewrite (H x (or_introl eq_refl)). simpl.
  rewrite IH; [reflexivity|]. intros y Hy. apply H. now right.
Qed.

Lemma traverse_ext (f f' : A -> result B) (l : list A) :
  (forall x, In x l -> f x = f' x) -> traverse f l = traverse f' l.
Proof.
  induction l as [|x l IH]; intros H; simpl; [reflexivity|].
  rewrite (H x (or_introl eq_refl)), IH; [reflexivity|].
  intros y Hy. apply H. now right.
Qed.

Lemma traverse_Forall2 (f : A -> result B) (l : list A) (ys : list B) :
  traverse f l = Ok ys <-> Forall2 (fun x y => f x = Ok y) l ys.
Proof.
  revert ys. induction l as [|x l IH]; intros ys; simpl.
  - split.
    + intros H. inversion H. constructor.
    + intros H. inversion H. reflexivity.
  - split.
    + destruct (f x) as [y| |] eqn:Hx; simpl; try discriminate.
      destruct (traverse f l) as [ys'| |] eqn:Hl; simpl; try discriminate.
      intros H. inversion H; subst ys. constructor; [exact Hx|].
      now apply IH.
    + intros H. inversion H as [|x' y l' ys' Hx Hl]; subst.
      rewrite Hx. simpl. apply IH in Hl. rewrite Hl. reflexivity.
Qed.

Lemma traverse_app (f : A -> result B) (l1 l2 : list A) :
  traverse f (l1 ++ l2)
  = (a <- traverse f l1 ;; b <- traverse f l2 ;; Ok (a ++ b)).
Proof.
  induction l1 as [|x l1 IH]; simpl.
  - destruct (traverse f l2); reflexivity.
  - destruct (f x) as [y| |]; simpl; try reflexivity.
    rewrite IH. destruct (traverse f l1) as [a| |]; simpl; try reflexivity.
    destruct (traverse f l2); reflexivity.
Qed.

(** The results of a loop that ends, around one element of the list. *)
Lemma traverse_split (f : A -> result B) (l1 : list A) (x : A) (l2 : list A)
    (ys : list B) :
  traverse f (l1 ++ x :: l2) = Ok ys ->
  exists a y b,
    ys = a ++ y :: b /\
    traverse f l1 = Ok a /\ f x = Ok y /\ traverse f l2 = Ok b.
Proof.
  rewrite traverse_app. simpl.
  destruct (traverse f l1) as [a| |]; simpl; try discriminate.
  destruct (f x) as [y| |]; simpl; try discriminate.
  destruct (traverse f l2) as [b| |]; simpl; try discriminate.
  intros H. inversion H. exists a, y, b. auto.
Qed.

Lemma traverse_In (f : A -> result B) (l : list A) (ys : list B) (x : A) :
  traverse f l = Ok ys -> In x l -> exists y, f x = Ok y /\ In y ys.
Proof.
  intros Hrun Hin. apply in_split in Hin. destruct Hin as (l1 & l2 & ->).
  destruct (traverse_split _ _ _ _ _ Hrun) as (a & y & b & -> & _ & Hx & _).
  exists y. split; [exact Hx|]. apply in_or_app. right. now left.
Qed.

Lemma traverse_defined (f : A -> result B) (l : list A) :
  (forall x, In x l -> exists y, f x = Ok y) ->
  exists ys, traverse f l = Ok ys.
Proof.
  induction l as [|x l IH]; intros H; simpl; [eauto|].
  destruct (H x (or_introl eq_refl)) as (y & ->). simpl.
  destruct IH as (ys & ->); [intros z Hz; apply H; now right|].
  simpl. eauto.
Qed.

(** A loop raises what the body raises on one of the elements. *)
Lemma traverse_raise (f : A -> result B) (l : list A) :
  match traverse f l with
  | Ok _ => True
  | Raise e => exists x, In x l /\ f x = Raise e
  | OutOfFuel => exists x, In x l /\ f x = OutOfFuel
  end.
Proof.
  induction l as [|x l IH]; simpl; [exact I|].
  destruct (f x) as [y| |] eqn:Hx; simpl; eauto.
  destruct (traverse f l) as [ys| |]; simpl; [exact I| |];
    destruct IH as (z & Hz & Hfz); eauto.
Qed.

End Traverse.

Lemma traverse_map {A B C : Type} (f : B -> result C) (g : A -> B)
    (l : list A) :
  traverse f (map g l) = traverse (fun x => f (g x)) l.
Proof.
  induction l as [|x l IH]; simpl; [reflexivity|]. now rewrite IH.
Qed.

End PyFacts.

(* ================================================================== *)
(** * The resolver: the first loop *)
(* ================================================================== *)

Module AgentFacts.
Import Py PyFacts Agent.

(** ** The dependency set of one app *)

Definition is_applookup (c : control) : bool :=
  contains "applookup" (match fulltype c with Some t => t | None => "" end).

Lemma truthy_Some (o : option string) (r : string) :
  truthy o = Some r <-> o = Some r /\ r <> "".
Proof.
  destruct o as [[|c s]|]; simpl; split;
    try discriminate; try (intros [H _]; discriminate).
  - intros [H Hne]. inversion H; subst. contradiction.
  - intros H; inversion H; subst. split; [reflexivity | discriminate].
  - intros [H _]. exact H.
Qed.

Lemma add_ref_In (deps : list string) (c : control) (r : string) :
  In r (add_ref deps c) <->
  In r deps \/ (is_applookup c = true /\ lookup_app_ref c = Some r /\ r <> "").
Proof.
  unfold add_ref, is_applookup.
  destruct (contains "applookup" _) eqn:E.
  - destruct (truthy (lookup_app_ref c)) as [ref|] eqn:T.
    + rewrite set_add_In. apply truthy_Some in T. destruct T as [T Hne].
      split.
      * intros [->|H]; auto.
      * intros [H|(_ & H & _)]; auto. left. congruence.
    + split; auto. intros [H|(_ & H & Hne)]; auto.
      assert (truthy (lookup_app_ref c) = Some r) by (apply truthy_Some; auto).
      congruence.
  - split; auto. intros [H|(H & _)]; [auto | discriminate].
Qed.

Lemma add_ref_NoDup (deps : list string) (c : control) :
  NoDup deps -> NoDup (add_ref deps c).
Proof.
  intros H. unfold add_ref.
  destruct (contains "applookup" _); [|exact H].
  destruct (truthy (lookup_app_ref c)); [|exact H].
  now apply set_add_NoDup.
Qed.

Lemma fold_add_ref_In (cl : list control) (acc : list string) (r : string) :
  In r (fold_left add_ref cl acc) <->
  In r acc \/
  exists c, In c cl /\ is_applookup c = true /\
            lookup_app_ref c = Some r /\ r <> "".
Proof.
  revert acc. induction cl as [|c cl IH]; intros acc; simpl.
  - split; auto. intros [H|(c & [] & _)]. exact H.
  - rewrite IH, add_ref_In. split.
    + intros [[H|H]|(c' & Hin & H)]; eauto 6.
    + intros [H|(c' & [<-|Hin] & H)]; eauto 6.
Qed.

Lemma fold_add_ref_NoDup (cl : list control) (acc : list string) :
  NoDup acc -> NoDup (fold_left add_ref cl acc).
Proof.
  revert acc. induction cl as [|c cl IH]; intros acc H; simpl; [exact H|].
  apply IH. now apply add_ref_NoDup.
Qed.

Lemma deps_of_NoDup (a : app) : NoDup (deps_of a).
Proof. apply fold_add_ref_NoDup. constructor. Qed.

(** The set built by the code holds exactly the identifiers referenced. *)
Lemma deps_of_references (a : app) (r : string) :
  In r (deps_of a) <-> references a r.
Proof.
  unfold deps_of, references. rewrite fold_add_ref_In. split.
  - intros [[]|(c & Hin & Hl & Hr & Hne)].
    destruct (controls a) as [cs|]; [|contradiction].
    unfold values in Hin. apply in_map_iff in Hin.
    destruct Hin as ([key c'] & Heq & Hin). simpl in Heq. subst c'.
    exists key, c, cs. auto.
  - intros (key & c & cs & Hcs & Hin & Hl & Hr & Hne). right.
    exists c. rewrite Hcs. repeat split; auto.
    unfold values. change c with (snd (key, c)). now apply in_map.
Qed.

(** ** The dictionaries of the first loop *)

Lemma build_snoc (apps : list app) (a : app) :
  build (apps ++ [a]) =
  (dset (fst (build apps)) (identifier a) (deps_of a),
   dset (snd (build apps)) (identifier a) a).
Proof. unfold build. now rewrite fold_left_app. Qed.

Lemma build_keys_eq (apps : list app) :
  keys (fst (build apps)) = keys (snd (build apps)).
Proof.
  induction apps as [|a apps IH] using rev_ind; [reflexivity|].
  rewrite build_snoc. simpl.
  destruct (in_dec string_dec (identifier a) (keys (fst (build apps)))) as [H|H].
  - rewrite keys_dset_old by exact H.
    rewrite keys_dset_old by (rewrite <- IH; exact H). exact IH.
  - rewrite keys_dset_new by exact H.
    rewrite keys_dset_new by (rewrite <- IH; exact H). now rewrite IH.
Qed.

Lemma build_keys_In (apps : list app) (k : string) :
  In k (keys (fst (build apps))) <-> In k (map identifier apps).
Proof.
  induction apps as [|a apps IH] using rev_ind; [reflexivity|].
  rewrite build_snoc, map_app, in_app_iff. simpl.
  destruct (in_dec string_dec (identifier a) (keys (fst (build apps)))) as [H|H].
  - rewrite keys_dset_old by exact H. rewrite IH. split; auto.
    intros [Hk|[<-|[]]]; auto. now apply IH.
  - rewrite keys_dset_new by exact H. rewrite in_app_iff, IH. reflexivity.
Qed.

Lemma build_keys_NoDup (apps : list app) : NoDup (keys (fst (build apps))).
Proof.
  induction apps as [|a apps IH] using rev_ind; [constructor|].
  rewrite build_snoc. simpl.
  destruct (in_dec string_dec (identifier a) (keys (fst (build apps)))) as [H|H].
  - now rewrite keys_dset_old.
  - rewrite keys_dset_new by exact H.
    apply NoDup_app; auto.
    + constructor; [simpl; tauto | constructor].
    + intros x Hx [<-|[]]. contradiction.
Qed.

Lemma build_keys_length (apps : list app) :
  List.length (keys (fst (build apps))) <= List.length apps.
Proof.
  induction apps as [|a apps IH] using rev_ind; [simpl; lia|].
  rewrite build_snoc, length_app. simpl.
  destruct (in_dec string_dec (identifier a) (keys (fst (build apps)))) as [H|H].
  - rewrite keys_dset_old by exact H. lia.
  - rewrite keys_dset_new by exact H. rewrite length_app. simpl. lia.
Qed.

(** With unique identifiers the keys are the identifiers in input order. *)
Lemma build_keys_unique (apps : list app) :
  unique_identifiers apps -> keys (fst (build apps)) = map identifier apps.
Proof.
  unfold unique_identifiers.
  induction apps as [|a apps IH] using rev_ind; [reflexivity|].
  rewrite map_app. simpl. intros Hnd.
  apply NoDup_remove in Hnd. rewrite app_nil_r in Hnd. destruct Hnd as [Hnd Hni].
  rewrite build_snoc. simpl.
  rewrite keys_dset_new by (rewrite build_keys_In; exact Hni).
  now rewrite IH.
Qed.

(** A repeated identifier leaves fewer keys than there are apps. *)
Lemma build_keys_short (apps : list app) :
  ~ unique_identifiers apps ->
  List.length (keys (fst (build apps))) < List.length apps.
Proof.
  intros Hdup.
  destruct (Nat.lt_ge_cases (List.length (keys (fst (build apps))))
              (List.length apps)) as [H|H]; [exact H|].
  exfalso. apply Hdup. unfold unique_identifiers.
  apply NoDup_incl_NoDup with (l := keys (fst (build apps))).
  - apply build_keys_NoDup.
  - now rewrite length_map.
  - intros k Hk. now apply build_keys_In.
Qed.

(** What the two dictionaries hold under a key. *)
Lemma build_lookup (apps : list app) (k : string) (a : app) :
  dget (snd (build apps)) k = Some a ->
  identifier a = k /\ In a apps /\ dget (fst (build apps)) k = Some (deps_of a).
Proof.
  induction apps as [|x apps IH] using rev_ind; [discriminate|].
  rewrite build_snoc. simpl. rewrite !dget_dset.
  destruct (String.eqb_spec (identifier x) k) as [<-|Hne].
  - intros H; inversion H; subst. rewrite in_app_iff. simpl. auto.
  - intros H. destruct (IH H) as (H1 & H2 & H3).
    rewrite in_app_iff. auto.
Qed.

(** [app_map[identifier] = app]: the last app with an identifier wins. *)
Lemma build_last_wins (before : list app) (a : app) (after : list app) :
  ~ In (identifier a) (map identifier after) ->
  dget (snd (build (before ++ a :: after))) (identifier a) = Some a.
Proof.
  induction after as [|x after IH] using rev_ind; intros Hni.
  - rewrite build_snoc. simpl. now rewrite dget_dset, String.eqb_refl.
  - rewrite map_app, in_app_iff in Hni. simpl in Hni.
    replace (before ++ a :: after ++ [x]) with ((before ++ a :: after) ++ [x])
      by now rewrite <- app_assoc.
    rewrite build_snoc. simpl. rewrite dget_dset.
    destruct (String.eqb_spec (identifier x) (identifier a)) as [E|E].
    + exfalso. apply Hni. auto.
    + apply IH. tauto.
Qed.

Lemma build_total (apps : list app) (k : string) :
  In k (keys (fst (build apps))) -> exists a, dget (snd (build apps)) k = Some a.
Proof. rewrite build_keys_eq. intros H. now apply dget_In_keys. Qed.

Lemma build_deps_NoDup (apps : list app) (k : string) (d : list string) :
  dget (fst (build apps)) k = Some d -> NoDup d.
Proof.
  intros H.
  assert (Hk : In k (keys (fst (build apps)))) by (apply dget_In_keys; eauto).
  destruct (build_total _ _ Hk) as [a Ha].
  destruct (build_lookup _ _ _ Ha) as (_ & _ & Hd).
  rewrite H in Hd. inversion Hd. apply deps_of_NoDup.
Qed.

(* ================================================================== *)
(** * The resolver: the [while] loop *)
(* ================================================================== *)

(** Membership in a filtered list of pairs, by key. *)
Lemma NoDup_keys_filter {V : Type} (f : string * V -> bool) (d : dict V) :
  NoDup (keys d) -> NoDup (keys (filter f d)).
Proof.
  induction d as [|kv d IH]; simpl; intros H; [constructor|].
  inversion H as [|? ? Hni Hnd]; subst.
  destruct (f kv); simpl; [|auto].
  constructor; [|auto].
  intros Hin. apply Hni. unfold keys in *.
  apply in_map_iff in Hin. destruct Hin as (x & Hx & Hin).
  apply filter_In in Hin. rewrite <- Hx. apply in_map. tauto.
Qed.

Lemma mem_app (x : string) (l1 l2 : list string) :
  mem x (l1 ++ l2) = mem x l1 || mem x l2.
Proof.
  induction l1 as [|y l1 IH]; simpl; [reflexivity|].
  destruct (String.eqb y x); [reflexivity | exact IH].
Qed.

(** Appending [c] to the emitted identifiers removes exactly [c] from the
    open dependencies of a set. *)
Lemma open_count_snoc (P : list string) (c : string) (l : list string) :
  NoDup l -> ~ In c P ->
  List.length (filter (fun d => negb (mem d (P ++ [c]))) l)
  + (if mem c l then 1 else 0)
  = List.length (filter (fun d => negb (mem d P)) l).
Proof.
  intros Hnd Hc. induction l as [|x l IH]; simpl; [reflexivity|].
  inversion Hnd as [|? ? Hx Hl]; subst. specialize (IH Hl).
  rewrite mem_app. simpl. rewrite (String.eqb_sym c x).
  destruct (String.eqb_spec x c) as [->|Hne].
  - apply mem_false in Hc. rewrite Hc. simpl.
    apply mem_false in Hx. rewrite Hx in IH. lia.
  - rewrite orb_false_r. destruct (mem x P); simpl; lia.
Qed.

Lemma open_count_zero (P l : list string) :
  List.length (filter (fun d => negb (mem d P)) l) = 0 <-> incl l P.
Proof.
  induction l as [|x l IH]; simpl.
  - split; [intros _ y [] | reflexivity].
  - destruct (mem x P) eqn:E; simpl.
    + rewrite IH. apply mem_In in E. split.
      * intros H y [<-|Hy]; auto.
      * intros H y Hy. apply H. now right.
    + split; [discriminate|]. intros H. apply mem_false in E.
      exfalso. apply E, H. now left.
Qed.

Lemma dget_initial (dependencies : dict (list string)) (k : string) :
  dget (initial_in_degree dependencies) k
  = option_map (fun d => Z.of_nat (List.length d)) (dget dependencies k).
Proof.
  unfold initial_in_degree.
  induction dependencies as [|[k' d] rest IH]; simpl; [reflexivity|].
  destruct (String.eqb k' k); [reflexivity | exact IH].
Qed.

Lemma keys_initial (dependencies : dict (list string)) :
  keys (initial_in_degree dependencies) = keys dependencies.
Proof.
  unfold initial_in_degree, keys. rewrite map_map. reflexivity.
Qed.

Section Loop.

Variable dependencies : dict (list string).
Variable app_map : dict app.

Hypothesis keys_NoDup : NoDup (keys dependencies).
Hypothesis sets_NoDup :
  forall k d, dget dependencies k = Some d -> NoDup d.
Hypothesis app_map_total :
  forall k, In k (keys dependencies) -> exists a, dget app_map k = Some a.
Hypothesis app_map_identifier :
  forall k a, dget app_map k = Some a -> identifier a = k.

(** [dependencies[k]] *)
Definition deps (k : string) : list string :=
  match dget dependencies k with Some d => d | None => [] end.

(** The number of dependencies of [k] not among the identifiers [P]. *)
Definition pending (P : list string) (k : string) : nat :=
  List.length (filter (fun d => negb (mem d P)) (deps k)).

(** The apps appended to [sorted_apps] when the identifiers [P] have been
    popped, in this order. *)
Definition emitted (P : list string) : list app :=
  flat_map (fun k => match dget app_map k with Some a => [a] | None => [] end) P.

(** [P] lists identifiers so that each comes after its dependencies. *)
Inductive topo : list string -> Prop :=
| topo_nil : topo []
| topo_snoc P c : topo P -> incl (deps c) P -> topo (P ++ [c]).

Lemma deps_NoDup (k : string) : NoDup (deps k).
Proof.
  unfold deps. destruct (dget dependencies k) eqn:E; [eauto | constructor].
Qed.

Lemma pending_snoc (P : list string) (c k : string) :
  ~ In c P ->
  pending (P ++ [c]) k + (if mem c (deps k) then 1 else 0) = pending P k.
Proof. intros H. apply open_count_snoc; [apply deps_NoDup | exact H]. Qed.

Lemma pending_zero (P : list string) (k : string) :
  pending P k = 0 <-> incl (deps k) P.
Proof. apply open_count_zero. Qed.

Lemma pending_nil (k : string) : pending [] k = List.length (deps k).
Proof.
  unfold pending. induction (deps k) as [|x l IH]; simpl in *; congruence.
Qed.

(** ** One pass of the inner [for] loop *)

Definition getz (in_degree : dict Z) (k : string) : Z :=
  match dget in_degree k with Some v => v | None => 0%Z end.

(** The identifiers that the pass appends to the queue. *)
Definition ready (current : string) (in_degree : dict Z)
    (items : dict (list string)) : list string :=
  keys (filter (fun kd => mem current (snd kd)
                          && Z.eqb (getz in_degree (fst kd) - 1) 0) items).

Lemma relax_items (items : dict (list string)) (current : string) :
  forall (queue : list string) (in_degree : dict Z),
  NoDup (keys items) ->
  (forall k, In k (keys items) -> exists v, dget in_degree k = Some v) ->
  exists in_degree',
    relax items current queue in_degree
    = Ok (queue ++ ready current in_degree items, in_degree') /\
    forall k, dget in_degree' k =
      match dget items k with
      | Some d => if mem current d
                  then option_map (fun v => (v - 1)%Z) (dget in_degree k)
                  else dget in_degree k
      | None => dget in_degree k
      end.
Proof.
  induction items as [|[app_id d] rest IH]; intros queue in_degree Hnd Hdef.
  - exists in_degree. unfold ready. simpl. rewrite app_nil_r. auto.
  - simpl in Hnd. inversion Hnd as [|? ? Hni Hnd']; subst.
    assert (Hrest : forall (deg1 : dict Z),
               (forall k, k <> app_id -> dget deg1 k = dget in_degree k) ->
               ready current deg1 rest = ready current in_degree rest).
    { intros deg1 H1. unfold ready. f_equal. apply filter_ext_in.
      intros [k' d'] Hin. simpl. unfold getz. rewrite H1; [reflexivity|].
      intros ->. apply Hni. unfold keys.
      change app_id with (fst (app_id, d')). now apply in_map. }
    assert (Hnone : dget rest app_id = None) by now apply dget_None.
    simpl. destruct (mem current d) eqn:Em.
    + destruct (Hdef app_id) as [v Hv]; [now left|]. rewrite Hv.
      set (deg1 := dset in_degree app_id (v - 1)%Z).
      assert (H1 : forall k, k <> app_id -> dget deg1 k = dget in_degree k).
      { intros k Hk. unfold deg1. rewrite dget_dset.
        destruct (String.eqb_spec app_id k); congruence. }
      assert (Hdef1 : forall k, In k (keys rest) ->
                        exists v', dget deg1 k = Some v').
      { intros k Hk. unfold deg1. rewrite dget_dset.
        destruct (String.eqb app_id k); eauto. apply Hdef. now right. }
      assert (Hsplit :
        forall q, exists in_degree',
          relax rest current q deg1
          = Ok (q ++ ready current in_degree rest, in_degree') /\
          forall k, dget in_degree' k =
            match (if String.eqb app_id k then Some d else dget rest k) with
            | Some d0 => if mem current d0
                  then option_map (fun v0 => (v0 - 1)%Z) (dget in_degree k)
                  else dget in_degree k
            | None => dget in_degree k
            end).
      { intros q. destruct (IH q deg1 Hnd' Hdef1) as (deg' & Hrun & Hget).
        exists deg'. rewrite Hrun, (Hrest deg1 H1). split; [reflexivity|].
        intros k. rewrite Hget.
        destruct (String.eqb_spec app_id k) as [<-|Hne].
        - rewrite Hnone, Em, Hv. unfold deg1.
          now rewrite dget_dset, String.eqb_refl.
        - rewrite (H1 k) by congruence. reflexivity. }
      unfold ready at 1. simpl. rewrite Em. unfold getz at 1. rewrite Hv. simpl.
      destruct (Z.eqb (v - 1) 0).
      * destruct (Hsplit (queue ++ [app_id])) as (deg' & Hrun & Hget).
        exists deg'. rewrite Hrun. split; [|exact Hget].
        simpl. now rewrite <- app_assoc.
      * destruct (Hsplit queue) as (deg' & Hrun & Hget).
        exists deg'. rewrite Hrun. split; [reflexivity | exact Hget].
    + assert (Hdef' : forall k, In k (keys rest) ->
                        exists v, dget in_degree k = Some v).
      { intros k Hk. apply Hdef. now right. }
      destruct (IH queue in_degree Hnd' Hdef') as (deg' & Hrun & Hget).
      exists deg'. rewrite Hrun. unfold ready at 2. simpl. rewrite Em. simpl.
      split; [reflexivity|].
      intros k. rewrite Hget.
      destruct (String.eqb_spec app_id k) as [<-|Hne]; [|reflexivity].
      now rewrite Hnone, Em.
Qed.

(** ** The loop invariant *)

(** [P] lists the identifiers popped so far, [Q] is the queue. *)
Record Inv (P Q : list string) (in_degree : dict Z) : Prop := {
  inv_nodup : NoDup (P ++ Q);
  inv_incl : incl (P ++ Q) (keys dependencies);
  inv_degree : forall k, In k (keys dependencies) ->
      dget in_degree k = Some (Z.of_nat (pending P k));
  inv_ready : forall k, In k (keys dependencies) ->
      (In k (P ++ Q) <-> pending P k = 0);
  inv_topo : topo P
}.

Lemma deps_lookup (k : string) (d : list string) :
  In (k, d) dependencies -> deps k = d.
Proof.
  intros H. unfold deps. now rewrite (dget_In _ _ _ keys_NoDup H).
Qed.

Lemma ready_In (P : list string) (c : string) (in_degree : dict Z) (k : string) :
  ~ In c P ->
  (forall k, In k (keys dependencies) ->
     dget in_degree k = Some (Z.of_nat (pending P k))) ->
  In k (ready c in_degree dependencies) <->
  In k (keys dependencies) /\ mem c (deps k) = true /\ pending (P ++ [c]) k = 0.
Proof.
  intros Hc Hdeg. unfold ready, keys. rewrite in_map_iff. split.
  - intros ([k' d] & Hk & Hin). simpl in Hk. subst k'.
    apply filter_In in Hin. destruct Hin as [Hin Hf]. simpl in Hf.
    apply andb_true_iff in Hf. destruct Hf as [Hm Hz].
    assert (Hk : In k (map fst dependencies)).
    { change k with (fst (k, d)). now apply in_map. }
    rewrite (deps_lookup _ _ Hin). unfold getz in Hz.
    rewrite (Hdeg k Hk) in Hz. apply Z.eqb_eq in Hz.
    pose proof (pending_snoc P c k Hc) as Hp.
    rewrite (deps_lookup _ _ Hin), Hm in Hp.
    repeat split; auto. lia.
  - intros (Hk & Hm & Hz).
    destruct (proj2 (dget_In_keys dependencies k) Hk) as [d Hd].
    apply dget_Some_In in Hd. exists (k, d). split; [reflexivity|].
    apply filter_In. split; [exact Hd|]. simpl.
    rewrite (deps_lookup _ _ Hd) in Hm. rewrite Hm. simpl.
    unfold getz. rewrite (Hdeg k Hk). apply Z.eqb_eq.
    pose proof (pending_snoc P c k Hc) as Hp.
    rewrite (deps_lookup _ _ Hd), Hm in Hp. lia.
Qed.

(** One iteration of the [while] loop keeps the invariant. *)
Lemma inv_step (P : list string) (c : string) (Q : list string)
    (in_degree : dict Z) :
  Inv P (c :: Q) in_degree ->
  exists Q' in_degree',
    relax dependencies c Q in_degree = Ok (Q', in_degree') /\
    Inv (P ++ [c]) Q' in_degree'.
Proof.
  intros [Hnd Hincl Hdeg Hready Htopo].
  assert (Hc : ~ In c P).
  { apply NoDup_remove_2 in Hnd. rewrite in_app_iff in Hnd. tauto. }
  assert (HcK : In c (keys dependencies)).
  { apply Hincl. rewrite in_app_iff. right. now left. }
  destruct (relax_items dependencies c Q in_degree keys_NoDup) as (deg' & Hrun & Hget).
  { intros k Hk. rewrite (Hdeg k Hk). eauto. }
  exists (Q ++ ready c in_degree dependencies), deg'. split; [exact Hrun|].
  pose proof (ready_In P c in_degree) as Hnew.
  assert (Hold : forall k, In k (P ++ c :: Q) <-> In k ((P ++ [c]) ++ Q)).
  { intros k. rewrite <- app_assoc. reflexivity. }
  constructor.
  - rewrite app_assoc. apply NoDup_app.
    + rewrite <- app_assoc. exact Hnd.
    + apply NoDup_keys_filter, keys_NoDup.
    + intros k Hk Hk'. apply Hold in Hk.
      apply (Hnew k Hc Hdeg) in Hk'. destruct Hk' as (HkK & Hm & Hz).
      apply (Hready k HkK) in Hk.
      pose proof (pending_snoc P c k Hc) as Hp. rewrite Hm in Hp. lia.
  - intros k Hk. rewrite app_assoc, in_app_iff in Hk. destruct Hk as [Hk|Hk].
    + apply Hincl, Hold, Hk.
    + now apply (Hnew k Hc Hdeg) in Hk.
  - intros k Hk. rewrite Hget.
    destruct (proj2 (dget_In_keys dependencies k) Hk) as [d Hd]. rewrite Hd.
    pose proof (pending_snoc P c k Hc) as Hp.
    unfold deps in Hp at 1. rewrite Hd in Hp.
    rewrite (Hdeg k Hk). destruct (mem c d); simpl; f_equal; lia.
  - intros k Hk. rewrite app_assoc, in_app_iff, <- Hold, (Hready k Hk).
    rewrite (Hnew k Hc Hdeg).
    pose proof (pending_snoc P c k Hc) as Hp.
    destruct (mem c (deps k)); split.
    + intros [H|(_ & _ & H)]; lia.
    + intros H. right. auto.
    + intros [H|(_ & H & _)]; [lia | discriminate].
    + intros H. left. lia.
  - constructor; [exact Htopo|].
    apply pending_zero, (Hready c HcK). rewrite in_app_iff. right. now left.
Qed.

Lemma emitted_snoc (P : list string) (c : string) :
  emitted (P ++ [c]) =
  match dget app_map c with
  | Some a => emitted P ++ [a]
  | None => emitted P
  end.
Proof.
  unfold emitted. rewrite flat_map_app. simpl.
  destruct (dget app_map c); now rewrite ?app_nil_r.
Qed.

(** The loop ends before the fuel does, having popped a list [P'] of
    identifiers that satisfies the invariant with an empty queue. *)
Lemma kahn_spec (fuel : nat) :
  forall (P Q : list string) (in_degree : dict Z),
  Inv P Q in_degree ->
  List.length (keys dependencies) <= fuel + List.length P ->
  exists P' in_degree',
    kahn fuel dependencies app_map Q in_degree (emitted P) = Ok (emitted P') /\
    Inv P' [] in_degree'.
Proof.
  induction fuel as [|fuel IH]; intros P Q in_degree HI Hfuel.
  - destruct Q as [|c Q].
    + exists P, in_degree. auto.
    + exfalso. destruct HI as [Hnd Hincl _ _ _].
      pose proof (NoDup_incl_length Hnd Hincl) as Hlen.
      rewrite length_app in Hlen. simpl in *. lia.
  - destruct Q as [|c Q].
    + exists P, in_degree. auto.
    + destruct (inv_step _ _ _ _ HI) as (Q' & deg' & Hrun & HI').
      destruct (IH (P ++ [c]) Q' deg' HI') as (P' & deg'' & Hk & HF).
      { rewrite length_app. simpl. lia. }
      exists P', deg''. split; [|exact HF].
      simpl. rewrite Hrun. simpl. rewrite emitted_snoc in Hk.
      destruct (dget app_map c); exact Hk.
Qed.

(** ** The state before the loop *)

Lemma inv_init :
  Inv [] (initial_queue (initial_in_degree dependencies))
    (initial_in_degree dependencies).
Proof.
  assert (Hdeg : forall k, In k (keys dependencies) ->
            dget (initial_in_degree dependencies) k
            = Some (Z.of_nat (pending [] k))).
  { intros k Hk. rewrite dget_initial, pending_nil. unfold deps.
    destruct (proj2 (dget_In_keys dependencies k) Hk) as [d Hd].
    now rewrite Hd. }
  assert (HndI : NoDup (keys (initial_in_degree dependencies)))
    by (rewrite keys_initial; exact keys_NoDup).
  constructor; simpl.
  - apply NoDup_keys_filter, HndI.
  - intros k Hk. unfold initial_queue, keys in Hk.
    apply in_map_iff in Hk. destruct Hk as (kv & <- & Hin).
    apply filter_In in Hin. rewrite <- keys_initial.
    apply in_map. tauto.
  - exact Hdeg.
  - intros k Hk. unfold initial_queue, keys. rewrite in_map_iff. split.
    + intros ([k' v] & Heq & Hin). simpl in Heq. subst k'.
      apply filter_In in Hin. destruct Hin as [Hin Hz]. simpl in Hz.
      apply Z.eqb_eq in Hz. subst v.
      apply (dget_In _ _ _ HndI) in Hin. rewrite (Hdeg k Hk) in Hin.
      inversion Hin. lia.
    + intros Hz. exists (k, 0%Z). split; [reflexivity|].
      apply filter_In. split; [|reflexivity].
      apply dget_Some_In. rewrite (Hdeg k Hk), Hz. reflexivity.
  - constructor.
Qed.

(** ** Consequences of the final invariant *)

Lemma emitted_length (P : list string) :
  incl P (keys dependencies) -> List.length (emitted P) = List.length P.
Proof.
  induction P as [|k P IH]; intros Hincl; [reflexivity|].
  unfold emitted in *. simpl. rewrite length_app, IH.
  - destruct (app_map_total k) as [a Ha]; [apply Hincl; now left|].
    now rewrite Ha.
  - intros x Hx. apply Hincl. now right.
Qed.

Lemma emitted_identifiers (P : list string) :
  incl P (keys dependencies) -> map identifier (emitted P) = P.
Proof.
  induction P as [|k P IH]; intros Hincl; [reflexivity|].
  unfold emitted in *. simpl. rewrite map_app, IH.
  - destruct (app_map_total k) as [a Ha]; [apply Hincl; now left|].
    rewrite Ha. simpl. now rewrite (app_map_identifier _ _ Ha).
  - intros x Hx. apply Hincl. now right.
Qed.

(** In a list ordered by [topo] the dependencies of an element are in
    the part of the list before it. *)
Lemma topo_before (P : list string) :
  topo P -> forall before k after,
  P = before ++ k :: after -> incl (deps k) before.
Proof.
  induction 1 as [|P c HP IH Hc]; intros before k after Heq.
  - destruct before; discriminate.
  - destruct after as [|z after _] using rev_ind.
    + apply app_inj_tail in Heq. destruct Heq as [-> ->]. exact Hc.
    + replace (before ++ k :: after ++ [z])
        with ((before ++ k :: after) ++ [z]) in Heq
        by now rewrite <- app_assoc.
      apply app_inj_tail in Heq. destruct Heq as [-> ->].
      eapply IH. reflexivity.
Qed.

Lemma topo_closed (P : list string) :
  topo P -> forall k, In k P -> incl (deps k) P.
Proof.
  intros HP k Hk. apply in_split in Hk. destruct Hk as (before & after & ->).
  intros d Hd. apply in_app_iff. left.
  eapply topo_before; eauto.
Qed.

End Loop.

(* ================================================================== *)
(** * The resolver: the run on a batch *)
(* ================================================================== *)

(** The [while] loop returns, and what it returns is described by a list
    of popped identifiers that satisfies the invariant. *)
Lemma topological_run (apps : list app) :
  exists P in_degree,
    topological apps = Ok (emitted (snd (build apps)) P) /\
    Inv (fst (build apps)) P [] in_degree.
Proof.
  unfold topological.
  change (@nil app) with (emitted (snd (build apps)) []).
  apply kahn_spec.
  - apply build_keys_NoDup.
  - apply build_deps_NoDup.
  - apply inv_init, build_keys_NoDup.
  - pose proof (build_keys_length apps). simpl. lia.
Qed.

Lemma run_length (apps : list app) (P : list string) :
  incl P (keys (fst (build apps))) ->
  List.length (emitted (snd (build apps)) P) = List.length P.
Proof. apply emitted_length, build_total. Qed.

Lemma run_identifiers (apps : list app) (P : list string) :
  incl P (keys (fst (build apps))) ->
  map identifier (emitted (snd (build apps)) P) = P.
Proof.
  apply emitted_identifiers.
  - apply build_total.
  - intros k a H. now destruct (build_lookup _ _ _ H).
Qed.

Lemma emitted_In (app_map : dict app) (P : list string) (a : app) :
  In a (emitted app_map P) -> exists k, In k P /\ dget app_map k = Some a.
Proof.
  unfold emitted. rewrite in_flat_map. intros (k & Hk & Ha).
  exists k. split; [exact Hk|].
  destruct (dget app_map k); simpl in Ha; [|contradiction].
  destruct Ha as [<-|[]]. reflexivity.
Qed.

(** The result of the whole function, from the run of its loop. *)
Lemma sort_of_run (apps : list app) (P : list string) :
  topological apps = Ok (emitted (snd (build apps)) P) ->
  incl P (keys (fst (build apps))) ->
  sort_apps_by_dependencies apps =
  Ok (if Nat.eqb (List.length P) (List.length apps)
      then emitted (snd (build apps)) P else apps).
Proof.
  intros Hrun Hincl. unfold sort_apps_by_dependencies.
  rewrite Hrun. simpl. now rewrite run_length.
Qed.

(** ** The graph of the batch and the sets of the code *)

Lemma unique_app (apps : list app) (a b : app) :
  unique_identifiers apps -> In a apps -> In b apps ->
  identifier a = identifier b -> a = b.
Proof.
  unfold unique_identifiers.
  induction apps as [|x apps IH]; simpl; intros Hnd Ha Hb Hid; [contradiction|].
  inversion Hnd as [|? ? Hni Hnd']; subst.
  destruct Ha as [->|Ha], Hb as [->|Hb]; auto.
  - exfalso. apply Hni. rewrite Hid. now apply in_map.
  - exfalso. apply Hni. rewrite <- Hid. now apply in_map.
Qed.

(** An element of a set of the code is an edge of the batch. *)
Lemma deps_edge (apps : list app) (k y : string) :
  In y (deps (fst (build apps)) k) -> edge apps k y.
Proof.
  unfold deps. destruct (dget (fst (build apps)) k) as [d|] eqn:Hd;
    [|contradiction].
  intros Hy.
  assert (Hk : In k (keys (fst (build apps)))) by (apply dget_In_keys; eauto).
  destruct (build_total _ _ Hk) as [a Ha].
  destruct (build_lookup _ _ _ Ha) as (Hid & Hin & Hd').
  rewrite Hd in Hd'. inversion Hd'; subst d.
  exists a. repeat split; auto. now apply deps_of_references.
Qed.

(** With unique identifiers every edge of the batch is in the sets. *)
Lemma edge_deps (apps : list app) (x y : string) :
  unique_identifiers apps -> edge apps x y ->
  In y (deps (fst (build apps)) x).
Proof.
  intros Hu (a & Hin & Hid & Href).
  assert (Hk : In x (keys (fst (build apps)))).
  { apply build_keys_In. rewrite <- Hid. now apply in_map. }
  destruct (build_total _ _ Hk) as [b Hb].
  destruct (build_lookup _ _ _ Hb) as (Hidb & Hinb & Hd).
  assert (a = b) by (apply (unique_app apps); congruence). subst b.
  unfold deps. rewrite Hd. now apply deps_of_references.
Qed.

(** ** Cycles are never emitted *)

(** Along a path that starts in a [topo]-ordered list one only moves
    towards the front of the list. *)
Lemma path_before (D : dict (list string)) (P : list string) (x y : string) :
  topo D P ->
  path (fun a b => In b (deps D a)) x y ->
  forall before after, P = before ++ x :: after -> In y before.
Proof.
  intros HP Hpath. induction Hpath as [x y Hxy | x z y Hxz Hzy IH];
    intros before after Heq.
  - eapply topo_before; eauto.
  - assert (Hz : In z before) by (eapply topo_before; eauto).
    apply in_split in Hz. destruct Hz as (b1 & b2 & ->).
    rewrite <- app_assoc in Heq. simpl in Heq.
    apply in_app_iff. left. eapply IH. exact Heq.
Qed.

Lemma path_mono (R S : string -> string -> Prop) (x y : string) :
  (forall a b, R a b -> S a b) -> path R x y -> path S x y.
Proof.
  intros H. induction 1; [apply path_edge | eapply path_step]; eauto.
Qed.

Lemma cycle_not_emitted (D : dict (list string)) (P : list string) (x : string) :
  NoDup P -> topo D P ->
  path (fun a b => In b (deps D a)) x x -> ~ In x P.
Proof.
  intros Hnd HP Hpath Hx.
  apply in_split in Hx. destruct Hx as (before & after & ->).
  apply NoDup_remove_2 in Hnd. apply Hnd, in_app_iff. left.
  eapply path_before; eauto.
Qed.

(** ** Falling back *)

Lemma missing_short (P K : list string) (x : string) :
  NoDup P -> incl P K -> In x K -> ~ In x P ->
  List.length P < List.length K.
Proof.
  intros Hnd Hincl Hx Hni.
  assert (H : NoDup (x :: P)) by now constructor.
  apply NoDup_incl_length with (l' := K) in H.
  - simpl in H. lia.
  - intros y [<-|Hy]; auto.
Qed.

(** When fewer identifiers are popped than there are apps, the function
    returns its argument. *)
Lemma fallback (apps : list app) (P : list string) :
  topological apps = Ok (emitted (snd (build apps)) P) ->
  incl P (keys (fst (build apps))) ->
  List.length P < List.length apps ->
  sort_apps_by_dependencies apps = Ok apps.
Proof.
  intros Hrun Hincl Hlt. rewrite (sort_of_run apps P Hrun Hincl).
  destruct (Nat.eqb_spec (List.length P) (List.length apps)); [lia | reflexivity].
Qed.

(** An identifier that is never popped forces the fallback. *)
Lemma fallback_of_missing (apps : list app) (P : list string)
    (in_degree : dict Z) (x : string) :
  topological apps = Ok (emitted (snd (build apps)) P) ->
  Inv (fst (build apps)) P [] in_degree ->
  In x (map identifier apps) -> ~ In x P ->
  sort_apps_by_dependencies apps = Ok apps.
Proof.
  intros Hrun [Hnd Hincl _ _ _] Hx Hni. rewrite app_nil_r in *.
  apply (fallback apps P Hrun Hincl).
  apply Nat.lt_le_trans with (List.length (keys (fst (build apps)))).
  - apply missing_short with x; auto. now apply build_keys_In.
  - apply build_keys_length.
Qed.

(** A repeated identifier forces the fallback. *)
Lemma fallback_of_duplicates (apps : list app) (P : list string)
    (in_degree : dict Z) :
  topological apps = Ok (emitted (snd (build apps)) P) ->
  Inv (fst (build apps)) P [] in_degree ->
  ~ unique_identifiers apps ->
  List.length P < List.length apps.
Proof.
  intros Hrun [Hnd Hincl _ _ _] Hdup. rewrite app_nil_r in *.
  apply Nat.le_lt_trans with (List.length (keys (fst (build apps)))).
  - now apply NoDup_incl_length.
  - now apply build_keys_short.
Qed.

Lemma unique_identifiers_dec (apps : list app) :
  unique_identifiers apps \/ ~ unique_identifiers apps.
Proof.
  unfold unique_identifiers.
  destruct (ListDec.NoDup_dec string_dec (map identifier apps)); auto.
Qed.

Lemma path_source (R : string -> string -> Prop) (x y : string) :
  path R x y -> exists z, R x z.
Proof. destruct 1; eauto. Qed.

(** An identifier that the loop can never pop forces the fallback, with
    or without repeated identifiers. *)
Lemma never_popped_fallback (apps : list app) (x : string) :
  In x (map identifier apps) ->
  (unique_identifiers apps ->
   forall P, NoDup P -> topo (fst (build apps)) P -> ~ In x P) ->
  sort_apps_by_dependencies apps = Ok apps.
Proof.
  intros Hx Hnever.
  destruct (topological_run apps) as (P & deg & Hrun & HI).
  destruct (unique_identifiers_dec apps) as [Hu|Hdup].
  - apply (fallback_of_missing apps P deg x Hrun HI Hx).
    destruct HI as [Hnd _ _ _ Htopo]. rewrite app_nil_r in Hnd. auto.
  - pose proof (fallback_of_duplicates apps P deg Hrun HI Hdup) as Hlt.
    destruct HI as [_ Hincl _ _ _]. rewrite app_nil_r in Hincl.
    now apply (fallback apps P).
Qed.

Lemma cycle_fallback (apps : list app) (x : string) :
  path (edge apps) x x -> sort_apps_by_dependencies apps = Ok apps.
Proof.
  intros Hcycle. apply never_popped_fallback with x.
  - destruct (path_source _ _ _ Hcycle) as (z & a & Hin & <- & _).
    now apply in_map.
  - intros Hu P Hnd Htopo.
    apply (cycle_not_emitted (fst (build apps))); auto.
    apply path_mono with (R := edge apps); auto.
    intros a b. now apply edge_deps.
Qed.

Lemma dangling_fallback (apps : list app) (a : app) (r : string) :
  In a apps -> references a r -> ~ In r (map identifier apps) ->
  sort_apps_by_dependencies apps = Ok apps.
Proof.
  intros Hin Href Hr.
  destruct (topological_run apps) as (P & deg & Hrun & HI).
  destruct (unique_identifiers_dec apps) as [Hu|Hdup].
  - apply (fallback_of_missing apps P deg (identifier a) Hrun HI).
    + now apply in_map.
    + destruct HI as [_ Hincl _ _ Htopo]. rewrite app_nil_r in Hincl.
      intros HP. apply Hr, build_keys_In, Hincl.
      apply (topo_closed _ _ Htopo _ HP).
      apply edge_deps; [exact Hu|]. exists a. auto.
  - pose proof (fallback_of_duplicates apps P deg Hrun HI Hdup) as Hlt.
    destruct HI as [_ Hincl _ _ _]. rewrite app_nil_r in Hincl.
    now apply (fallback apps P).
Qed.

(** ** Acyclic batches are emitted completely *)

(** [walk R x l]: [l] is visited from [x] along [R], one step at a time. *)
Fixpoint walk (R : string -> string -> Prop) (x : string) (l : list string)
    : Prop :=
  match l with
  | [] => True
  | y :: l' => R x y /\ walk R y l'
  end.

Lemma walk_path (R : string -> string -> Prop) (l : list string) :
  forall x y, walk R x l -> In y l -> path R x y.
Proof.
  induction l as [|z l IH]; intros x y Hw Hy; [contradiction|].
  destruct Hw as [Hxz Hw]. destruct Hy as [->|Hy].
  - now apply path_edge.
  - apply path_step with z; auto.
Qed.

Lemma walk_cycle (R : string -> string -> Prop) (l : list string) :
  forall x, walk R x l -> ~ NoDup (x :: l) -> exists z, path R z z.
Proof.
  induction l as [|y l IH]; intros x Hw Hdup.
  - exfalso. apply Hdup. constructor; [simpl; tauto | constructor].
  - destruct (in_dec string_dec x (y :: l)) as [Hx|Hx].
    + exists x. eapply walk_path; eauto.
    + destruct Hw as [_ Hw]. apply (IH y Hw).
      intros Hnd. apply Hdup. now constructor.
Qed.

Lemma long_walk (R : string -> string -> Prop) (S : string -> Prop) :
  (forall k, S k -> exists d, R k d /\ S d) ->
  forall n k, S k ->
  exists l, List.length l = n /\ walk R k l /\ Forall S l.
Proof.
  intros Hstep. induction n as [|n IH]; intros k Hk.
  - exists []. simpl. auto.
  - destruct (Hstep k Hk) as (d & Hkd & Hd).
    destruct (IH d Hd) as (l & Hlen & Hw & Hall).
    exists (d :: l). simpl. auto.
Qed.

(** In a finite set, a relation under which every element of [S] has a
    successor in [S] has a cycle as soon as [S] is inhabited. *)
Lemma stuck_cycle (R : string -> string -> Prop) (S : string -> Prop)
    (K : list string) :
  (forall k, S k -> In k K) ->
  (forall k, S k -> exists d, R k d /\ S d) ->
  forall k, S k -> exists z, path R z z.
Proof.
  intros HK Hstep k Hk.
  destruct (long_walk R S Hstep (List.length K) k Hk) as (l & Hlen & Hw & Hall).
  apply (walk_cycle R l k Hw). intros Hnd.
  apply NoDup_incl_length with (l' := K) in Hnd.
  - simpl in Hnd. lia.
  - intros y [<-|Hy]; [auto|]. apply HK.
    rewrite Forall_forall in Hall. auto.
Qed.

Lemma not_incl_witness (l P : list string) :
  ~ incl l P -> exists d, In d l /\ ~ In d P.
Proof.
  induction l as [|x l IH]; intros H.
  - exfalso. apply H. intros y [].
  - destruct (in_dec string_dec x P) as [Hx|Hx].
    + destruct IH as (d & Hd & Hni).
      * intros Hl. apply H. intros y [<-|Hy]; auto.
      * exists d. split; [now right | exact Hni].
    + exists x. split; [now left | exact Hx].
Qed.

(** Without cycles and dangling references every identifier is popped. *)
Lemma all_popped (apps : list app) (P : list string) (in_degree : dict Z) :
  acyclic apps -> no_dangling apps ->
  Inv (fst (build apps)) P [] in_degree ->
  incl (keys (fst (build apps))) P.
Proof.
  intros Hacyc Hdang [_ _ _ Hready _] k Hk.
  destruct (in_dec string_dec k P) as [HP|HP]; [exact HP | exfalso].
  set (S := fun k => In k (keys (fst (build apps))) /\ ~ In k P).
  destruct (stuck_cycle (edge apps) S (keys (fst (build apps)))) with (k := k)
    as (z & Hz).
  - intros x [Hx _]. exact Hx.
  - intros x [Hx Hni].
    assert (Hopen : ~ incl (deps (fst (build apps)) x) P).
    { intros Hi. apply Hni. apply pending_zero in Hi.
      apply (Hready x Hx) in Hi. now rewrite app_nil_r in Hi. }
    destruct (not_incl_witness _ _ Hopen) as (d & Hd & HdP).
    apply deps_edge in Hd. exists d. split; [exact Hd|]. split; [|exact HdP].
    destruct Hd as (a & Hin & _ & Href).
    apply build_keys_In. eapply Hdang; eauto.
  - split; assumption.
  - exact (Hacyc z Hz).
Qed.

Lemma emitted_all (apps l : list app) :
  unique_identifiers apps -> incl l apps ->
  emitted (snd (build apps)) (map identifier l) = l.
Proof.
  intros Hu. induction l as [|a l IH]; intros Hincl; [reflexivity|].
  unfold emitted in *. simpl.
  assert (Ha : In a apps) by (apply Hincl; now left).
  assert (Hk : In (identifier a) (keys (fst (build apps)))).
  { apply build_keys_In. now apply in_map. }
  destruct (build_total _ _ Hk) as [b Hb]. rewrite Hb.
  destruct (build_lookup _ _ _ Hb) as (Hid & Hinb & _).
  assert (b = a) by (apply (unique_app apps); auto). subst b.
  simpl. f_equal. apply IH. intros x Hx. apply Hincl. now right.
Qed.

(** ** Checks that decide the hypotheses on a given batch *)

Definition edges (apps : list app) : list (string * string) :=
  flat_map (fun a => map (fun r => (identifier a, r)) (deps_of a)) apps.

Lemma edges_In (apps : list app) (x y : string) :
  edge apps x y <-> In (x, y) (edges apps).
Proof.
  unfold edge, edges. rewrite in_flat_map. split.
  - intros (a & Hin & <- & Href). exists a. split; [exact Hin|].
    apply in_map_iff. exists y. split; [reflexivity|].
    now apply deps_of_references.
  - intros (a & Hin & Hxy). apply in_map_iff in Hxy.
    destruct Hxy as (r & Heq & Hr). inversion Heq; subst.
    exists a. repeat split; auto. now apply deps_of_references.
Qed.

Lemma path_rank (R : string -> string -> Prop) (rank : string -> nat) :
  (forall a b, R a b -> rank b < rank a) ->
  forall x y, path R x y -> rank y < rank x.
Proof.
  intros Hedge x y Hp. induction Hp as [x y Hxy | x z y Hxz Hzy IH].
  - auto.
  - apply Hedge in Hxz. lia.
Qed.

Lemma acyclic_by_rank (rank : string -> nat) (apps : list app) :
  forallb (fun xy => Nat.ltb (rank (snd xy)) (rank (fst xy))) (edges apps) = true ->
  acyclic apps.
Proof.
  intros Hall x Hx. apply (path_rank (edge apps) rank) in Hx; [lia|].
  intros a b Hab. apply edges_In in Hab.
  rewrite forallb_forall in Hall. apply Hall in Hab.
  now apply Nat.ltb_lt in Hab.
Qed.

Lemma no_dangling_by_check (apps : list app) :
  forallb (fun xy => mem (snd xy) (map identifier apps)) (edges apps) = true ->
  no_dangling apps.
Proof.
  intros Hall a r Hin Href.
  assert (Hedge : edge apps (identifier a) r) by (exists a; auto).
  apply edges_In in Hedge. rewrite forallb_forall in Hall.
  apply Hall in Hedge. now apply mem_In in Hedge.
Qed.

(* ================================================================== *)
(** * The resolver: results *)
(* ================================================================== *)

(** ** Sample batches *)

Definition lookup_field (target : string) : string * control :=
  ("ref_" ++ target,
   {| fulltype := Some "applookup/select"; lookup_app_ref := Some target |})%string.

Definition definition (id : string) (targets : list string) : app :=
  {| name := id; identifier := id;
     controls := Some (map lookup_field targets) |}.

(** [teams] references [employees]. *)
Definition staff_batch : list app :=
  [definition "teams" ["employees"]; definition "employees" []].

(** [a] and [b] reference each other. *)
Definition cyclic_batch : list app :=
  [definition "a" ["b"]; definition "b" ["a"]].

(** [a] references [zz], which no definition of the batch is. *)
Definition dangling_batch : list app :=
  [definition "a" ["zz"]].

(** [b] references [a] and itself. *)
Definition self_batch : list app :=
  [definition "b" ["a"; "b"]; definition "a" []].

(** ** C1 *)

(** C1: for every batch with unique identifiers whose cross-reference
    graph has no cycle and no dangling reference,
    [sort_apps_by_dependencies] returns a permutation of the input in
    which every definition comes after every definition it references
    through an applookup field. *)
Theorem sort_orders_acyclic_batch (apps : list app) :
  unique_identifiers apps -> acyclic apps -> no_dangling apps ->
  exists out,
    sort_apps_by_dependencies apps = Ok out /\
    Permutation apps out /\
    respects out.
Proof.
  intros Hu Hacyc Hdang.
  destruct (topological_run apps) as (P & deg & Hrun & HI).
  pose proof (all_popped apps P deg Hacyc Hdang HI) as Hall.
  destruct HI as [Hnd Hincl _ _ Htopo]. rewrite app_nil_r in *.
  pose proof (build_keys_unique apps Hu) as HK.
  assert (Hperm : Permutation (map identifier apps) P).
  { apply NoDup_Permutation; [exact Hu | exact Hnd |].
    intros x. rewrite <- HK. split; auto. }
  assert (Hlen : List.length P = List.length apps).
  { rewrite <- (Permutation_length Hperm). apply length_map. }
  exists (emitted (snd (build apps)) P). split; [|split].
  - rewrite (sort_of_run apps P Hrun Hincl), Hlen, Nat.eqb_refl. reflexivity.
  - apply Permutation_trans with (emitted (snd (build apps)) (map identifier apps)).
    + rewrite emitted_all; [reflexivity | exact Hu | apply incl_refl].
    + unfold emitted. now apply Permutation_flat_map.
  - intros before a after r Heq Href.
    pose proof (run_identifiers apps P Hincl) as Hids.
    rewrite Heq, map_app in Hids. simpl in Hids.
    apply (topo_before _ _ Htopo _ _ _ (eq_sym Hids)).
    apply edge_deps; [exact Hu|]. exists a. repeat split; auto.
    assert (Ha : In a (emitted (snd (build apps)) P)).
    { rewrite Heq. apply in_app_iff. right. now left. }
    apply emitted_In in Ha. destruct Ha as (k & _ & Hk).
    now destruct (build_lookup _ _ _ Hk).
Qed.

Lemma staff_batch_unique : unique_identifiers staff_batch.
Proof.
  unfold unique_identifiers. simpl.
  repeat constructor; simpl; intuition discriminate.
Qed.

Lemma sort_orders_acyclic_batch_witness :
  exists out,
    sort_apps_by_dependencies staff_batch = Ok out /\
    Permutation staff_batch out /\
    respects out.
Proof.
  apply (sort_orders_acyclic_batch staff_batch).
  - exact staff_batch_unique.
  - apply (acyclic_by_rank
             (fun k => if String.eqb k "teams" then 1 else 0)).
    reflexivity.
  - apply no_dangling_by_check. reflexivity.
Defined.

(** ** C3 *)

(** C3: for every batch that contains a dependency cycle, or a
    cross-reference to an identifier that no definition of the batch has,
    [sort_apps_by_dependencies] raises nothing and returns the input list
    itself. *)
Theorem sort_falls_back_on_cycle_or_dangling (apps : list app) :
  (exists x, path (edge apps) x x) \/
  (exists a r, In a apps /\ references a r /\ ~ In r (map identifier apps)) ->
  sort_apps_by_dependencies apps = Ok apps.
Proof.
  intros [(x & Hx) | (a & r & Hin & Href & Hr)].
  - now apply cycle_fallback with x.
  - now apply dangling_fallback with a r.
Qed.

Lemma cyclic_batch_cycle : path (edge cyclic_batch) "a" "a".
Proof.
  apply path_step with "b"; [|apply path_edge];
    apply edges_In; simpl; auto.
Qed.

Lemma sort_falls_back_on_cycle_or_dangling_witness :
  sort_apps_by_dependencies cyclic_batch = Ok cyclic_batch /\
  sort_apps_by_dependencies dangling_batch = Ok dangling_batch.
Proof.
  split.
  - apply (sort_falls_back_on_cycle_or_dangling cyclic_batch).
    left. exists "a". exact cyclic_batch_cycle.
  - apply (sort_falls_back_on_cycle_or_dangling dangling_batch).
    right. exists (definition "a" ["zz"]), "zz". split; [now left|]. split.
    + apply deps_of_references. simpl. auto.
    + simpl. intros [H|[]]. discriminate H.
Defined.

(** ** C2 *)

(** The graph as the specification describes it: a field that names its
    own definition is no edge. *)
Definition proper_edge (apps : list app) (x y : string) : Prop :=
  edge apps x y /\ x <> y.

(** The order the specification asks for: a self-reference puts no
    constraint on the position of its definition. *)
Definition respects_proper (out : list app) : Prop :=
  forall before a after r,
    out = before ++ a :: after -> references a r -> r <> identifier a ->
    In r (map identifier before).

(** C2, as stated, fails on [self_batch]: the batch has unique
    identifiers, no dangling reference and no cycle apart from the
    self-reference of [b], and yet the function returns no
    dependency-respecting order of it. *)
Lemma self_reference_counterexample :
  unique_identifiers self_batch /\
  no_dangling self_batch /\
  (forall x, ~ path (proper_edge self_batch) x x) /\
  (exists a, In a self_batch /\ references a (identifier a)) /\
  sort_apps_by_dependencies self_batch = Ok self_batch /\
  ~ (exists out,
       sort_apps_by_dependencies self_batch = Ok out /\
       Permutation self_batch out /\
       respects_proper out).
Proof.
  assert (Hself : references (definition "b" ["a"; "b"]) "b").
  { apply deps_of_references. simpl. auto. }
  assert (Hother : references (definition "b" ["a"; "b"]) "a").
  { apply deps_of_references. simpl. auto. }
  split; [|split; [|split; [|split; [|split]]]].
  - unfold unique_identifiers. simpl.
    repeat constructor; simpl; intuition discriminate.
  - apply no_dangling_by_check. reflexivity.
  - intros x Hx.
    apply (path_rank (proper_edge self_batch)
             (fun k => if String.eqb k "b" then 1 else 0)) in Hx; [lia|].
    intros a b [Hab Hne]. apply edges_In in Hab. simpl in Hab.
    destruct Hab as [H|[H|[]]]; inversion H; subst; simpl;
      [lia | now elim Hne].
  - exists (definition "b" ["a"; "b"]). split; [now left | exact Hself].
  - reflexivity.
  - intros (out & Hsort & _ & Hresp).
    assert (out = self_batch)
      by (vm_compute in Hsort; inversion Hsort; reflexivity).
    subst out.
    apply (Hresp [] (definition "b" ["a"; "b"]) [definition "a" []] "a");
      [reflexivity | exact Hother | discriminate].
Qed.

(** C2, amended: a cross-reference field whose target is the identifier
    of its own definition counts as a dependency like any other.  It is
    never satisfied, so the definition is never emitted by the loop, and
    for every batch with such a definition the function returns the input
    list itself. *)
Theorem self_reference_falls_back (apps : list app) (a : app) :
  In a apps -> references a (identifier a) ->
  (exists sorted_apps,
     topological apps = Ok sorted_apps /\ ~ In a sorted_apps) /\
  sort_apps_by_dependencies apps = Ok apps.
Proof.
  intros Hin Href. split.
  - destruct (topological_run apps) as (P & deg & Hrun & HI).
    exists (emitted (snd (build apps)) P). split; [exact Hrun|].
    intros Ha. apply emitted_In in Ha. destruct Ha as (k & Hk & Hget).
    destruct (build_lookup _ _ _ Hget) as (Hid & _ & Hd).
    destruct HI as [Hnd _ _ _ Htopo]. rewrite app_nil_r in Hnd.
    apply (cycle_not_emitted (fst (build apps)) P k Hnd Htopo); [|exact Hk].
    apply path_edge. unfold deps. rewrite Hd, <- Hid.
    now apply deps_of_references.
  - apply cycle_fallback with (identifier a).
    apply path_edge. exists a. auto.
Qed.

Lemma self_reference_falls_back_witness :
  (exists sorted_apps,
     topological self_batch = Ok sorted_apps /\
     ~ In (definition "b" ["a"; "b"]) sorted_apps) /\
  sort_apps_by_dependencies self_batch = Ok self_batch.
Proof.
  apply (self_reference_falls_back self_batch (definition "b" ["a"; "b"])).
  - now left.
  - apply deps_of_references. simpl. auto.
Defined.

(** ** C10 *)

Lemma repeated_not_unique (l1 l2 l3 : list app) (a b : app) :
  identifier a = identifier b ->
  ~ unique_identifiers (l1 ++ a :: l2 ++ b :: l3).
Proof.
  unfold unique_identifiers. intros Hid Hnd.
  rewrite map_app in Hnd. simpl in Hnd.
  apply NoDup_remove_2 in Hnd. apply Hnd.
  rewrite map_app. simpl. rewrite !in_app_iff. simpl. auto.
Qed.

(** C10: when two definitions of the input carry the same identifier, the
    function raises nothing; the later definition replaces the earlier one
    in [app_map] (whenever no still later definition has that identifier),
    the list built by the loop is strictly shorter than the input, and the
    function returns the input list itself, duplicates included. *)
Theorem duplicate_identifier_falls_back (l1 l2 l3 : list app) (a b : app) :
  identifier a = identifier b ->
  let apps := l1 ++ a :: l2 ++ b :: l3 in
  (~ In (identifier b) (map identifier l3) ->
   dget (snd (build apps)) (identifier a) = Some b) /\
  (exists sorted_apps,
     topological apps = Ok sorted_apps /\
     List.length sorted_apps < List.length apps) /\
  sort_apps_by_dependencies apps = Ok apps.
Proof.
  intros Hid apps.
  pose proof (repeated_not_unique l1 l2 l3 a b Hid) as Hdup. fold apps in Hdup.
  destruct (topological_run apps) as (P & deg & Hrun & HI).
  pose proof (fallback_of_duplicates apps P deg Hrun HI Hdup) as Hlt.
  destruct HI as [_ Hincl _ _ _]. rewrite app_nil_r in Hincl.
  split; [|split].
  - intros Hlast. rewrite Hid. unfold apps.
    replace (l1 ++ a :: l2 ++ b :: l3) with ((l1 ++ a :: l2) ++ b :: l3)
      by now rewrite <- app_assoc.
    now apply build_last_wins.
  - exists (emitted (snd (build apps)) P). split; [exact Hrun|].
    now rewrite run_length.
  - now apply (fallback apps P).
Qed.

Lemma duplicate_identifier_falls_back_witness :
  let apps := [] ++ definition "a" ["b"] :: [definition "b" []]
              ++ definition "a" [] :: [] in
  (~ In "a" (map identifier []) ->
   dget (snd (build apps)) "a" = Some (definition "a" [])) /\
  (exists sorted_apps,
     topological apps = Ok sorted_apps /\
     List.length sorted_apps < List.length apps) /\
  sort_apps_by_dependencies apps = Ok apps.
Proof.
  apply (duplicate_identifier_falls_back
           [] [definition "b" []] [] (definition "a" ["b"]) (definition "a" [])).
  reflexivity.
Defined.

(** ** The result is always a rearrangement of the input *)

Lemma emitted_permutation (apps : list app) (P : list string) :
  unique_identifiers apps -> NoDup P ->
  (forall x, In x (map identifier apps) <-> In x P) ->
  Permutation apps (emitted (snd (build apps)) P).
Proof.
  intros Hu Hnd Hsame.
  apply Permutation_trans with (emitted (snd (build apps)) (map identifier apps)).
  - rewrite emitted_all; [reflexivity | exact Hu | apply incl_refl].
  - unfold emitted. apply Permutation_flat_map.
    now apply NoDup_Permutation.
Qed.

(** On every input the function returns, raises nothing, and its result
    holds the definitions of the input, each as often as the input does. *)
Theorem sort_returns_permutation (apps : list app) :
  exists out,
    sort_apps_by_dependencies apps = Ok out /\ Permutation apps out.
Proof.
  destruct (topological_run apps) as (P & deg & Hrun & HI).
  pose proof (fun H => fallback_of_duplicates apps P deg Hrun HI H) as Hshort.
  destruct HI as [Hnd Hincl _ _ _]. rewrite app_nil_r in *.
  rewrite (sort_of_run apps P Hrun Hincl).
  destruct (Nat.eqb_spec (List.length P) (List.length apps)) as [Hlen|Hlen].
  - exists (emitted (snd (build apps)) P). split; [reflexivity|].
    destruct (unique_identifiers_dec apps) as [Hu|Hdup];
      [|specialize (Hshort Hdup); lia].
    apply emitted_permutation; auto.
    pose proof (build_keys_unique apps Hu) as HK.
    intros x. rewrite <- HK. split; [|apply Hincl].
    apply NoDup_length_incl; auto.
    rewrite HK, length_map. lia.
  - exists apps. split; [reflexivity | apply Permutation_refl].
Qed.

End AgentFacts.

(* ================================================================== *)
(** * The generator: naming *)
(* ================================================================== *)

Module GeneratorFacts.
Import Py PyFacts Generator.
Local Open Scope string_scope.

(** ** Strings all of whose characters satisfy a test *)

Fixpoint all_chars (p : ascii -> bool) (s : string) : bool :=
  match s with
  | EmptyString => true
  | String c s' => p c && all_chars p s'
  end.

Lemma all_chars_app (p : ascii -> bool) (s t : string) :
  all_chars p (s ++ t) = all_chars p s && all_chars p t.
Proof.
  induction s as [|c s IH]; simpl; [reflexivity|].
  now rewrite IH, andb_assoc.
Qed.

Lemma all_chars_smap (p : ascii -> bool) (f : ascii -> ascii) (s : string) :
  (forall c, p (f c) = true) -> all_chars p (smap f s) = true.
Proof.
  intros H. induction s as [|c s IH]; simpl; [reflexivity|].
  now rewrite H, IH.
Qed.

Lemma all_chars_weaken (p q : ascii -> bool) (s : string) :
  (forall c, p c = true -> q c = true) ->
  all_chars p s = true -> all_chars q s = true.
Proof.
  intros H. induction s as [|c s IH]; simpl; [reflexivity|].
  intros Hs. apply andb_true_iff in Hs. destruct Hs as [Hc Hs].
  now rewrite (H c Hc), IH.
Qed.

(** ** Character classes *)

Ltac by_cases_on_ascii c :=
  destruct c as [[|] [|] [|] [|] [|] [|] [|] [|]];
  try reflexivity; try discriminate.

Lemma alnum_not_space (c : ascii) : is_alnum c = true -> is_space c = false.
Proof. by_cases_on_ascii c. Qed.

Lemma to_upper_alnum (c : ascii) : is_alnum c = true -> is_alnum (to_upper c) = true.
Proof. by_cases_on_ascii c. Qed.

Lemma to_lower_alnum (c : ascii) : is_alnum c = true -> is_alnum (to_lower c) = true.
Proof. by_cases_on_ascii c. Qed.

Lemma to_upper_idem (c : ascii) : to_upper (to_upper c) = to_upper c.
Proof. by_cases_on_ascii c. Qed.

Lemma to_lower_idem (c : ascii) : to_lower (to_lower c) = to_lower c.
Proof. by_cases_on_ascii c. Qed.

(** ** The pieces of [_to_pascal_case] on alphanumeric text *)

Lemma capitalize_alnum (w : string) :
  all_chars is_alnum w = true -> all_chars is_alnum (capitalize w) = true.
Proof.
  destruct w as [|c w]; simpl; [reflexivity|].
  intros H. apply andb_true_iff in H. destruct H as [Hc Hw].
  rewrite (to_upper_alnum c Hc). simpl.
  unfold lower. induction w as [|d w IH]; simpl; [reflexivity|].
  simpl in Hw. apply andb_true_iff in Hw. destruct Hw as [Hd Hw].
  now rewrite (to_lower_alnum d Hd), IH.
Qed.

Lemma capitalize_idem (w : string) : capitalize (capitalize w) = capitalize w.
Proof.
  destruct w as [|c w]; simpl; [reflexivity|].
  rewrite to_upper_idem. f_equal. unfold lower.
  induction w as [|d w IH]; simpl; [reflexivity|].
  now rewrite to_lower_idem, IH.
Qed.

(** A pattern that starts with a character outside a class is not found
    in text of that class, and [replace] leaves such text as it is. *)
Lemma replace_absent (p : ascii -> bool) (c0 : ascii) (old' new s : string) :
  p c0 = false -> all_chars p s = true ->
  replace (String c0 old') new s = s.
Proof.
  intros Hc0. unfold replace.
  induction s as [|c s IH]; simpl; [reflexivity|].
  intros H. apply andb_true_iff in H. destruct H as [Hc Hs].
  destruct (ascii_dec c0 c) as [->|Hne]; [congruence|].
  simpl in IH. now rewrite IH.
Qed.

Lemma sub_non_alnum_id (s : string) :
  all_chars is_alnum s = true -> sub_non_alnum s = s.
Proof.
  unfold sub_non_alnum. induction s as [|c s IH]; simpl; [reflexivity|].
  intros H. apply andb_true_iff in H. destruct H as [Hc Hs].
  now rewrite Hc, IH.
Qed.

Lemma append_empty_r (s : string) : s ++ "" = s.
Proof. induction s as [|c s IH]; simpl; [reflexivity | now rewrite IH]. Qed.

Lemma append_assoc (s t u : string) : (s ++ t) ++ u = s ++ (t ++ u).
Proof. induction s as [|c s IH]; simpl; [reflexivity | now rewrite IH]. Qed.

(** Text without white space is a single word, or no word when empty. *)
Lemma split_from_word (s cur : string) :
  all_chars is_alnum s = true ->
  split_from cur s =
  match cur ++ s with EmptyString => [] | String _ _ => [cur ++ s] end.
Proof.
  revert cur. induction s as [|c s IH]; intros cur H; simpl.
  - rewrite append_empty_r. reflexivity.
  - simpl in H. apply andb_true_iff in H. destruct H as [Hc Hs].
    rewrite (alnum_not_space c Hc), (IH _ Hs), append_assoc. reflexivity.
Qed.

(** On an alphanumeric word the transform is [capitalize]. *)
Lemma pascal_case_word (w : string) :
  all_chars is_alnum w = true -> _to_pascal_case w = capitalize w.
Proof.
  intros H. unfold _to_pascal_case.
  assert (Hrep : forall old' new,
            replace (String (ascii_of_nat 195) old') new w = w).
  { intros old' new. now apply (replace_absent is_alnum). }
  change "ä" with (String (ascii_of_nat 195) (String (ascii_of_nat 164) "")).
  change "ö" with (String (ascii_of_nat 195) (String (ascii_of_nat 182) "")).
  change "ü" with (String (ascii_of_nat 195) (String (ascii_of_nat 188) "")).
  change "ß" with (String (ascii_of_nat 195) (String (ascii_of_nat 159) "")).
  rewrite !Hrep, (sub_non_alnum_id w H).
  unfold split. rewrite (split_from_word w "" H). simpl.
  destruct w; reflexivity.
Qed.

(** ** The result of [_to_pascal_case] is alphanumeric *)

Lemma split_from_alnum (s cur : string) :
  all_chars is_alnum cur = true ->
  all_chars (fun c => is_alnum c || is_space c) s = true ->
  Forall (fun w => all_chars is_alnum w = true) (split_from cur s).
Proof.
  revert cur. induction s as [|c s IH]; intros cur Hcur Hs; simpl.
  - destruct cur; constructor; auto.
  - simpl in Hs. apply andb_true_iff in Hs. destruct Hs as [Hc Hs].
    destruct (is_space c) eqn:E.
    + destruct cur; [now apply IH|].
      constructor; [exact Hcur | now apply IH].
    + apply IH; [|exact Hs].
      rewrite all_chars_app, Hcur. simpl.
      rewrite orb_false_r in Hc. now rewrite Hc.
Qed.

Lemma sub_non_alnum_class (s : string) :
  all_chars (fun c => is_alnum c || is_space c) (sub_non_alnum s) = true.
Proof.
  unfold sub_non_alnum. apply all_chars_smap.
  intros c. destruct (is_alnum c) eqn:E; [now rewrite E | reflexivity].
Qed.

Lemma join_empty_alnum (ws : list string) :
  Forall (fun w => all_chars is_alnum w = true) ws ->
  all_chars is_alnum (join "" ws) = true.
Proof.
  unfold join. induction 1 as [|w ws Hw Hws IH]; [reflexivity|].
  simpl. destruct ws as [|w' ws]; [exact Hw|].
  rewrite all_chars_app, Hw. simpl. exact IH.
Qed.

Lemma pascal_case_alnum (text : string) :
  all_chars is_alnum (_to_pascal_case text) = true.
Proof.
  unfold _to_pascal_case. apply join_empty_alnum.
  apply Forall_map. unfold split.
  eapply Forall_impl; [|apply split_from_alnum;
                        [reflexivity | apply sub_non_alnum_class]].
  intros w Hw. now apply capitalize_alnum.
Qed.

(** ** C4 *)

(** C4, as stated, fails on ["workout_logs"]: the second application
    lower-cases the capital inside the word. *)
Lemma pascal_case_not_idempotent :
  _to_pascal_case "workout_logs" = "WorkoutLogs" /\
  _to_pascal_case (_to_pascal_case "workout_logs") = "Workoutlogs" /\
  _to_pascal_case (_to_pascal_case "workout_logs")
  <> _to_pascal_case "workout_logs".
Proof.
  split; [reflexivity|]. split; [reflexivity|].
  intros H. vm_compute in H. discriminate H.
Qed.

(** C4, amended: [_to_pascal_case] maps ["workout_logs"] to
    ["WorkoutLogs"] and ["müsli-bestand"] to ["MuesliBestand"]; a second
    application capitalizes the first result as one word (first character
    upper-cased, all others lower-cased), so the transform is stable from
    the second application on, and an alphanumeric word that is its own
    capitalization is a fixed point. *)
Theorem pascal_case_twice :
  (forall text,
     _to_pascal_case (_to_pascal_case text) = capitalize (_to_pascal_case text)) /\
  (forall text,
     _to_pascal_case (_to_pascal_case (_to_pascal_case text))
     = _to_pascal_case (_to_pascal_case text)) /\
  (forall w,
     all_chars is_alnum w = true -> capitalize w = w -> _to_pascal_case w = w) /\
  _to_pascal_case "workout_logs" = "WorkoutLogs" /\
  _to_pascal_case "müsli-bestand" = "MuesliBestand".
Proof.
  assert (Htwice : forall text,
            _to_pascal_case (_to_pascal_case text)
            = capitalize (_to_pascal_case text)).
  { intros text. apply pascal_case_word, pascal_case_alnum. }
  split; [exact Htwice|]. split; [|split; [|split; reflexivity]].
  - intros text. rewrite (Htwice text).
    rewrite pascal_case_word by apply capitalize_alnum, pascal_case_alnum.
    apply capitalize_idem.
  - intros w Hw Hcap. rewrite (pascal_case_word w Hw). exact Hcap.
Qed.

Lemma pascal_case_twice_witness : _to_pascal_case "Workout" = "Workout".
Proof.
  apply (proj1 (proj2 (proj2 pascal_case_twice)) "Workout"); reflexivity.
Defined.

(* ================================================================== *)
(** * The generator: constant names *)
(* ================================================================== *)

(** [s] with every character replaced by the string [f] gives for it. *)
Fixpoint expand (f : ascii -> string) (s : string) : string :=
  match s with
  | EmptyString => EmptyString
  | String c s' => f c ++ expand f s'
  end.

Lemma prefix_empty (s : string) : prefix "" s = true.
Proof. destruct s; reflexivity. Qed.

(** [replace] with a one-character pattern works character by character. *)
Lemma replace_one_char (a : ascii) (new s : string) :
  replace (String a "") new s
  = expand (fun c => if Ascii.eqb c a then new else String c "") s.
Proof.
  unfold replace. induction s as [|c s IH]; simpl; [reflexivity|].
  destruct (ascii_dec a c) as [->|Hne].
  - rewrite prefix_empty, Ascii.eqb_refl. simpl in IH. now rewrite IH.
  - destruct (Ascii.eqb_spec c a) as [->|_]; [congruence|].
    simpl in *. now rewrite IH.
Qed.

(** The constant-name transform described character by character: a
    hyphen or a space becomes an underscore, an ampersand is dropped. *)
Fixpoint separators (s : string) : string :=
  match s with
  | EmptyString => EmptyString
  | String c s' =>
      if Ascii.eqb c "-" || Ascii.eqb c " " then String "_" (separators s')
      else if Ascii.eqb c "&" then separators s'
      else String c (separators s')
  end.

Definition const_name_by_char (app_key : string) : string :=
  sub_underscores (separators (upper app_key)).

Lemma replaces_separators (t : string) :
  replace " " "_" (replace "&" "" (replace "-" "_" t)) = separators t.
Proof.
  change " " with (String " "%char "").
  change "&" with (String "&"%char "").
  change "-" with (String "-"%char "").
  rewrite !replace_one_char.
  induction t as [|c t IH]; simpl; [reflexivity|].
  destruct (Ascii.eqb_spec c "-") as [->|H1]; simpl; [now rewrite IH|].
  destruct (Ascii.eqb_spec c "&") as [->|H2]; simpl; [exact IH|].
  destruct (Ascii.eqb_spec c " ") as [->|H3]; simpl; now rewrite IH.
Qed.

Lemma const_name_refines (app_key : string) :
  const_name app_key = const_name_by_char app_key.
Proof.
  unfold const_name, const_name_by_char. now rewrite replaces_separators.
Qed.

Lemma smap_app (f : ascii -> ascii) (s t : string) :
  smap f (s ++ t) = smap f s ++ smap f t.
Proof. induction s as [|c s IH]; simpl; [reflexivity | now rewrite IH]. Qed.

Lemma separators_app (s t : string) :
  separators (s ++ t) = separators s ++ separators t.
Proof.
  induction s as [|c s IH]; simpl; [reflexivity|]. rewrite IH.
  destruct (Ascii.eqb c "-" || Ascii.eqb c " "); [reflexivity|].
  destruct (Ascii.eqb c "&"); reflexivity.
Qed.

Definition is_separator (c : ascii) : bool :=
  Ascii.eqb c "-" || Ascii.eqb c "&" || Ascii.eqb c " ".

Lemma separators_clean (s : string) :
  all_chars (fun c => negb (is_separator c)) (separators s) = true.
Proof.
  induction s as [|c s IH]; simpl; [reflexivity|]. unfold is_separator.
  destruct (Ascii.eqb c "-") eqn:E1; simpl; [exact IH|].
  destruct (Ascii.eqb c " ") eqn:E2; simpl; [exact IH|].
  destruct (Ascii.eqb c "&") eqn:E3; simpl; [exact IH|].
  now rewrite E1, E2, E3.
Qed.

Lemma sub_underscores_all_chars (p : ascii -> bool) (s : string) :
  all_chars p s = true -> all_chars p (sub_underscores s) = true.
Proof.
  induction s as [|c s IH]; [reflexivity|].
  intros H. simpl in H. apply andb_true_iff in H. destruct H as [Hc Hs].
  specialize (IH Hs). simpl.
  destruct (Ascii.eqb c "_").
  - destruct s as [|c' s']; [simpl; now rewrite Hc|].
    destruct (Ascii.eqb c' "_"); [exact IH|].
    change (p c && all_chars p (sub_underscores (String c' s')) = true).
    now rewrite Hc, IH.
  - change (p c && all_chars p (sub_underscores s) = true).
    now rewrite Hc, IH.
Qed.

(** No two underscores in a row. *)
Fixpoint no_double_underscore (s : string) : bool :=
  match s with
  | String c ((String c' _) as s') =>
      negb (Ascii.eqb c "_" && Ascii.eqb c' "_") && no_double_underscore s'
  | _ => true
  end.

Definition first_char (s : string) : option ascii :=
  match s with
  | EmptyString => None
  | String c _ => Some c
  end.

Lemma sub_underscores_first (s : string) :
  first_char (sub_underscores s) = first_char s.
Proof.
  induction s as [|c s IH]; [reflexivity|]. simpl.
  destruct (Ascii.eqb_spec c "_") as [->|Hc]; [|reflexivity].
  destruct s as [|c' s']; [reflexivity|].
  destruct (Ascii.eqb_spec c' "_") as [->|Hc']; [|reflexivity].
  exact IH.
Qed.

Lemma sub_underscores_collapsed (s : string) :
  no_double_underscore (sub_underscores s) = true.
Proof.
  induction s as [|c s IH]; [reflexivity|]. simpl.
  destruct (Ascii.eqb_spec c "_") as [->|Hc].
  - destruct s as [|c' s']; [reflexivity|].
    destruct (Ascii.eqb_spec c' "_") as [->|Hc']; [exact IH|].
    pose proof (sub_underscores_first (String c' s')) as Hf.
    destruct (sub_underscores (String c' s')) as [|x X]; [reflexivity|].
    simpl in Hf. inversion Hf; subst x.
    change (negb (Ascii.eqb "_" "_" && Ascii.eqb c' "_")
            && no_double_underscore (String c' X) = true).
    rewrite IH. destruct (Ascii.eqb_spec c' "_"); [contradiction | reflexivity].
  - destruct (sub_underscores s) as [|x X]; [reflexivity|].
    change (negb (Ascii.eqb c "_" && Ascii.eqb x "_")
            && no_double_underscore (String x X) = true).
    rewrite IH. destruct (Ascii.eqb_spec c "_"); [contradiction | reflexivity].
Qed.

(** ** C5 *)

(** C5, as stated, fails on ["a&b"]: the ampersand is removed, no
    underscore takes its place. *)
Lemma const_name_drops_ampersand :
  const_name "a&b" = "AB" /\ const_name "a&b" <> "A_B".
Proof.
  split; [reflexivity|]. intros H. vm_compute in H. discriminate H.
Qed.

(** C5, amended: the constant-name transform upper-cases the identifier,
    replaces each hyphen and each space by an underscore, deletes each
    ampersand, then collapses every run of underscores to one underscore.
    The result has no hyphen, space or ampersand and no two underscores in
    a row; ["a--b  c"] maps to ["A_B_C"]; an ampersand leaves no trace in
    the key of the lookup table. *)
Theorem const_name_transform :
  (forall app_key, const_name app_key = const_name_by_char app_key) /\
  (forall app_key, no_double_underscore (const_name app_key) = true) /\
  (forall app_key,
     all_chars (fun c => negb (is_separator c)) (const_name app_key) = true) /\
  (forall s1 s2, const_name (s1 ++ "&" ++ s2) = const_name (s1 ++ s2)) /\
  const_name "a--b  c" = "A_B_C" /\
  (forall app_key data,
     const_line (app_key, data)
     = "  " ++ const_name_by_char app_key ++ ": '" ++ app_id data ++ "',").
Proof.
  split; [exact const_name_refines|].
  split; [intros k; apply sub_underscores_collapsed|].
  split; [|split; [|split]].
  - intros k. rewrite const_name_refines.
    apply sub_underscores_all_chars, separators_clean.
  - intros s1 s2. rewrite !const_name_refines. unfold const_name_by_char, upper.
    rewrite !smap_app, !separators_app. reflexivity.
  - reflexivity.
  - intros k d. unfold const_line. simpl. now rewrite const_name_refines.
Qed.

(* ================================================================== *)
(** * The generator: types of fields *)
(* ================================================================== *)

(** ** C6 *)

(** A control on which [_map_type] reaches [.keys()] of a value that is
    no mapping. *)
Definition broken_select : control :=
  {| fulltype := Some "lookup/select"; required := false;
     lookup_data := Some NotMapping; lookup_app := None |}.

(** C6, as stated, fails: [_map_type] raises [AttributeError] for a
    [lookup/select] control whose [lookup_data] is present and is not a
    mapping (null, a list, a string, ...). *)
Lemma map_type_raises_without_mapping :
  _map_type broken_select = Raise AttributeError.
Proof. reflexivity. Qed.

(** [_map_type] returns on every control but those of the kind above. *)
Lemma map_type_defined (ctrl : control) :
  ~ (fulltype ctrl = Some "lookup/select" /\ lookup_data ctrl = Some NotMapping) ->
  exists ts_type, _map_type ctrl = Ok ts_type.
Proof.
  destruct ctrl as [ft req ld la]. unfold _map_type. simpl. intros H.
  set (ftype := match ft with Some t => t | None => "string" end).
  destruct (String.eqb ftype "number"); [eauto|].
  destruct (String.eqb ftype "bool"); [eauto|].
  destruct (String.eqb ftype "date/date" || String.eqb ftype "date/datetimeminute");
    [eauto|].
  destruct (String.eqb_spec ftype "lookup/select") as [E|E]; [|eauto].
  destruct ld as [[data|]|]; [| |eauto].
  - simpl. destruct (map _ (keys data)); eauto.
  - exfalso. apply H. split; [|reflexivity].
    subst ftype. destruct ft as [t|]; [now subst | discriminate E].
Qed.

(** What [_map_type] raises, and when. *)
Lemma map_type_raise (ctrl : control) :
  match _map_type ctrl with
  | Ok _ => True
  | Raise e =>
      e = AttributeError /\
      fulltype ctrl = Some "lookup/select" /\ lookup_data ctrl = Some NotMapping
  | OutOfFuel => False
  end.
Proof.
  destruct ctrl as [ft req ld la]. unfold _map_type. simpl.
  set (ftype := match ft with Some t => t | None => "string" end).
  destruct (String.eqb ftype "number"); [exact I|].
  destruct (String.eqb ftype "bool"); [exact I|].
  destruct (String.eqb ftype "date/date" || String.eqb ftype "date/datetimeminute");
    [exact I|].
  destruct (String.eqb_spec ftype "lookup/select") as [E|E]; [|exact I].
  destruct ld as [[data|]|]; [| |exact I].
  - simpl. destruct (map _ (keys data)); exact I.
  - simpl. split; [reflexivity|]. split; [|reflexivity].
    subst ftype. destruct ft as [t|]; [now subst | discriminate E].
Qed.

(** C6, amended: [_map_type] returns a type for every control except a
    [lookup/select] control whose [lookup_data] is present and is not a
    mapping, for which it raises [AttributeError].  The kind [number]
    gives [number], [bool] gives [boolean], the two date kinds give
    [string], a [lookup/select] whose [lookup_data] is a non-empty mapping
    gives the union of its keys as string literals, a [lookup/select]
    whose [lookup_data] is absent or the empty mapping gives [string], and
    so does every other kind and a control without kind, whatever its
    [lookup_data]. *)
Theorem map_type_by_kind (ctrl : control) :
  (fulltype ctrl = Some "number" -> _map_type ctrl = Ok "number") /\
  (fulltype ctrl = Some "bool" -> _map_type ctrl = Ok "boolean") /\
  (fulltype ctrl = Some "date/date" \/
   fulltype ctrl = Some "date/datetimeminute" -> _map_type ctrl = Ok "string") /\
  (fulltype ctrl = Some "lookup/select" ->
   forall data, lookup_data ctrl = Some (Mapping data) -> data <> [] ->
   _map_type ctrl
   = Ok (join " | " (map (fun k => "'" ++ k ++ "'") (keys data)))) /\
  (fulltype ctrl = Some "lookup/select" ->
   lookup_data ctrl = None \/ lookup_data ctrl = Some (Mapping []) ->
   _map_type ctrl = Ok "string") /\
  (fulltype ctrl = Some "lookup/select" ->
   lookup_data ctrl = Some NotMapping ->
   _map_type ctrl = Raise AttributeError) /\
  (fulltype ctrl = None -> _map_type ctrl = Ok "string") /\
  (forall t, fulltype ctrl = Some t ->
     t <> "number" -> t <> "bool" -> t <> "date/date" ->
     t <> "date/datetimeminute" -> t <> "lookup/select" ->
     _map_type ctrl = Ok "string") /\
  ((exists ts_type, _map_type ctrl = Ok ts_type) <->
   ~ (fulltype ctrl = Some "lookup/select" /\
      lookup_data ctrl = Some NotMapping)).
Proof.
  split; [|split; [|split; [|split; [|split; [|split; [|split; [|split]]]]]]].
  - destruct ctrl as [ft req ld la]. simpl. intros ->. reflexivity.
  - destruct ctrl as [ft req ld la]. simpl. intros ->. reflexivity.
  - destruct ctrl as [ft req ld la]. simpl. intros [-> | ->]; reflexivity.
  - destruct ctrl as [ft req ld la]. simpl. intros -> data -> Hne.
    unfold _map_type. simpl.
    destruct data as [|kv data]; [contradiction | reflexivity].
  - destruct ctrl as [ft req ld la]. simpl. intros -> [-> | ->]; reflexivity.
  - destruct ctrl as [ft req ld la]. simpl. intros -> ->. reflexivity.
  - destruct ctrl as [ft req ld la]. simpl. intros ->. reflexivity.
  - destruct ctrl as [ft req ld la]. simpl. intros t -> H1 H2 H3 H4 H5.
    apply String.eqb_neq in H1, H2, H3, H4, H5.
    unfold _map_type. simpl. rewrite H1, H2, H3, H4, H5. reflexivity.
  - split; [|apply map_type_defined].
    intros (ts_type & Hok) Hbad.
    destruct ctrl as [ft req ld la]. simpl in Hbad. destruct Hbad as [-> ->].
    discriminate Hok.
Qed.

Lemma map_type_by_kind_witness :
  _map_type {| fulltype := Some "lookup/select"; required := true;
               lookup_data := Some (Mapping [("low", "Low"); ("high", "High")]);
               lookup_app := None |}
  = Ok "'low' | 'high'".
Proof.
  apply (proj1 (proj2 (proj2 (proj2
           (map_type_by_kind
              {| fulltype := Some "lookup/select"; required := true;
                 lookup_data := Some (Mapping [("low", "Low"); ("high", "High")]);
                 lookup_app := None |}))))
           eq_refl [("low", "Low"); ("high", "High")] eq_refl).
  discriminate.
Defined.

(* ================================================================== *)
(** * The generator: the map from app id to type name *)
(* ================================================================== *)

Definition app_ids (apps : dict app_data) : list string :=
  map (fun kd => app_id (snd kd)) apps.

Lemma id_map_snoc (apps : dict app_data) (kd : string * app_data) :
  build_app_id_to_name (apps ++ [kd])%list
  = dset (build_app_id_to_name apps) (app_id (snd kd)) (_to_pascal_case (fst kd)).
Proof. unfold build_app_id_to_name. now rewrite fold_left_app. Qed.

(** The last app with an id names the id. *)
Lemma id_map_last_wins (before : dict app_data) (k : string) (d : app_data)
    (after : dict app_data) :
  ~ In (app_id d) (app_ids after) ->
  dget (build_app_id_to_name (before ++ (k, d) :: after)%list) (app_id d)
  = Some (_to_pascal_case k).
Proof.
  induction after as [|x after IH] using rev_ind; intros Hni.
  - rewrite id_map_snoc. simpl. now rewrite dget_dset, String.eqb_refl.
  - unfold app_ids in Hni. rewrite map_app, in_app_iff in Hni. simpl in Hni.
    replace (before ++ (k, d) :: after ++ [x])%list
      with ((before ++ (k, d) :: after) ++ [x])%list
      by now rewrite <- app_assoc.
    rewrite id_map_snoc, dget_dset.
    destruct (String.eqb_spec (app_id (snd x)) (app_id d)) as [E|E].
    + exfalso. apply Hni. auto.
    + apply IH. unfold app_ids. tauto.
Qed.

Lemma id_map_unknown (apps : dict app_data) (id : string) :
  ~ In id (app_ids apps) -> dget (build_app_id_to_name apps) id = None.
Proof.
  induction apps as [|x apps IH] using rev_ind; intros Hni; [reflexivity|].
  unfold app_ids in Hni. rewrite map_app, in_app_iff in Hni. simpl in Hni.
  rewrite id_map_snoc, dget_dset.
  destruct (String.eqb_spec (app_id (snd x)) id) as [E|E].
  - exfalso. apply Hni. auto.
  - apply IH. unfold app_ids. tauto.
Qed.

(* ================================================================== *)
(** * The generator: the lines of the fields *)
(* ================================================================== *)

(** The metadata of the two-app scenario after materialization. *)
Definition lead_field : control :=
  {| fulltype := Some "applookup/select"; required := true;
     lookup_data := None;
     lookup_app := Some (VStr "https://my.living-apps.de/rest/apps/E1") |}.

Definition staff_metadata : dict app_data :=
  [("employees", {| app_id := "E1"; controls := [] |});
   ("teams", {| app_id := "T1"; controls := [("lead", lead_field)] |})].

(** A reference to an app that is not in the metadata. *)
Definition stray_field : control :=
  {| fulltype := Some "applookup/select"; required := false;
     lookup_data := None;
     lookup_app := Some (VStr "https://my.living-apps.de/rest/apps/ZZ") |}.

(** A reference that materialization left unresolved: no [lookup_app]. *)
Definition unresolved_field : control :=
  {| fulltype := Some "applookup/select"; required := false;
     lookup_data := None; lookup_app := None |}.

(** ** C7 *)

(** C7, as stated, fails for both kinds of reference whose target cannot
    be looked up: an id missing from the map gives a comment that names
    ['UnknownApp'], a field without [lookup_app] gives no comment; neither
    is the generic comment. *)
Lemma applookup_comment_not_generic :
  dget (build_app_id_to_name staff_metadata) "ZZ" = None /\
  field_comment (build_app_id_to_name staff_metadata) stray_field
  = " // applookup -> URL zu 'UnknownApp' Record" /\
  field_comment (build_app_id_to_name staff_metadata) stray_field
  <> generic_comment /\
  field_comment (build_app_id_to_name staff_metadata) unresolved_field = "" /\
  field_comment (build_app_id_to_name staff_metadata) unresolved_field
  <> generic_comment.
Proof.
  split; [reflexivity|]. split; [reflexivity|]. split.
  - intros H. vm_compute in H. discriminate H.
  - split; [reflexivity|]. intros H. vm_compute in H. discriminate H.
Qed.

(** C7, amended: for a field of kind [applookup/select], generation never
    fails and the line of the field is as follows.  When [lookup_app] is a
    string whose last path segment is the id of an app of the batch, the
    comment names the PascalCase name of (the last) app with that id; when
    the segment is the id of no app, the comment names ['UnknownApp']; when
    [lookup_app] is not a string, the comment is the generic one; when
    [lookup_app] is absent, the line has no comment. *)
Theorem applookup_comment (apps : dict app_data) (key : string) (ctrl : control) :
  fulltype ctrl = Some "applookup/select" ->
  (forall url before k d after,
     lookup_app ctrl = Some (VStr url) ->
     apps = (before ++ (k, d) :: after)%list ->
     ~ In (app_id d) (app_ids after) ->
     last (split_on "/" url) "" = app_id d ->
     field_line (build_app_id_to_name apps) (key, ctrl)
     = Ok ("    " ++ key ++ "?: string; // applookup -> URL zu '"
           ++ _to_pascal_case k ++ "' Record")) /\
  (forall url,
     lookup_app ctrl = Some (VStr url) ->
     ~ In (last (split_on "/" url) "") (app_ids apps) ->
     field_line (build_app_id_to_name apps) (key, ctrl)
     = Ok ("    " ++ key
           ++ "?: string; // applookup -> URL zu 'UnknownApp' Record")) /\
  (lookup_app ctrl = Some VOther ->
     field_line (build_app_id_to_name apps) (key, ctrl)
     = Ok ("    " ++ key ++ "?: string;" ++ generic_comment)) /\
  (lookup_app ctrl = None ->
     field_line (build_app_id_to_name apps) (key, ctrl)
     = Ok ("    " ++ key ++ "?: string;")).
Proof.
  destruct ctrl as [ft req ld la]. simpl. intros ->.
  unfold field_line, field_comment, _map_type. simpl.
  repeat split.
  - intros url before k d after -> -> Hlast Hid. simpl.
    rewrite Hid, (id_map_last_wins before k d after Hlast). reflexivity.
  - intros url -> Hni. simpl. rewrite (id_map_unknown apps _ Hni). reflexivity.
  - intros ->. reflexivity.
  - intros ->. reflexivity.
Qed.

Lemma applookup_comment_witness :
  field_line (build_app_id_to_name staff_metadata) ("lead", lead_field)
  = Ok "    lead?: string; // applookup -> URL zu 'Employees' Record".
Proof.
  apply (proj1 (applookup_comment staff_metadata "lead" lead_field eq_refl)
           "https://my.living-apps.de/rest/apps/E1"
           [] "employees" {| app_id := "E1"; controls := [] |}
           [("teams", {| app_id := "T1"; controls := [("lead", lead_field)] |})]
           eq_refl eq_refl).
  - simpl. intros [H|[]]. discriminate H.
  - reflexivity.
Defined.

(* ================================================================== *)
(** * The generator: the lines of a document *)
(* ================================================================== *)

(** The lines of a document, [doc.split("\n")]. *)
Definition document_lines (doc : string) : list string :=
  split_on (ascii_of_nat 10) doc.

(** Text without line feed. *)
Definition one_line (s : string) : bool :=
  all_chars (fun c => negb (Ascii.eqb c (ascii_of_nat 10))) s.

Lemma split_on_from_whole (sep : ascii) (s cur : string) :
  all_chars (fun c => negb (Ascii.eqb c sep)) s = true ->
  split_on_from sep cur s = [cur ++ s].
Proof.
  revert cur. induction s as [|c s IH]; intros cur H; simpl.
  - now rewrite append_empty_r.
  - simpl in H. apply andb_true_iff in H. destruct H as [Hc Hs].
    apply negb_true_iff in Hc. rewrite Hc, (IH _ Hs).
    now rewrite append_assoc.
Qed.

Lemma split_on_from_app (sep : ascii) (x y cur : string) :
  split_on_from sep cur (x ++ String sep y)
  = (split_on_from sep cur x ++ split_on_from sep "" y)%list.
Proof.
  revert cur. induction x as [|c x IH]; intros cur; simpl.
  - now rewrite Ascii.eqb_refl.
  - destruct (Ascii.eqb c sep); [now rewrite IH | apply IH].
Qed.

(** The lines of the joined document are the lines of its parts. *)
Lemma document_lines_join (lines : list string) :
  lines <> [] ->
  document_lines (join nl lines) = flat_map document_lines lines.
Proof.
  induction lines as [|x lines IH]; intros Hne; [contradiction|].
  destruct lines as [|y lines].
  - simpl. now rewrite app_nil_r.
  - change (join nl (x :: y :: lines))
      with (x ++ String (ascii_of_nat 10) (join nl (y :: lines))).
    unfold document_lines, split_on in *. rewrite split_on_from_app.
    rewrite IH by discriminate. reflexivity.
Qed.

(** A part without line feed is a line of the joined document. *)
Lemma line_of_document (lines : list string) (line : string) :
  In line lines -> one_line line = true ->
  In line (document_lines (join nl lines)).
Proof.
  intros Hin Hone. rewrite document_lines_join.
  - apply in_flat_map. exists line. split; [exact Hin|].
    unfold document_lines, split_on.
    rewrite (split_on_from_whole _ line "" Hone). now left.
  - intros ->. contradiction.
Qed.

Lemma alnum_one_line (s : string) :
  all_chars is_alnum s = true -> one_line s = true.
Proof.
  apply all_chars_weaken. intros c.
  destruct c as [[|] [|] [|] [|] [|] [|] [|] [|]];
    try reflexivity; discriminate.
Qed.

Lemma drop_last_alnum (s : string) :
  all_chars is_alnum s = true -> all_chars is_alnum (drop_last s) = true.
Proof.
  induction s as [|c s IH]; [reflexivity|].
  intros H. simpl in H. apply andb_true_iff in H. destruct H as [Hc Hs].
  simpl. destruct s as [|c' s']; [reflexivity|].
  change (is_alnum c && all_chars is_alnum (drop_last (String c' s')) = true).
  now rewrite Hc, IH.
Qed.

(** The singular of a method name has letters and digits only. *)
Lemma singular_name_alnum (app_key : string) :
  all_chars is_alnum (singular_name (_to_pascal_case app_key)) = true.
Proof.
  pose proof (pascal_case_alnum app_key) as H. unfold singular_name.
  destruct (endswith (_to_pascal_case app_key) "s").
  - now apply drop_last_alnum.
  - now rewrite all_chars_app, H.
Qed.

(** The names kept in the map are results of the naming transform. *)
Lemma id_map_values (apps : dict app_data) (id n : string) :
  dget (build_app_id_to_name apps) id = Some n ->
  exists k, n = _to_pascal_case k.
Proof.
  induction apps as [|x apps IH] using rev_ind; [discriminate|].
  rewrite id_map_snoc, dget_dset.
  destruct (String.eqb (app_id (snd x)) id); [|exact IH].
  intros H. inversion H. eauto.
Qed.

(** The comment of a field never breaks the line. *)
Lemma field_comment_one_line (apps : dict app_data) (c : control) :
  one_line (field_comment (build_app_id_to_name apps) c) = true.
Proof.
  unfold field_comment.
  destruct (contains "date" _); [reflexivity|].
  destruct (String.eqb _ "applookup/select"); [|reflexivity].
  destruct (lookup_app c) as [[url|]|]; [|reflexivity|reflexivity].
  simpl split_value. cbv iota beta.
  destruct (dget (build_app_id_to_name apps) (last (split_on "/" url) ""))
    as [n|] eqn:Hn; [|reflexivity].
  destruct (id_map_values _ _ _ Hn) as (k & ->).
  unfold one_line. rewrite !all_chars_app.
  fold (one_line (_to_pascal_case k)).
  rewrite (alnum_one_line _ (pascal_case_alnum k)). reflexivity.
Qed.

(** ** C9 *)

(** The same control with another [required] flag. *)
Definition with_required (flag : bool) (c : control) : control :=
  {| fulltype := fulltype c; required := flag;
     lookup_data := lookup_data c; lookup_app := lookup_app c |}.

(** The same metadata with the [required] flag of every field chosen
    anew, by app key and field key. *)
Definition reflag (flag : string -> string -> bool) (apps : dict app_data)
    : dict app_data :=
  map (fun kd =>
         (fst kd,
          {| app_id := app_id (snd kd);
             controls :=
               map (fun kc => (fst kc, with_required (flag (fst kd) (fst kc)) (snd kc)))
                 (controls (snd kd)) |}))
    apps.

Lemma field_line_required (m : dict string) (key : string) (flag : bool)
    (c : control) :
  field_line m (key, with_required flag c) = field_line m (key, c).
Proof. reflexivity. Qed.

Lemma id_map_reflag (flag : string -> string -> bool) (apps : dict app_data) :
  build_app_id_to_name (reflag flag apps) = build_app_id_to_name apps.
Proof.
  induction apps as [|kd apps IH] using rev_ind; [reflexivity|].
  unfold reflag in *. rewrite map_app. simpl.
  rewrite !id_map_snoc. simpl. now rewrite IH.
Qed.

Lemma interface_lines_reflag (flag : string -> string -> bool)
    (m : dict string) (apps : dict app_data) :
  traverse (interface_lines m) (reflag flag apps)
  = traverse (interface_lines m) apps.
Proof.
  unfold reflag. rewrite traverse_map. apply traverse_ext. intros [k d] _.
  unfold interface_lines. cbn [fst snd controls].
  rewrite traverse_map. reflexivity.
Qed.

Lemma generate_types_lines_reflag (flag : string -> string -> bool)
    (apps : dict app_data) :
  generate_types_lines (reflag flag apps) = generate_types_lines apps.
Proof.
  unfold generate_types_lines.
  rewrite id_map_reflag, interface_lines_reflag.
  assert (Hc : map const_line (reflag flag apps) = map const_line apps).
  { unfold reflag. rewrite map_map. apply map_ext. now intros [k d]. }
  assert (Hk : keys (reflag flag apps) = keys apps).
  { unfold reflag, keys. rewrite map_map. apply map_ext. now intros [k d]. }
  now rewrite Hc, Hk.
Qed.

(** The metadata on which [generate_types] returns: no [lookup/select]
    field has a [lookup_data] that is not a mapping. *)
Definition mappings_only (apps : dict app_data) : Prop :=
  forall k d key c,
    In (k, d) apps -> In (key, c) (controls d) ->
    ~ (fulltype c = Some "lookup/select" /\ lookup_data c = Some NotMapping).

Lemma generate_types_defined (apps : dict app_data) :
  mappings_only apps -> exists types_code, generate_types apps = Ok types_code.
Proof.
  intros Hm. unfold generate_types, generate_types_lines.
  destruct (traverse_defined (interface_lines (build_app_id_to_name apps)) apps)
    as (interfaces & ->); [|simpl; eauto].
  intros [k d] Hkd. unfold interface_lines. cbn [fst snd].
  destruct (traverse_defined (field_line (build_app_id_to_name apps)) (controls d))
    as (fields & ->); [|simpl; eauto].
  intros [key c] Hkc. unfold field_line. cbn [fst snd].
  destruct (map_type_defined c (Hm k d key c Hkd Hkc)) as (ts_type & ->).
  simpl. eauto.
Qed.

(** [generate_types] raises what [_map_type] raises on one of the
    fields. *)
Lemma generate_types_error (apps : dict app_data) :
  match generate_types apps with
  | Ok _ => True
  | Raise e =>
      e = AttributeError /\
      exists k d key c,
        In (k, d) apps /\ In (key, c) (controls d) /\
        fulltype c = Some "lookup/select" /\ lookup_data c = Some NotMapping
  | OutOfFuel => False
  end.
Proof.
  unfold generate_types, generate_types_lines.
  set (m := build_app_id_to_name apps).
  pose proof (traverse_raise (interface_lines m) apps) as Happs.
  assert (Hfields : forall kd e,
            interface_lines m kd = e ->
            match e with
            | Ok _ => True
            | Raise e =>
                e = AttributeError /\
                exists key c,
                  In (key, c) (controls (snd kd)) /\
                  fulltype c = Some "lookup/select" /\
                  lookup_data c = Some NotMapping
            | OutOfFuel => False
            end).
  { intros kd e <-. unfold interface_lines.
    pose proof (traverse_raise (field_line m) (controls (snd kd))) as Hf.
    assert (Hline : forall kc,
              match field_line m kc with
              | Ok _ => True
              | Raise e =>
                  e = AttributeError /\
                  fulltype (snd kc) = Some "lookup/select" /\
                  lookup_data (snd kc) = Some NotMapping
              | OutOfFuel => False
              end).
    { intros kc. unfold field_line.
      pose proof (map_type_raise (snd kc)) as Hc.
      destruct (_map_type (snd kc)); cbn [bind]; auto. }
    destruct (traverse (field_line m) (controls (snd kd))) as [fields|e|];
      cbn [bind]; [exact I| |].
    - destruct Hf as ([key c] & Hin & Hraise).
      specialize (Hline (key, c)). rewrite Hraise in Hline.
      destruct Hline as (-> & Hft & Hld). split; [reflexivity|].
      exists key, c. auto.
    - destruct Hf as (kc & _ & Hout).
      specialize (Hline kc). now rewrite Hout in Hline. }
  destruct (traverse (interface_lines m) apps) as [interfaces|e|];
    cbn [bind]; [exact I| |].
  - destruct Happs as ([k d] & Hin & Hraise).
    specialize (Hfields (k, d) _ Hraise).
    destruct Hfields as (-> & key & c & Hkc & Hft & Hld).
    split; [reflexivity|]. exists k, d, key, c. auto.
  - destruct Happs as (kd & _ & Hout).
    exact (Hfields kd _ Hout).
Qed.

(** The shape of the document around the interface of one app. *)
Lemma generate_types_interface (apps : dict app_data) (k : string)
    (d : app_data) (types_code : string) :
  In (k, d) apps -> generate_types apps = Ok types_code ->
  exists pre fields post,
    types_code =
      join nl
        (pre ++ [("export interface " ++ _to_pascal_case k ++ " {")%string;
                 "  record_id: string;";
                 "  createdat: string;";
                 "  updatedat: string | null;";
                 "  fields: {"]
             ++ fields ++ ["  };"; "}"; ""] ++ post)%list /\
    traverse (field_line (build_app_id_to_name apps)) (controls d) = Ok fields.
Proof.
  intros Hin Hdoc. unfold generate_types in Hdoc.
  destruct (generate_types_lines apps) as [lines| |] eqn:Hl;
    cbn [bind] in Hdoc; try discriminate.
  inversion Hdoc; subst types_code; clear Hdoc.
  unfold generate_types_lines in Hl.
  set (m := build_app_id_to_name apps) in *.
  destruct (traverse (interface_lines m) apps) as [interfaces| |] eqn:Hifs;
    cbn [bind] in Hl; try discriminate.
  inversion Hl; subst lines; clear Hl.
  apply in_split in Hin. destruct Hin as (before & after & Heq).
  rewrite Heq in Hifs.
  destruct (traverse_split _ _ _ _ _ Hifs) as (a & y & b & -> & _ & Hy & _).
  unfold interface_lines in Hy. cbn [fst snd] in Hy.
  destruct (traverse (field_line m) (controls d)) as [fields| |] eqn:Hf;
    cbn [bind] in Hy; try discriminate.
  inversion Hy; subst y; clear Hy.
  exists (["// AUTOMATICALLY GENERATED TYPES - DO NOT EDIT"; ""] ++ List.concat a)%list.
  exists fields.
  exists (List.concat b
            ++ ["export const APP_IDS = {"]
            ++ map const_line apps
            ++ ["} as const;"; ""]
            ++ ["// Helper Types for creating new records"]
            ++ map create_line (keys apps))%list.
  split; [|reflexivity].
  f_equal. rewrite concat_app. cbn [List.concat].
  repeat (cbn [List.app]; rewrite <- ?app_assoc). reflexivity.
Qed.

(** C9: [generate_types] returns a document exactly when no
    [lookup/select] field has a [lookup_data] that is not a mapping, and
    raises nothing but [AttributeError] otherwise.  In the document it
    returns, for every app of the metadata and every one of its fields,
    the interface of the app lists the fields inside [fields: { ... }],
    one line per field and in their order, each line being the key of the
    field followed by [?:], the mapped type and the comment; a line whose
    key and type have no line feed is a line of the document.  The line
    does not depend on the [required] flag, and neither does the outcome
    of [generate_types] as a whole. *)
Theorem fields_always_optional (apps : dict app_data) (k : string)
    (d : app_data) (key : string) (c : control) :
  In (k, d) apps -> In (key, c) (controls d) ->
  (mappings_only apps <->
   exists types_code, generate_types apps = Ok types_code) /\
  (forall e, generate_types apps = Raise e -> e = AttributeError) /\
  (forall types_code,
     generate_types apps = Ok types_code ->
     exists pre fields post ts_type,
       types_code =
         join nl
           (pre ++ [("export interface " ++ _to_pascal_case k ++ " {")%string;
                    "  record_id: string;";
                    "  createdat: string;";
                    "  updatedat: string | null;";
                    "  fields: {"]
                ++ fields ++ ["  };"; "}"; ""] ++ post)%list /\
       Forall2
         (fun kc line =>
            exists ty,
              _map_type (snd kc) = Ok ty /\
              line = "    " ++ fst kc ++ "?: " ++ ty ++ ";"
                     ++ field_comment (build_app_id_to_name apps) (snd kc))
         (controls d) fields /\
       _map_type c = Ok ts_type /\
       In ("    " ++ key ++ "?: " ++ ts_type ++ ";"
             ++ field_comment (build_app_id_to_name apps) c)
          fields /\
       (one_line key = true -> one_line ts_type = true ->
        In ("    " ++ key ++ "?: " ++ ts_type ++ ";"
              ++ field_comment (build_app_id_to_name apps) c)
           (document_lines types_code))) /\
  (forall flag,
     field_line (build_app_id_to_name apps) (key, with_required flag c)
     = field_line (build_app_id_to_name apps) (key, c)) /\
  (forall flag, generate_types (reflag flag apps) = generate_types apps).
Proof.
  intros Hin Hfield. split; [|split; [|split; [|split]]].
  - split; [apply generate_types_defined|].
    intros (types_code & Hdoc) k' d' key' c' Hkd Hkc [Hft Hld].
    destruct (generate_types_interface apps k' d' types_code Hkd Hdoc)
      as (_ & fields & _ & _ & Hfields).
    destruct (traverse_In _ _ _ _ Hfields Hkc) as (line & Hline & _).
    unfold field_line in Hline. cbn [fst snd] in Hline.
    destruct c' as [ft req ld la]. simpl in Hft, Hld. subst ft ld.
    discriminate Hline.
  - intros e He. pose proof (generate_types_error apps) as H.
    rewrite He in H. exact (proj1 H).
  - intros types_code Hdoc.
    destruct (generate_types_interface apps k d types_code Hin Hdoc)
      as (pre & fields & post & Hshape & Hfields).
    set (m := build_app_id_to_name apps) in *.
    destruct (traverse_In _ _ _ _ Hfields Hfield) as (line & Hline & Hmem).
    unfold field_line in Hline. cbn [fst snd] in Hline.
    destruct (_map_type c) as [ts_type| |] eqn:Hty; simpl in Hline;
      try discriminate.
    inversion Hline; subst line; clear Hline.
    exists pre, fields, post, ts_type.
    split; [exact Hshape|]. split; [|split; [reflexivity|split; [exact Hmem|]]].
    + apply traverse_Forall2 in Hfields.
      eapply Forall2_impl; [|exact Hfields].
      intros [key' c'] line Hl. unfold field_line in Hl. cbn [fst snd] in *.
      destruct (_map_type c') as [ty| |]; simpl in Hl; try discriminate.
      inversion Hl. eauto.
    + intros Hkey Hts. rewrite Hshape. apply line_of_document.
      * apply in_or_app. right. apply in_or_app. right.
        apply in_or_app. left. exact Hmem.
      * unfold one_line in *. rewrite !all_chars_app, Hkey, Hts.
        fold (one_line (field_comment m c)). unfold m.
        rewrite field_comment_one_line. reflexivity.
  - intros flag. apply field_line_required.
  - intros flag. unfold generate_types.
    now rewrite generate_types_lines_reflag.
Qed.

Lemma fields_always_optional_witness :
  exists types_code,
    generate_types staff_metadata = Ok types_code /\
    In "    lead?: string; // applookup -> URL zu 'Employees' Record"
       (document_lines types_code).
Proof.
  assert (Hin : In ("teams", {| app_id := "T1";
                                controls := [("lead", lead_field)] |})
                   staff_metadata)
    by (right; left; reflexivity).
  assert (Hfield : In ("lead", lead_field)
                      (controls {| app_id := "T1";
                                   controls := [("lead", lead_field)] |}))
    by (left; reflexivity).
  destruct (fields_always_optional staff_metadata "teams" _ "lead" lead_field
              Hin Hfield) as ((Hdefined & _) & _ & Hshape & _).
  destruct Hdefined as (types_code & Hdoc).
  - intros k d key c Hkd Hkc [Hft Hld].
    destruct Hkd as [E|[E|[]]]; inversion E; subst; simpl in Hkc;
      [contradiction|].
    destruct Hkc as [E'|[]]. inversion E'; subst. discriminate Hft.
  - exists types_code. split; [exact Hdoc|].
    destruct (Hshape types_code Hdoc)
      as (pre & fields & post & ts_type & _ & _ & Hty & _ & Hline).
    assert (Hs : ts_type = "string") by (vm_compute in Hty; congruence).
    subst ts_type. apply Hline; reflexivity.
Defined.

End GeneratorFacts.

(* ================================================================== *)
(** * The two-app scenario, end to end *)
(* ================================================================== *)

Module Scenario.
Import Py PyFacts Generator GeneratorFacts.
Local Open Scope string_scope.

(** The batch handed to the resolver. *)
Definition employees : Agent.app :=
  {| Agent.name := "Employees"; Agent.identifier := "employees";
     Agent.controls := Some [] |}.

Definition teams : Agent.app :=
  {| Agent.name := "Teams"; Agent.identifier := "teams";
     Agent.controls :=
       Some [("lead",
              {| Agent.fulltype := Some "applookup/select";
                 Agent.lookup_app_ref := Some "employees" |})] |}.

Lemma endswith_snoc (w : string) (c x : ascii) :
  endswith (w ++ String c "") x = Ascii.eqb c x.
Proof.
  induction w as [|a w IH]; [reflexivity|].
  simpl. destruct w as [|b w]; exact IH.
Qed.

Lemma drop_last_snoc (w : string) (c : ascii) :
  drop_last (w ++ String c "") = w.
Proof.
  induction w as [|a w IH]; [reflexivity|].
  simpl. destruct w as [|b w]; [reflexivity|].
  simpl in *. now rewrite IH.
Qed.

(** The singular of a name by its last character. *)
Lemma singular_name_snoc (w : string) (c : ascii) :
  singular_name (w ++ String c "")
  = if Ascii.eqb c "s" then w else w ++ String c "Entry".
Proof.
  unfold singular_name. rewrite endswith_snoc.
  destruct (Ascii.eqb c "s"); [apply drop_last_snoc|].
  now rewrite append_assoc.
Qed.

Ltac find_line := cbn [In]; repeat (first [left; reflexivity | right]).

(** The names of the five methods of an app. *)
Lemma service_method_names (app_key : string) :
  let class_name := _to_pascal_case app_key in
  let single := singular_name class_name in
  In ("  static async get" ++ class_name ++ "(): Promise<" ++ class_name ++ "[]> {")
     (service_methods app_key) /\
  In ("  static async get" ++ single ++ "(id: string): Promise<"
        ++ class_name ++ " | undefined> {")
     (service_methods app_key) /\
  In ("  static async create" ++ single ++ "(fields: " ++ class_name
        ++ "['fields']) {")
     (service_methods app_key) /\
  In ("  static async update" ++ single ++ "(id: string, fields: Partial<"
        ++ class_name ++ "['fields']>) {")
     (service_methods app_key) /\
  In ("  static async delete" ++ single ++ "(id: string) {")
     (service_methods app_key).
Proof.
  intros class_name single. unfold service_methods.
  repeat split; find_line.
Qed.

Lemma service_methods_emitted (before : dict app_data) (k : string)
    (d : app_data) (after : dict app_data) :
  incl (service_methods k)
       (generate_service_lines (before ++ (k, d) :: after)%list).
Proof.
  intros x Hx. unfold generate_service_lines.
  apply in_or_app. right. apply in_or_app. left.
  apply in_flat_map. exists k. split; [|exact Hx].
  unfold keys. rewrite map_app. apply in_or_app. right. now left.
Qed.

(** The signatures of the five methods of an app have no line feed. *)
Lemma method_signatures_one_line (app_key : string) :
  let class_name := _to_pascal_case app_key in
  let single := singular_name class_name in
  Forall (fun line => one_line line = true)
    ["  static async get" ++ class_name ++ "(): Promise<" ++ class_name ++ "[]> {";
     "  static async get" ++ single ++ "(id: string): Promise<"
       ++ class_name ++ " | undefined> {";
     "  static async create" ++ single ++ "(fields: " ++ class_name
       ++ "['fields']) {";
     "  static async update" ++ single ++ "(id: string, fields: Partial<"
       ++ class_name ++ "['fields']>) {";
     "  static async delete" ++ single ++ "(id: string) {"].
Proof.
  intros class_name single.
  pose proof (alnum_one_line _ (pascal_case_alnum app_key)) as Hc.
  pose proof (alnum_one_line _ (singular_name_alnum app_key)) as Hs.
  fold class_name in Hc. fold class_name single in Hs.
  unfold one_line in *.
  repeat constructor; rewrite !all_chars_app, ?Hc, ?Hs; reflexivity.
Qed.

(** ** C8 *)

(** C8: for the batch of [employees] (no field) and [teams] (one
    applookup field that targets [employees]), materialized with the ids
    [E1] and [T1]: the resolver puts [employees] before [teams],
    whichever comes first in the input; [generate_types] returns a
    document whose lookup table is [EMPLOYEES: 'E1'] and [TEAMS: 'T1'];
    the document returned by [generate_service] has the methods
    [getEmployees], [getEmployee], [createEmployee], [updateEmployee],
    [deleteEmployee] and the same for [Team].  In general the four
    methods on one record are named after the PascalCase name without its
    last character when that is an [s], and after the name followed by
    [Entry] otherwise, and the signatures of the five methods of every
    app of the metadata are lines of the service document. *)
Theorem staff_scenario :
  Agent.sort_apps_by_dependencies [employees; teams] = Ok [employees; teams] /\
  Agent.sort_apps_by_dependencies [teams; employees] = Ok [employees; teams] /\
  (exists types_code pre post,
     generate_types staff_metadata = Ok types_code /\
     document_lines types_code
     = (pre ++ ["export const APP_IDS = {";
                "  EMPLOYEES: 'E1',";
                "  TEAMS: 'T1',";
                "} as const;"] ++ post)%list) /\
  generate_types_lines staff_metadata
  = Ok (document_lines
          (match generate_types staff_metadata with
           | Ok types_code => types_code
           | _ => ""
           end)) /\
  incl ["  static async getEmployees(): Promise<Employees[]> {";
        "  static async getEmployee(id: string): Promise<Employees | undefined> {";
        "  static async createEmployee(fields: Employees['fields']) {";
        "  static async updateEmployee(id: string, fields: Partial<Employees['fields']>) {";
        "  static async deleteEmployee(id: string) {";
        "  static async getTeams(): Promise<Teams[]> {";
        "  static async getTeam(id: string): Promise<Teams | undefined> {";
        "  static async createTeam(fields: Teams['fields']) {";
        "  static async updateTeam(id: string, fields: Partial<Teams['fields']>) {";
        "  static async deleteTeam(id: string) {"]
       (document_lines (generate_service staff_metadata)) /\
  document_lines (generate_service staff_metadata)
  = generate_service_lines staff_metadata /\
  (forall w c,
     singular_name (w ++ String c "")
     = if Ascii.eqb c "s" then w else w ++ String c "Entry") /\
  singular_name "" = "Entry" /\
  (forall app_key,
     let class_name := _to_pascal_case app_key in
     let single := singular_name class_name in
     In ("  static async get" ++ class_name ++ "(): Promise<" ++ class_name ++ "[]> {")
        (service_methods app_key) /\
     In ("  static async get" ++ single ++ "(id: string): Promise<"
           ++ class_name ++ " | undefined> {")
        (service_methods app_key) /\
     In ("  static async create" ++ single ++ "(fields: " ++ class_name
           ++ "['fields']) {")
        (service_methods app_key) /\
     In ("  static async update" ++ single ++ "(id: string, fields: Partial<"
           ++ class_name ++ "['fields']>) {")
        (service_methods app_key) /\
     In ("  static async delete" ++ single ++ "(id: string) {")
        (service_methods app_key)) /\
  (forall before k d after,
     incl (service_methods k)
          (generate_service_lines (before ++ (k, d) :: after)%list)) /\
  (forall apps k d,
     In (k, d) apps ->
     let class_name := _to_pascal_case k in
     let single := singular_name class_name in
     incl ["  static async get" ++ class_name ++ "(): Promise<" ++ class_name ++ "[]> {";
           "  static async get" ++ single ++ "(id: string): Promise<"
             ++ class_name ++ " | undefined> {";
           "  static async create" ++ single ++ "(fields: " ++ class_name
             ++ "['fields']) {";
           "  static async update" ++ single ++ "(id: string, fields: Partial<"
             ++ class_name ++ "['fields']>) {";
           "  static async delete" ++ single ++ "(id: string) {"]
          (document_lines (generate_service apps))).
Proof.
  split; [reflexivity|]. split; [reflexivity|].
  split.
  { exists (match generate_types staff_metadata with
            | Ok types_code => types_code
            | _ => ""
            end).
    exists (firstn 19 (match generate_types_lines staff_metadata with
                       | Ok lines => lines
                       | _ => []
                       end)).
    exists (skipn 23 (match generate_types_lines staff_metadata with
                      | Ok lines => lines
                      | _ => []
                      end)).
    split; vm_compute; reflexivity. }
  split; [vm_compute; reflexivity|].
  split.
  { intros line Hline. cbn [In] in Hline.
    repeat (destruct Hline as [<-|Hline]; [vm_compute; find_line|]).
    contradiction. }
  split; [vm_compute; reflexivity|].
  split; [exact singular_name_snoc|]. split; [reflexivity|].
  split; [exact service_method_names|].
  split; [exact service_methods_emitted|].
  intros apps k d Hin class_name single line Hline.
  unfold generate_service. apply line_of_document.
  - apply in_split in Hin. destruct Hin as (before & after & ->).
    apply service_methods_emitted.
    pose proof (service_method_names k) as Hnames. cbv zeta in Hnames.
    fold class_name in Hnames. fold single in Hnames.
    destruct Hnames as (H1 & H2 & H3 & H4 & H5).
    cbn [In] in Hline.
    destruct Hline as [<-|[<-|[<-|[<-|[<-|[]]]]]]; assumption.
  - pose proof (method_signatures_one_line k) as Hone. cbv zeta in Hone.
    fold class_name in Hone. fold single in Hone.
    rewrite Forall_forall in Hone. now apply Hone.
Qed.

End Scenario.

(* ================================================================== *)
(** * The resolver: when it sorts and what comes first *)
(* ================================================================== *)

Module ResolverOrder.
Import Py PyFacts Agent AgentFacts.

(** ** When the loop emits every definition *)

(** The test [len(sorted_apps) == len(apps)] succeeds exactly on the
    batches with unique identifiers, no cycle and no dangling reference:
    on these the sorted list is returned, on all others the input. *)
Theorem loop_complete_iff (apps : list app) :
  exists sorted_apps,
    topological apps = Ok sorted_apps /\
    (List.length sorted_apps = List.length apps <->
     unique_identifiers apps /\ acyclic apps /\ no_dangling apps).
Proof.
  destruct (topological_run apps) as (P & deg & Hrun & HI).
  exists (emitted (snd (build apps)) P). split; [exact Hrun|].
  pose proof (fun H => fallback_of_duplicates apps P deg Hrun HI H) as Hshort.
  pose proof (fun Ha Hd => all_popped apps P deg Ha Hd HI) as Hall.
  destruct HI as [Hnd Hincl _ _ Htopo]. rewrite app_nil_r in *.
  rewrite (run_length apps P Hincl). split.
  - intros Hlen.
    assert (Hu : unique_identifiers apps).
    { destruct (unique_identifiers_dec apps) as [Hu|Hdup]; [exact Hu|].
      specialize (Hshort Hdup). lia. }
    pose proof (build_keys_unique apps Hu) as HK.
    assert (Hfull : incl (map identifier apps) P).
    { rewrite <- HK. apply NoDup_length_incl; auto.
      rewrite HK, length_map. lia. }
    split; [exact Hu|]. split.
    + intros x Hx.
      apply (cycle_not_emitted (fst (build apps)) P x Hnd Htopo).
      * apply path_mono with (R := edge apps); auto.
        intros a b. now apply edge_deps.
      * apply Hfull.
        destruct (path_source _ _ _ Hx) as (z & a & Hin & <- & _).
        now apply in_map.
    + intros a r Hin Href. rewrite <- HK. apply Hincl.
      apply (topo_closed _ _ Htopo (identifier a)).
      * apply Hfull. now apply in_map.
      * apply edge_deps; [exact Hu|]. exists a. auto.
  - intros (Hu & Hacyc & Hdang).
    pose proof (build_keys_unique apps Hu) as HK.
    specialize (Hall Hacyc Hdang).
    apply Nat.le_antisymm.
    + rewrite <- (length_map identifier apps), <- HK.
      now apply NoDup_incl_length.
    + rewrite <- (length_map identifier apps), <- HK.
      apply NoDup_incl_length; [apply build_keys_NoDup | exact Hall].
Qed.

(** ** The queue only grows at its end *)

(** The identifiers popped by the end of the loop start with those already
    popped, followed by those waiting in the queue, in this order. *)
Lemma kahn_extends (dependencies : dict (list string)) (app_map : dict app) :
  NoDup (keys dependencies) ->
  (forall k d, dget dependencies k = Some d -> NoDup d) ->
  forall fuel P Q in_degree,
  Inv dependencies P Q in_degree ->
  List.length (keys dependencies) <= fuel + List.length P ->
  exists P' in_degree' tail,
    kahn fuel dependencies app_map Q in_degree (emitted app_map P)
    = Ok (emitted app_map P') /\
    Inv dependencies P' [] in_degree' /\
    P' = P ++ Q ++ tail.
Proof.
  intros HK Hsets.
  induction fuel as [|fuel IH]; intros P Q in_degree HI Hfuel.
  - destruct Q as [|c Q].
    + exists P, in_degree, []. simpl. rewrite app_nil_r. auto.
    + exfalso. destruct HI as [Hnd Hincl _ _ _].
      pose proof (NoDup_incl_length Hnd Hincl) as Hlen.
      rewrite length_app in Hlen. simpl in *. lia.
  - destruct Q as [|c Q].
    + exists P, in_degree, []. simpl. rewrite app_nil_r. auto.
    + destruct (inv_step _ HK Hsets _ _ _ _ HI) as (Q' & deg' & Hrun & HI').
      destruct (relax_items dependencies c Q in_degree HK) as (deg2 & Hrun2 & _).
      { intros k Hk. rewrite (inv_degree _ _ _ _ HI k Hk). eauto. }
      rewrite Hrun in Hrun2. inversion Hrun2; subst Q' deg2.
      destruct (IH (P ++ [c]) _ deg' HI') as (P' & deg'' & tail & Hk & HF & HP).
      { rewrite length_app. simpl. lia. }
      exists P', deg'', (ready c in_degree dependencies ++ tail).
      split; [|split; [exact HF|]].
      * simpl. rewrite Hrun. simpl. rewrite emitted_snoc in Hk.
        destruct (dget app_map c); exact Hk.
      * rewrite HP. rewrite <- !app_assoc. reflexivity.
Qed.

(** ** Definitions without references *)

(** [independent a]: no control of [a] contributes a reference. *)
Definition independent (a : app) : bool :=
  match deps_of a with
  | [] => true
  | _ :: _ => false
  end.

Lemma independent_references (a : app) :
  independent a = true <-> forall r, ~ references a r.
Proof.
  unfold independent. split.
  - intros H r Hr. apply deps_of_references in Hr.
    destruct (deps_of a); [contradiction | discriminate].
  - intros H. destruct (deps_of a) as [|r l] eqn:E; [reflexivity|].
    exfalso. apply (H r), deps_of_references. rewrite E. now left.
Qed.

(** With unique identifiers [dependencies] lists the apps in input
    order, each with its set. *)
Lemma build_fst_unique (apps : list app) :
  unique_identifiers apps ->
  fst (build apps) = map (fun a => (identifier a, deps_of a)) apps.
Proof.
  unfold unique_identifiers.
  induction apps as [|a apps IH] using rev_ind; [reflexivity|].
  rewrite !map_app. simpl. intros Hnd.
  apply NoDup_remove in Hnd. rewrite app_nil_r in Hnd. destruct Hnd as [Hnd Hni].
  rewrite build_snoc. simpl. rewrite <- (IH Hnd).
  assert (Hk : ~ In (identifier a) (keys (fst (build apps))))
    by (rewrite build_keys_In; exact Hni).
  clear IH. induction (fst (build apps)) as [|[k d] rest IHr]; [reflexivity|].
  simpl in *. destruct (String.eqb_spec k (identifier a)) as [E|E];
    [exfalso; auto|].
  f_equal. apply IHr. tauto.
Qed.

(** The queue before the loop: the independent identifiers, in input
    order. *)
Lemma initial_queue_unique (apps : list app) :
  unique_identifiers apps ->
  initial_queue (initial_in_degree (fst (build apps)))
  = map identifier (filter independent apps).
Proof.
  intros Hu. rewrite (build_fst_unique apps Hu). clear Hu.
  unfold initial_queue, initial_in_degree, keys, independent.
  induction apps as [|a apps IH]; [reflexivity|].
  simpl. destruct (deps_of a); simpl; now rewrite IH.
Qed.

Lemma emitted_app (app_map : dict app) (P1 P2 : list string) :
  emitted app_map (P1 ++ P2) = emitted app_map P1 ++ emitted app_map P2.
Proof. unfold emitted. apply flat_map_app. Qed.

(** The run of the loop on a batch, with the start of the popped list. *)
Lemma topological_run_from_queue (apps : list app) :
  exists P in_degree tail,
    topological apps = Ok (emitted (snd (build apps)) P) /\
    Inv (fst (build apps)) P [] in_degree /\
    P = initial_queue (initial_in_degree (fst (build apps))) ++ tail.
Proof.
  unfold topological.
  change (@nil app) with (emitted (snd (build apps)) []).
  destruct (kahn_extends (fst (build apps)) (snd (build apps))
              (build_keys_NoDup apps) (build_deps_NoDup apps)
              (List.length apps) []
              (initial_queue (initial_in_degree (fst (build apps))))
              (initial_in_degree (fst (build apps))))
    as (P & deg & tail & Hrun & HI & HP).
  - apply inv_init, build_keys_NoDup.
  - pose proof (build_keys_length apps). simpl. lia.
  - exists P, deg, tail. auto.
Qed.

(** A batch in which no definition has a reference is returned as it is,
    in the input order, whether its identifiers repeat or not. *)
Theorem sort_keeps_reference_free_batch (apps : list app) :
  (forall a, In a apps -> forall r, ~ references a r) ->
  sort_apps_by_dependencies apps = Ok apps.
Proof.
  intros Hfree.
  destruct (topological_run_from_queue apps) as (P & deg & tail & Hrun & HI & HP).
  pose proof (fun H => fallback_of_duplicates apps P deg Hrun HI H) as Hshort.
  destruct HI as [Hnd Hincl _ _ _]. rewrite app_nil_r in *.
  rewrite (sort_of_run apps P Hrun Hincl).
  destruct (Nat.eqb_spec (List.length P) (List.length apps)) as [Hlen|Hlen];
    [|reflexivity].
  destruct (unique_identifiers_dec apps) as [Hu|Hdup];
    [|specialize (Hshort Hdup); lia].
  rewrite (initial_queue_unique apps Hu) in HP.
  assert (Hall : filter independent apps = apps).
  { apply forallb_filter_id. apply forallb_forall.
    intros a Ha. apply independent_references. now apply Hfree. }
  rewrite Hall in HP.
  assert (tail = []).
  { apply length_zero_iff_nil.
    rewrite HP, length_app, length_map in Hlen. lia. }
  subst tail. rewrite app_nil_r in HP. subst P.
  now rewrite emitted_all by (auto; apply incl_refl).
Qed.

Lemma sort_keeps_reference_free_batch_witness :
  sort_apps_by_dependencies [definition "b" []; definition "a" []]
  = Ok [definition "b" []; definition "a" []].
Proof.
  apply (sort_keeps_reference_free_batch [definition "b" []; definition "a" []]).
  intros a Ha r Hr. apply deps_of_references in Hr.
  destruct Ha as [<-|[<-|[]]]; exact Hr.
Defined.

(** On a batch with unique identifiers, no cycle and no dangling
    reference, the definitions without references come first in the
    result, in their input order. *)
Theorem sort_puts_independent_first (apps : list app) :
  unique_identifiers apps -> acyclic apps -> no_dangling apps ->
  exists rest,
    sort_apps_by_dependencies apps = Ok (filter independent apps ++ rest).
Proof.
  intros Hu Hacyc Hdang.
  destruct (topological_run_from_queue apps) as (P & deg & tail & Hrun & HI & HP).
  pose proof (all_popped apps P deg Hacyc Hdang HI) as Hall.
  destruct HI as [Hnd Hincl _ _ _]. rewrite app_nil_r in *.
  pose proof (build_keys_unique apps Hu) as HK.
  assert (Hlen : List.length P = List.length apps).
  { rewrite <- (length_map identifier apps), <- HK. apply Nat.le_antisymm.
    - now apply NoDup_incl_length.
    - apply NoDup_incl_length; [apply build_keys_NoDup | exact Hall]. }
  exists (emitted (snd (build apps)) tail).
  rewrite (sort_of_run apps P Hrun Hincl), Hlen, Nat.eqb_refl.
  rewrite HP, (initial_queue_unique apps Hu), emitted_app.
  rewrite emitted_all; [reflexivity | exact Hu |].
  intros a Ha. apply filter_In in Ha. tauto.
Qed.

Lemma sort_puts_independent_first_witness :
  exists rest,
    sort_apps_by_dependencies staff_batch
    = Ok (filter independent staff_batch ++ rest).
Proof.
  apply (sort_puts_independent_first staff_batch).
  - exact staff_batch_unique.
  - apply (acyclic_by_rank
             (fun k => if String.eqb k "teams" then 1 else 0)).
    reflexivity.
  - apply no_dangling_by_check. reflexivity.
Defined.

End ResolverOrder.

(* ================================================================== *)
(** * claude_agent.py: create_apps *)
(* ================================================================== *)

Module Creation.
Import Py.
Local Open Scope string_scope.

(** ** Data *)

(** One item of a ["lookups"] array: an object in which ["key"] and
    ["value"] may each be absent. *)
Record lookup_item : Type := {
  item_key : option string;
  item_value : option string
}.

(** The value under ["lookups"]: the array of [{"key", "value"}] items of
    the plan, or the mapping from key to label that the API expects. *)
Inductive lookups_value : Type :=
| LookupsList (items : list lookup_item)
| LookupsDict (d : dict string).

(** One entry of an app definition's ["controls"], with every key that
    [create_apps] reads, each possibly absent. *)
Record control : Type := {
  fulltype : option string;
  label : option string;
  required : option bool;
  in_list : option bool;
  in_text : option bool;
  lookups : option lookups_value;
  lookup_app_ref : option string
}.

(** One element of [args["apps"]]. *)
Record app : Type := {
  name : string;
  identifier : string;
  controls : option (dict control)
}.

(** The keys of a definition that the resolver reads. *)
Definition erase_control (c : control) : Agent.control :=
  {| Agent.fulltype := fulltype c;
     Agent.lookup_app_ref := lookup_app_ref c |}.

Definition erase (a : app) : Agent.app :=
  {| Agent.name := name a;
     Agent.identifier := identifier a;
     Agent.controls :=
       option_map (map (fun kc => (fst kc, erase_control (snd kc))))
         (controls a) |}.

(** [ctrl_data], the control as it is sent to the API. *)
Record api_control : Type := {
  api_fulltype : string;
  api_label : string;
  api_required : bool;
  api_in_list : bool;
  api_in_text : bool;
  api_lookups : option (dict string);
  api_lookup_app : option string
}.

(** The body [{"name": ..., "controls": ...}] of one POST to [/apps]. *)
Record request : Type := {
  req_name : string;
  req_controls : dict api_control
}.

(** What one POST comes to inside the [try] block: [raise_for_status]
    raises [HTTPStatusError] with the text of the response, anything else
    raises (a transport error, a body without ["id"]), or the body gives
    the id of the new app and possibly its controls. *)
Inductive response : Type :=
| HTTPStatusError (text : string)
| OtherError (message : string)
| Created (id : string) (controls : option (dict Generator.control)).

(** One value of [created]. *)
Record created_app : Type := {
  app_id : string;
  created_name : string;
  created_controls : dict Generator.control
}.

(** The reply of the tool: an error text, or the metadata whose ["apps"]
    is [created] (the reply carries it serialized by [json.dumps]). *)
Inductive reply : Type :=
| ErrorReply (text : string)
| Metadata (created : dict created_app).

(** ** sort_apps_by_dependencies on full definitions *)

(** [app_map] over the definitions with all their keys. *)
Definition app_map (apps : list app) : dict app :=
  fold_left (fun m a => dset m (identifier a) a) apps [].

(** The resolver reads four keys only, so the identifiers are popped as
    [Agent.topological] pops them for the erased definitions; the objects
    appended to [sorted_apps] are those of [app_map]. *)
Definition sort_apps_by_dependencies (apps : list app) : result (list app) :=
  popped <- Agent.topological (map erase apps) ;;
  let sorted_apps :=
    flat_map (fun e => match dget (app_map apps) (Agent.identifier e) with
                       | Some a => [a]
                       | None => []
                       end) popped in
  Ok (if Nat.eqb (List.length sorted_apps) (List.length apps)
      then sorted_apps else apps).

(** ** The controls of one request *)

Definition api_url : string := "https://my.living-apps.de/rest".

(** [f"{api_url}/apps/{id}"] *)
Definition lookup_url (id : string) : string := api_url ++ "/apps/" ++ id.

(** The comprehension [{item["key"]: item["value"] for item in lookups}],
    with the dict built so far: an item is read key first, and an absent
    key or value raises [KeyError]. *)
Fixpoint lookups_dict (items : list lookup_item) (d : dict string)
    : result (dict string) :=
  match items with
  | [] => Ok d
  | item :: rest =>
      match item_key item with
      | None => Raise (KeyError "key")
      | Some k =>
          match item_value item with
          | None => Raise (KeyError "value")
          | Some v => lookups_dict rest (dset d k v)
          end
      end
  end.

(** The conversion of ["lookups"]: an array becomes the dict of its
    items, anything else is passed on. *)
Definition convert_lookups (v : lookups_value) : result (dict string) :=
  match v with
  | LookupsList items => lookups_dict items []
  | LookupsDict d => Ok d
  end.

Definition or_false (o : option bool) : bool :=
  match o with Some b => b | None => false end.

(** The body of the loop over the controls of one app, up to the
    assignment [controls[ctrl_name] = ctrl_data]. *)
Definition api_control_of (identifier_to_id : dict string) (ctrl : control)
    : result api_control :=
  match fulltype ctrl with
  | None => Raise (KeyError "fulltype")
  | Some ft =>
      match label ctrl with
      | None => Raise (KeyError "label")
      | Some lb =>
          converted <- match lookups ctrl with
                       | Some v => d <- convert_lookups v ;; Ok (Some d)
                       | None => Ok None
                       end ;;
          Ok {| api_fulltype := ft;
                api_label := lb;
                api_required := or_false (required ctrl);
                api_in_list := or_false (in_list ctrl);
                api_in_text := or_false (in_text ctrl);
                api_lookups := converted;
                api_lookup_app :=
                  if contains "applookup" ft then
                    match Agent.truthy (lookup_app_ref ctrl) with
                    | Some ref =>
                        match dget identifier_to_id ref with
                        | Some id => Some (lookup_url id)
                        | None => None
                        end
                    | None => None
                    end
                  else None |}
      end
  end.

Fixpoint build_controls_from (identifier_to_id : dict string)
    (items : dict control) (controls : dict api_control)
    : result (dict api_control) :=
  match items with
  | [] => Ok controls
  | (ctrl_name, ctrl) :: rest =>
      ctrl_data <- api_control_of identifier_to_id ctrl ;;
      build_controls_from identifier_to_id rest
        (dset controls ctrl_name ctrl_data)
  end.

(** "Build controls for API" for one app. *)
Definition build_controls (identifier_to_id : dict string) (app_def : app)
    : result (dict api_control) :=
  build_controls_from identifier_to_id
    (match controls app_def with Some c => c | None => [] end) [].

(** ** The loop over the sorted apps *)

Section Remote.

(** The remote service: what the POST number [n] (counted from 0) with a
    given body comes to. *)
Variable post : nat -> request -> response.

(** The state of the loop: [created], [identifier_to_id], and the POSTs
    sent so far, oldest first. *)
Fixpoint create_loop (sorted_apps : list app) (created : dict created_app)
    (identifier_to_id : dict string) (sent : list request)
    : result (reply * list request) :=
  match sorted_apps with
  | [] => Ok (Metadata created, sent)
  | app_def :: rest =>
      controls <- build_controls identifier_to_id app_def ;;
      let body := {| req_name := name app_def; req_controls := controls |} in
      match post (List.length sent) body with
      | HTTPStatusError text =>
          Ok (ErrorReply ("Error creating '" ++ name app_def ++ "': " ++ text),
              (sent ++ [body])%list)
      | OtherError message =>
          Ok (ErrorReply ("Error creating '" ++ name app_def ++ "': " ++ message),
              (sent ++ [body])%list)
      | Created id result_controls =>
          create_loop rest
            (dset created (identifier app_def)
               {| app_id := id;
                  created_name := name app_def;
                  created_controls :=
                    match result_controls with Some c => c | None => [] end |})
            (dset identifier_to_id (identifier app_def) id)
            (sent ++ [body])%list
      end
  end.

(** [create_apps]: the reply and the POSTs sent, in order.  [api_key] is
    the value of the environment variable, if set. *)
Definition create_apps (api_key : option string) (apps : list app)
    : result (reply * list request) :=
  match apps with
  | [] => Ok (ErrorReply "Error: No apps specified", [])
  | _ :: _ =>
      match Agent.truthy api_key with
      | None => Ok (ErrorReply "Error: LIVINGAPPS_API_KEY not set", [])
      | Some _ =>
          sorted_apps <- sort_apps_by_dependencies apps ;;
          create_loop sorted_apps [] [] []
      end
  end.

End Remote.

(** [metadata["apps"]] as [TypeScriptGenerator] reads it. *)
Definition metadata_apps (created : dict created_app) : dict Generator.app_data :=
  map (fun kc =>
         (fst kc,
          {| Generator.app_id := app_id (snd kc);
             Generator.controls := created_controls (snd kc) |}))
      created.

End Creation.

(* ================================================================== *)
(** * create_apps: the order of creation *)
(* ================================================================== *)

Module CreationFacts.
Import Py PyFacts AgentFacts Creation.
Local Open Scope string_scope.
Local Open Scope list_scope.

(** ** The resolver on full definitions *)

(** The apps appended to [sorted_apps] when the identifiers [P] are
    popped. *)
Definition picked (apps : list app) (P : list string) : list app :=
  flat_map (fun k => match dget (app_map apps) k with
                     | Some a => [a]
                     | None => []
                     end) P.

Lemma app_map_snoc (apps : list app) (a : app) :
  app_map (apps ++ [a]) = dset (app_map apps) (identifier a) a.
Proof. unfold app_map. now rewrite fold_left_app. Qed.

Lemma app_map_erase (apps : list app) (k : string) :
  dget (snd (Agent.build (map erase apps))) k
  = option_map erase (dget (app_map apps) k).
Proof.
  induction apps as [|a apps IH] using rev_ind; [reflexivity|].
  rewrite map_app. simpl map. rewrite build_snoc, app_map_snoc. simpl.
  rewrite !dget_dset.
  destruct (String.eqb (identifier a) k); [reflexivity | exact IH].
Qed.

Lemma app_map_In (apps : list app) (k : string) (a : app) :
  dget (app_map apps) k = Some a -> In a apps /\ identifier a = k.
Proof.
  induction apps as [|x apps IH] using rev_ind; [discriminate|].
  rewrite app_map_snoc, dget_dset, in_app_iff.
  destruct (String.eqb_spec (identifier x) k) as [E|E].
  - intros H. inversion H; subst. simpl. auto.
  - intros H. destruct (IH H). auto.
Qed.

Lemma picked_In (apps : list app) (P : list string) (a : app) :
  In a (picked apps P) -> In a apps.
Proof.
  unfold picked. rewrite in_flat_map. intros (k & _ & Hk).
  destruct (dget (app_map apps) k) as [b|] eqn:E; [|contradiction].
  destruct Hk as [<-|[]]. now destruct (app_map_In _ _ _ E).
Qed.

(** Erasing the picked apps gives the apps the loop emits. *)
Lemma picked_erase (apps : list app) (P : list string) :
  map erase (picked apps P) = emitted (snd (Agent.build (map erase apps))) P.
Proof.
  unfold picked, emitted. induction P as [|k P IH]; [reflexivity|].
  simpl. rewrite map_app, IH, app_map_erase.
  destruct (dget (app_map apps) k); reflexivity.
Qed.

Lemma flat_map_compose {A B C : Type} (f : B -> list C) (g : A -> B)
    (l : list A) :
  flat_map (fun x => f (g x)) l = flat_map f (map g l).
Proof.
  induction l as [|x l IH]; simpl; [reflexivity | now rewrite IH].
Qed.

Lemma erased_identifiers (l : list app) :
  map Agent.identifier (map erase l) = map identifier l.
Proof. rewrite map_map. reflexivity. Qed.

Lemma erase_references (a : app) (r : string) :
  Agent.references (erase a) r <->
  exists key ctrl cs,
    controls a = Some cs /\ In (key, ctrl) cs /\
    (exists ft, fulltype ctrl = Some ft /\ contains "applookup" ft = true) /\
    Agent.truthy (lookup_app_ref ctrl) = Some r.
Proof.
  unfold Agent.references. split.
  - intros (key & ec & ecs & Hcs & Hin & Hft & Href & Hne).
    simpl in Hcs. destruct (controls a) as [cs|]; [|discriminate].
    simpl in Hcs. inversion Hcs; subst ecs.
    apply in_map_iff in Hin. destruct Hin as ([key' ctrl] & Heq & Hin).
    simpl in Heq. inversion Heq; subst key' ec. simpl in Hft, Href.
    exists key, ctrl, cs. repeat split; auto.
    + destruct (fulltype ctrl) as [ft|]; [eauto | discriminate].
    + apply truthy_Some. auto.
  - intros (key & ctrl & cs & Hcs & Hin & (ft & Hft & Hlook) & Href).
    apply truthy_Some in Href. destruct Href as [Href Hne].
    exists key, (erase_control ctrl),
      (map (fun kc => (fst kc, erase_control (snd kc))) cs).
    simpl. rewrite Hcs, Hft. repeat split; auto.
    apply in_map_iff. exists (key, ctrl). auto.
Qed.

(** The result of the resolver, by the list [P] of popped identifiers. *)
Lemma plan_sort_cases (apps : list app) :
  exists P,
    sort_apps_by_dependencies apps
    = Ok (if Nat.eqb (List.length P) (List.length apps)
          then picked apps P else apps) /\
    Agent.sort_apps_by_dependencies (map erase apps)
    = Ok (if Nat.eqb (List.length P) (List.length apps)
          then map erase (picked apps P) else map erase apps) /\
    NoDup P /\
    incl P (map identifier apps) /\
    map identifier (picked apps P) = P /\
    topo (fst (Agent.build (map erase apps))) P /\
    (Agent.acyclic (map erase apps) -> Agent.no_dangling (map erase apps) ->
     incl (map identifier apps) P) /\
    (List.length P = List.length apps ->
     NoDup (map identifier apps) /\ incl (map identifier apps) P).
Proof.
  destruct (topological_run (map erase apps)) as (P & deg & Hrun & HI).
  pose proof (fun H => fallback_of_duplicates _ P deg Hrun HI H) as Hshort.
  pose proof (fun Ha Hd => all_popped _ P deg Ha Hd HI) as Hall.
  destruct HI as [Hnd Hincl _ _ Htopo]. rewrite app_nil_r in *.
  assert (HK : forall k, In k (keys (fst (Agent.build (map erase apps))))
                         <-> In k (map identifier apps)).
  { intros k. rewrite build_keys_In, erased_identifiers. reflexivity. }
  assert (Hids : map identifier (picked apps P) = P).
  { rewrite <- erased_identifiers, picked_erase. now apply run_identifiers. }
  assert (Hlen : List.length (picked apps P) = List.length P).
  { rewrite <- (length_map erase), picked_erase. now apply run_length. }
  exists P. split; [|split; [|split; [|split; [|split; [|split; [|split]]]]]].
  - unfold sort_apps_by_dependencies. rewrite Hrun. simpl.
    rewrite (flat_map_compose
               (fun k => match dget (app_map apps) k with
                         | Some a => [a]
                         | None => []
                         end) Agent.identifier).
    rewrite (run_identifiers _ P Hincl).
    fold (picked apps P). now rewrite Hlen.
  - rewrite (sort_of_run _ P Hrun Hincl), length_map, picked_erase.
    reflexivity.
  - exact Hnd.
  - intros k Hk. now apply HK, Hincl.
  - exact Hids.
  - exact Htopo.
  - intros Ha Hd k Hk. now apply Hall, HK.
  - intros Hl.
    assert (Hu : Agent.unique_identifiers (map erase apps)).
    { destruct (unique_identifiers_dec (map erase apps)) as [Hu|Hdup];
        [exact Hu|].
      specialize (Hshort Hdup). rewrite length_map in Hshort. lia. }
    unfold Agent.unique_identifiers in Hu. rewrite erased_identifiers in Hu.
    split; [exact Hu|].
    apply NoDup_length_incl; auto.
    + rewrite length_map. lia.
    + intros k Hk. now apply HK, Hincl.
Qed.

(** The sorted list holds apps of the input only. *)
Lemma plan_sort_incl (apps sorted : list app) :
  sort_apps_by_dependencies apps = Ok sorted -> incl sorted apps.
Proof.
  destruct (plan_sort_cases apps) as (P & Hsort & _).
  rewrite Hsort. intros H. inversion H; subst sorted.
  destruct (Nat.eqb (List.length P) (List.length apps)).
  - intros a. apply picked_In.
  - apply incl_refl.
Qed.

(** ** Dictionaries under assignment *)

Lemma keys_dset_In {V : Type} (d : dict V) (k0 : string) (v : V) (k : string) :
  In k (keys (dset d k0 v)) <-> In k (keys d) \/ k = k0.
Proof.
  destruct (in_dec string_dec k0 (keys d)) as [H|H].
  - rewrite keys_dset_old by exact H. split; [auto|].
    intros [Hk| ->]; auto.
  - rewrite keys_dset_new by exact H. rewrite in_app_iff. simpl.
    split; intros [Hk|Hk]; auto; destruct Hk as [<-|[]]; auto.
Qed.

Lemma keys_dset_NoDup {V : Type} (d : dict V) (k0 : string) (v : V) :
  NoDup (keys d) -> NoDup (keys (dset d k0 v)).
Proof.
  intros Hnd. destruct (in_dec string_dec k0 (keys d)) as [H|H].
  - now rewrite keys_dset_old.
  - rewrite keys_dset_new by exact H. apply NoDup_app; auto.
    + constructor; [simpl; tauto | constructor].
    + intros x Hx [<-|[]]. contradiction.
Qed.

(** ** The controls of one request *)

(** What [api_control_of] copies and what it resolves. *)
Lemma api_control_of_Ok (ids : dict string) (ctrl : control) (ac : api_control) :
  api_control_of ids ctrl = Ok ac ->
  fulltype ctrl = Some (api_fulltype ac) /\
  label ctrl = Some (api_label ac) /\
  api_lookup_app ac =
    (if contains "applookup" (api_fulltype ac) then
       match Agent.truthy (lookup_app_ref ctrl) with
       | Some ref => option_map lookup_url (dget ids ref)
       | None => None
       end
     else None).
Proof.
  unfold api_control_of.
  destruct (fulltype ctrl) as [ft|]; [|discriminate].
  destruct (label ctrl) as [lb|]; [|discriminate].
  destruct (match lookups ctrl with
            | Some v => d <- convert_lookups v ;; Ok (Some d)
            | None => Ok None
            end) as [converted| |]; cbn [bind]; try discriminate.
  intros H. inversion H; subst ac; clear H. simpl.
  split; [reflexivity|]. split; reflexivity.
Qed.

(** Every control of a request is the conversion of a control of the
    definition with the same key. *)
Lemma build_controls_from_source (ids : dict string) (items : dict control) :
  forall acc ctrls,
  build_controls_from ids items acc = Ok ctrls ->
  forall key ac, dget ctrls key = Some ac ->
  dget acc key = Some ac \/
  exists ctrl, In (key, ctrl) items /\ api_control_of ids ctrl = Ok ac.
Proof.
  induction items as [|[ctrl_name ctrl] rest IH]; intros acc ctrls Hrun key ac Hget.
  - simpl in Hrun. inversion Hrun; subst. now left.
  - simpl in Hrun.
    destruct (api_control_of ids ctrl) as [cd| |] eqn:Hcd; try discriminate.
    simpl in Hrun.
    destruct (IH _ _ Hrun key ac Hget) as [Hacc|(c & Hin & Hc)].
    + rewrite dget_dset in Hacc.
      destruct (String.eqb_spec ctrl_name key) as [->|Hne].
      * inversion Hacc; subst cd. right. exists ctrl. split; [now left | exact Hcd].
      * now left.
    + right. exists c. split; [now right | exact Hc].
Qed.

Definition controls_of (a : app) : dict control :=
  match controls a with Some c => c | None => [] end.

Lemma build_controls_source (ids : dict string) (a : app)
    (ctrls : dict api_control) (key : string) (ac : api_control) :
  build_controls ids a = Ok ctrls -> dget ctrls key = Some ac ->
  exists ctrl, In (key, ctrl) (controls_of a) /\ api_control_of ids ctrl = Ok ac.
Proof.
  intros Hrun Hget.
  destruct (build_controls_from_source ids _ _ _ Hrun key ac Hget)
    as [H|H]; [discriminate | exact H].
Qed.

(** ** What is missing when the controls cannot be built *)










(** ** The loop *)

Section RemoteFacts.

Variable post : nat -> request -> response.

(** [identifier_to_id] holds the ids of [created], under the same keys. *)
Definition ids_agree (ids : dict string) (created : dict created_app) : Prop :=
  forall k, dget ids k = option_map app_id (dget created k).

(** The POSTs [reqs], sent from number [offset] on, were all answered
    with a new app. *)
Definition accepted (offset : nat) (reqs : list request) : Prop :=
  forall i req, nth_error reqs i = Some req ->
  exists id rc, post (offset + i) req = Created id rc.

Lemma accepted_cons (offset : nat) (body : request) (reqs : list request)
    (id : string) (rc : option (dict Generator.control)) :
  post offset body = Created id rc ->
  accepted (S offset) reqs -> accepted offset (body :: reqs).
Proof.
  intros Hpost Hacc [|i] req Hnth; simpl in Hnth.
  - inversion Hnth; subst. rewrite Nat.add_0_r. eauto.
  - rewrite Nat.add_succ_r. apply (Hacc i req Hnth).
Qed.

(** Every outcome of the loop that is a reply. *)
Lemma loop_run (sorted : list app) :
  forall created ids sent reply log,
  create_loop post sorted created ids sent = Ok (reply, log) ->
  exists reqs,
    log = sent ++ reqs /\
    match reply with
    | Metadata created' =>
        List.length reqs = List.length sorted /\
        accepted (List.length sent) reqs /\
        (forall k, In k (keys created') <->
                   In k (keys created) \/ In k (map identifier sorted)) /\
        (NoDup (keys created) -> NoDup (keys created'))
    | ErrorReply text =>
        exists prior body t,
          reqs = prior ++ [body] /\
          List.length prior < List.length sorted /\
          accepted (List.length sent) prior /\
          (post (List.length sent + List.length prior) body = HTTPStatusError t \/
           post (List.length sent + List.length prior) body = OtherError t) /\
          text = ("Error creating '" ++ req_name body ++ "': " ++ t)%string
    end.
Proof.
  induction sorted as [|a rest IH]; intros created ids sent reply log Hrun.
  - simpl in Hrun. inversion Hrun; subst. exists []. rewrite app_nil_r.
    split; [reflexivity|]. split; [reflexivity|]. split.
    + intros [|i] req H; discriminate H.
    + split; [|auto]. intros k. simpl. tauto.
  - simpl in Hrun.
    destruct (build_controls ids a) as [ctrls| |]; try discriminate.
    simpl in Hrun.
    set (body := {| req_name := name a; req_controls := ctrls |}) in *.
    destruct (post (List.length sent) body) as [t|t|id rc] eqn:Hpost.
    + inversion Hrun; subst. exists [body]. split; [reflexivity|].
      exists [], body, t. simpl. rewrite Nat.add_0_r.
      repeat split; auto; try lia. intros [|i] req H; discriminate H.
    + inversion Hrun; subst. exists [body]. split; [reflexivity|].
      exists [], body, t. simpl. rewrite Nat.add_0_r.
      repeat split; auto; try lia. intros [|i] req H; discriminate H.
    + destruct (IH _ _ _ _ _ Hrun) as (reqs & Hlog & Hcase).
      exists (body :: reqs). split; [now rewrite Hlog, <- app_assoc|].
      assert (Hlen : List.length (sent ++ [body]) = S (List.length sent))
        by (rewrite length_app; simpl; lia).
      rewrite Hlen in Hcase.
      destruct reply as [text|created'].
      * destruct Hcase as (prior & fail & t & Hreqs & Hlt & Hacc & Hfail & Htext).
        exists (body :: prior), fail, t. simpl.
        split; [now rewrite Hreqs|]. split; [lia|].
        split; [now apply accepted_cons with id rc|].
        split; [|exact Htext].
        rewrite Nat.add_succ_r. exact Hfail.
      * destruct Hcase as (Hl & Hacc & Hkeys & Hnd).
        split; [simpl; now rewrite Hl|].
        split; [now apply accepted_cons with id rc|]. split.
        -- intros k. rewrite Hkeys, keys_dset_In. simpl.
           split; intros H; intuition (subst; auto).
        -- intros H. apply Hnd. now apply keys_dset_NoDup.
Qed.



End RemoteFacts.

(** ** The ids known when a request is built *)

(** [served final known sorted reqs]: the requests [reqs] are those of
    the apps [sorted], in order; each is built from a table of ids that
    holds, for every identifier of [known] and of the apps before it, the
    id that [final] holds. *)
Inductive served (final : dict created_app)
    : list string -> list app -> list request -> Prop :=
| served_nil known : served final known [] []
| served_cons known a rest req reqs ids_a :
    req_name req = name a ->
    build_controls ids_a a = Ok (req_controls req) ->
    (forall r, In r known ->
       exists c, dget final r = Some c /\ dget ids_a r = Some (app_id c)) ->
    served final (known ++ [identifier a]) rest reqs ->
    served final known (a :: rest) (req :: reqs).

Lemma loop_served (post : nat -> request -> response) (sorted : list app) :
  forall created ids sent created' log,
  create_loop post sorted created ids sent = Ok (Metadata created', log) ->
  ids_agree ids created ->
  NoDup (keys created ++ map identifier sorted) ->
  exists reqs,
    log = sent ++ reqs /\
    served created' (keys created) sorted reqs /\
    keys created' = keys created ++ map identifier sorted /\
    (forall k c, dget created k = Some c -> dget created' k = Some c).
Proof.
  induction sorted as [|a rest IH]; intros created ids sent created' log Hrun Hag Hnd.
  - simpl in Hrun. inversion Hrun; subst. exists [].
    simpl. rewrite !app_nil_r. repeat split; auto. constructor.
  - simpl in Hrun.
    destruct (build_controls ids a) as [ctrls| |] eqn:Hctrls; try discriminate.
    simpl in Hrun.
    set (body := {| req_name := name a; req_controls := ctrls |}) in *.
    destruct (post (List.length sent) body) as [t|t|id rc];
      try discriminate.
    simpl in Hnd.
    assert (Hnew : ~ In (identifier a) (keys created)).
    { apply NoDup_remove_2 in Hnd. rewrite in_app_iff in Hnd. tauto. }
    set (c1 := {| app_id := id; created_name := name a;
                  created_controls :=
                    match rc with Some c => c | None => [] end |}) in *.
    pose proof (keys_dset_new created (identifier a) c1 Hnew) as Hkeys1.
    destruct (IH _ _ _ _ _ Hrun) as (reqs & Hlog & Hserved & Hkeys & Hpres).
    { intros k. rewrite !dget_dset.
      destruct (String.eqb (identifier a) k); [reflexivity | apply Hag]. }
    { rewrite Hkeys1, <- app_assoc. exact Hnd. }
    assert (Hkeep : forall k c, dget created k = Some c -> dget created' k = Some c).
    { intros k c Hk. apply Hpres. rewrite dget_dset.
      destruct (String.eqb_spec (identifier a) k) as [E|E]; [|exact Hk].
      exfalso. apply Hnew. rewrite E. apply dget_In_keys. eauto. }
    exists (body :: reqs). split; [now rewrite Hlog, <- app_assoc|].
    split; [|split; [|exact Hkeep]].
    + apply served_cons with ids; auto.
      * intros r Hr. apply dget_In_keys in Hr. destruct Hr as [c Hc].
        exists c. split; [now apply Hkeep|].
        now rewrite Hag, Hc.
      * rewrite <- Hkeys1. exact Hserved.
    + rewrite Hkeys, Hkeys1, <- app_assoc. reflexivity.
Qed.

(** What a request owes to the order: the id of every definition that its
    app references is in the table it is built from. *)
Definition request_for (final : dict created_app) (a : app) (req : request)
    : Prop :=
  req_name req = name a /\
  exists ids_a,
    build_controls ids_a a = Ok (req_controls req) /\
    forall r, Agent.references (erase a) r ->
      exists c, dget final r = Some c /\ dget ids_a r = Some (app_id c).

Lemma served_resolved (final : dict created_app) (known : list string)
    (sorted : list app) (reqs : list request) :
  served final known sorted reqs ->
  (forall before a after r,
     sorted = before ++ a :: after -> Agent.references (erase a) r ->
     In r (known ++ map identifier before)) ->
  Forall2 (request_for final) sorted reqs.
Proof.
  induction 1 as [known | known a rest req reqs ids_a Hname Hbuild Hknown Hserved IH];
    intros Hord; constructor.
  - split; [exact Hname|]. exists ids_a. split; [exact Hbuild|].
    intros r Hr. apply Hknown.
    specialize (Hord [] a rest r eq_refl Hr). simpl in Hord.
    now rewrite app_nil_r in Hord.
  - apply IH. intros before b after r Heq Hr.
    specialize (Hord (a :: before) b after r).
    rewrite Heq in Hord. specialize (Hord eq_refl Hr).
    simpl in Hord. rewrite <- app_assoc. exact Hord.
Qed.

(** The request of [a] as the remote sees it: every control comes from
    the control of [a] with the same key, and every reference of an
    applookup control is resolved to the URL of the app that [created]
    holds under the referenced identifier. *)
Definition resolved_request (created : dict created_app) (a : app)
    (req : request) : Prop :=
  req_name req = name a /\
  forall key ac, dget (req_controls req) key = Some ac ->
    exists ctrl,
      In (key, ctrl) (controls_of a) /\
      fulltype ctrl = Some (api_fulltype ac) /\
      forall ref,
        contains "applookup" (api_fulltype ac) = true ->
        Agent.truthy (lookup_app_ref ctrl) = Some ref ->
        exists c, dget created ref = Some c /\
                  api_lookup_app ac = Some (lookup_url (app_id c)).

Lemma request_for_resolved (created : dict created_app) (a : app)
    (req : request) :
  request_for created a req -> resolved_request created a req.
Proof.
  intros (Hname & ids_a & Hbuild & Hrefs). split; [exact Hname|].
  intros key ac Hget.
  destruct (build_controls_source _ _ _ _ _ Hbuild Hget) as (ctrl & Hin & Hac).
  destruct (api_control_of_Ok _ _ _ Hac) as (Hft & _ & Hlook).
  exists ctrl. split; [exact Hin|]. split; [exact Hft|].
  intros ref Happ Href.
  destruct (Hrefs ref) as (c & Hc & Hid).
  - apply erase_references. unfold controls_of in Hin.
    destruct (controls a) as [cs|] eqn:Hcs; [|contradiction].
    exists key, ctrl, cs. repeat split; eauto.
  - exists c. split; [exact Hc|].
    now rewrite Hlook, Happ, Href, Hid.
Qed.

(** ** The cases of [create_apps] *)

Lemma create_apps_inv (post : nat -> request -> response)
    (api_key : option string) (apps : list app)
    (out : result (reply * list request)) :
  create_apps post api_key apps = out ->
  (apps = [] /\ out = Ok (ErrorReply "Error: No apps specified", [])) \/
  (apps <> [] /\ Agent.truthy api_key = None /\
   out = Ok (ErrorReply "Error: LIVINGAPPS_API_KEY not set", [])) \/
  (apps <> [] /\ Agent.truthy api_key <> None /\
   exists sorted,
     sort_apps_by_dependencies apps = Ok sorted /\
     List.length sorted = List.length apps /\
     incl sorted apps /\
     (forall k, In k (map identifier sorted) <-> In k (map identifier apps)) /\
     out = create_loop post sorted [] [] []).
Proof.
  intros <-. destruct apps as [|a0 apps']; [now left | right].
  unfold create_apps.
  destruct (Agent.truthy api_key) as [k|].
  2: { left. repeat split; auto. discriminate. }
  right. split; [discriminate|]. split; [discriminate|].
  set (apps := a0 :: apps') in *.
  destruct (plan_sort_cases apps)
    as (P & Hsort & _ & _ & Hincl & Hids & _ & _ & Hfull).
  assert (Hs : exists sorted,
             sort_apps_by_dependencies apps = Ok sorted /\
             List.length sorted = List.length apps /\
             incl sorted apps /\
             (forall k, In k (map identifier sorted)
                        <-> In k (map identifier apps))).
  { destruct (Nat.eqb_spec (List.length P) (List.length apps)) as [Hlen|Hlen].
    - exists (picked apps P). split; [exact Hsort|].
      split; [now rewrite <- (length_map identifier), Hids|].
      split; [intros a; apply picked_In|].
      rewrite Hids. intros x. split; [apply Hincl | apply (Hfull Hlen)].
    - exists apps. repeat split; auto. apply incl_refl. }
  destruct Hs as (sorted & Hs & Hl & Hi & Hk).
  exists sorted. rewrite Hs. repeat split; auto; apply Hk.
Qed.

(* ================================================================== *)
(** * create_apps: results *)
(* ================================================================== *)

(** ** Sample plans and remotes *)

Definition text_field (lb : string) : control :=
  {| fulltype := Some "string"; label := Some lb; required := None;
     in_list := Some true; in_text := None; lookups := None;
     lookup_app_ref := None |}.

Definition reference_field (lb target : string) : control :=
  {| fulltype := Some "applookup/select"; label := Some lb;
     required := Some true; in_list := None; in_text := None;
     lookups := None; lookup_app_ref := Some target |}.

Definition employees_plan : app :=
  {| name := "Employees"; identifier := "employees";
     controls := Some [("name", text_field "Name")] |}.

Definition teams_plan : app :=
  {| name := "Teams"; identifier := "teams";
     controls := Some [("lead", reference_field "Lead" "employees")] |}.

Definition staff_plan : list app := [teams_plan; employees_plan].

(** A remote that creates every app, with the ids [id0], [id1], ... *)
Definition willing_remote (n : nat) (body : request) : response :=
  Created (String "i" (String "d" (String (ascii_of_nat (48 + n)) ""))) None.

(** A remote that creates the first app and refuses every other. *)
Definition tired_remote (n : nat) (body : request) : response :=
  match n with
  | O => Created "id0" None
  | S _ => HTTPStatusError "quota exceeded"
  end.

(** ** Every reference is resolved *)

(** When the batch has unique identifiers, no cycle and no dangling
    reference, and [create_apps] returns metadata, the POSTs are those of
    the definitions in an order that is a permutation of the input, the
    metadata lists the identifiers in that order, and in every POST every
    applookup control with a reference carries the URL of the app created
    for the referenced definition. *)
Theorem create_apps_resolves_references (post : nat -> request -> response)
    (api_key : option string) (apps : list app)
    (created : dict created_app) (log : list request) :
  NoDup (map identifier apps) ->
  Agent.acyclic (map erase apps) ->
  Agent.no_dangling (map erase apps) ->
  create_apps post api_key apps = Ok (Metadata created, log) ->
  exists sorted,
    Permutation apps sorted /\
    keys created = map identifier sorted /\
    Forall2 (resolved_request created) sorted log.
Proof.
  intros Hu Hacyc Hdang Hrun.
  assert (Hne : apps <> []).
  { intros ->. discriminate Hrun. }
  assert (Hkey : Agent.truthy api_key <> None).
  { intros Hk. destruct apps; [contradiction|].
    unfold create_apps in Hrun. rewrite Hk in Hrun. discriminate Hrun. }
  destruct (plan_sort_cases apps)
    as (P & Hsort & _ & Hnd & Hincl & Hids & Htopo & Hall & _).
  specialize (Hall Hacyc Hdang).
  assert (Hlen : List.length P = List.length apps).
  { rewrite <- (length_map identifier apps). apply Nat.le_antisymm.
    - now apply NoDup_incl_length.
    - now apply NoDup_incl_length. }
  rewrite Hlen, Nat.eqb_refl in Hsort.
  assert (Hloop : create_loop post (picked apps P) [] [] [] = Ok (Metadata created, log)).
  { rewrite <- Hrun. destruct apps as [|a0 apps']; [contradiction|].
    unfold create_apps.
    destruct (Agent.truthy api_key); [|contradiction].
    now rewrite Hsort. }
  destruct (loop_served post _ _ _ _ _ _ Hloop) as (reqs & Hlog & Hserved & Hkeys & _).
  { intros k. reflexivity. }
  { simpl. now rewrite Hids. }
  simpl in Hlog, Hkeys. subst reqs.
  exists (picked apps P). split; [|split; [exact Hkeys|]].
  - assert (HndP : NoDup (picked apps P)).
    { apply (NoDup_map_inv identifier). now rewrite Hids. }
    apply Permutation_sym. apply NoDup_Permutation; auto.
    + now apply (NoDup_map_inv identifier).
    + intros a. split; [apply picked_In|].
      apply NoDup_length_incl; auto.
      * rewrite <- (length_map identifier (picked apps P)), Hids. lia.
      * intros b. apply picked_In.
  - apply served_resolved in Hserved.
    + clear - Hserved. induction Hserved; constructor; auto.
      now apply request_for_resolved.
    + intros before a after r Heq Hr. simpl.
      assert (Hsplit : P = map identifier before ++ identifier a :: map identifier after).
      { rewrite <- Hids, Heq, map_app. reflexivity. }
      apply (topo_before _ _ Htopo _ _ _ Hsplit).
      apply edge_deps.
      * unfold Agent.unique_identifiers. now rewrite erased_identifiers.
      * exists (erase a). split; [|split; [reflexivity | exact Hr]].
        apply in_map. apply (picked_In apps P). rewrite Heq.
        apply in_app_iff. right. now left.
Qed.

Lemma create_apps_resolves_references_witness :
  exists sorted,
    Permutation staff_plan sorted /\
    keys [("employees",
           {| app_id := "id0"; created_name := "Employees";
              created_controls := [] |});
          ("teams",
           {| app_id := "id1"; created_name := "Teams";
              created_controls := [] |})]
    = map identifier sorted /\
    Forall2
      (resolved_request
         [("employees",
           {| app_id := "id0"; created_name := "Employees";
              created_controls := [] |});
          ("teams",
           {| app_id := "id1"; created_name := "Teams";
              created_controls := [] |})])
      sorted
      [{| req_name := "Employees";
          req_controls :=
            [("name",
              {| api_fulltype := "string"; api_label := "Name";
                 api_required := false; api_in_list := true;
                 api_in_text := false; api_lookups := None;
                 api_lookup_app := None |})] |};
       {| req_name := "Teams";
          req_controls :=
            [("lead",
              {| api_fulltype := "applookup/select"; api_label := "Lead";
                 api_required := true; api_in_list := false;
                 api_in_text := false; api_lookups := None;
                 api_lookup_app :=
                   Some "https://my.living-apps.de/rest/apps/id0" |})] |}].
Proof.
  apply (create_apps_resolves_references willing_remote (Some "key") staff_plan).
  - simpl. repeat constructor; simpl; intuition discriminate.
  - apply (acyclic_by_rank
             (fun k => if String.eqb k "teams" then 1 else 0)).
    reflexivity.
  - apply no_dangling_by_check. reflexivity.
  - reflexivity.
Defined.

(** ** The first failure ends the run *)

(** When [create_apps] replies with an error, either nothing was sent
    (no apps, or no API key), or the last POST failed and the reply names
    its app and quotes the failure, while every POST before it had
    created its app: these apps exist remotely and the reply says nothing
    of them. *)
Theorem create_apps_stops_at_first_failure (post : nat -> request -> response)
    (api_key : option string) (apps : list app)
    (text : string) (log : list request) :
  create_apps post api_key apps = Ok (ErrorReply text, log) ->
  (log = [] /\
   ((apps = [] /\ text = "Error: No apps specified") \/
    (apps <> [] /\ Agent.truthy api_key = None /\
     text = "Error: LIVINGAPPS_API_KEY not set"))) \/
  (exists prior body t,
     log = prior ++ [body] /\
     List.length prior < List.length apps /\
     accepted post 0 prior /\
     (post (List.length prior) body = HTTPStatusError t \/
      post (List.length prior) body = OtherError t) /\
     text = ("Error creating '" ++ req_name body ++ "': " ++ t)%string).
Proof.
  intros Hrun.
  destruct (create_apps_inv _ _ _ _ Hrun)
    as [[Ha Hout] | [(Hne & Hk & Hout) | (Hne & Hk & sorted & _ & Hlen & _ & _ & Hout)]].
  - inversion Hout; subst. left. auto.
  - inversion Hout; subst. left. auto.
  - right. symmetry in Hout.
    destruct (loop_run post _ _ _ _ _ _ Hout) as (reqs & Hlog & Hcase).
    destruct Hcase as (prior & body & t & Hreqs & Hlt & Hacc & Hfail & Htext).
    simpl in *. subst reqs. exists prior, body, t.
    repeat split; auto. lia.
Qed.

Lemma create_apps_stops_at_first_failure_witness :
  ([{| req_name := "Employees";
       req_controls :=
         [("name",
           {| api_fulltype := "string"; api_label := "Name";
              api_required := false; api_in_list := true;
              api_in_text := false; api_lookups := None;
              api_lookup_app := None |})] |};
    {| req_name := "Teams";
       req_controls :=
         [("lead",
           {| api_fulltype := "applookup/select"; api_label := "Lead";
              api_required := true; api_in_list := false;
              api_in_text := false; api_lookups := None;
              api_lookup_app :=
                Some "https://my.living-apps.de/rest/apps/id0" |})] |}]
   = [] /\
   ((staff_plan = [] /\
     "Error creating 'Teams': quota exceeded"%string = "Error: No apps specified"%string) \/
    (staff_plan <> [] /\ Agent.truthy (Some "key"%string) = None /\
     "Error creating 'Teams': quota exceeded"%string
     = "Error: LIVINGAPPS_API_KEY not set"%string))) \/
  (exists prior body t,
     [{| req_name := "Employees";
         req_controls :=
           [("name",
             {| api_fulltype := "string"; api_label := "Name";
                api_required := false; api_in_list := true;
                api_in_text := false; api_lookups := None;
                api_lookup_app := None |})] |};
      {| req_name := "Teams";
         req_controls :=
           [("lead",
             {| api_fulltype := "applookup/select"; api_label := "Lead";
                api_required := true; api_in_list := false;
                api_in_text := false; api_lookups := None;
                api_lookup_app :=
                  Some "https://my.living-apps.de/rest/apps/id0" |})] |}]
     = prior ++ [body] /\
     List.length prior < List.length staff_plan /\
     accepted tired_remote 0 prior /\
     (tired_remote (List.length prior) body = HTTPStatusError t \/
      tired_remote (List.length prior) body = OtherError t) /\
     "Error creating 'Teams': quota exceeded"%string
     = ("Error creating '" ++ req_name body ++ "': " ++ t)%string).
Proof.
  apply (create_apps_stops_at_first_failure tired_remote (Some "key") staff_plan).
  reflexivity.
Defined.

(** ** What [create_apps] raises *)





(** ** One metadata entry per identifier *)

(** When [create_apps] returns metadata, one POST was sent and accepted
    for every definition of the input, and the metadata has exactly one
    entry for every identifier of the input: with a repeated identifier
    it lists fewer apps than were created. *)
Theorem metadata_keeps_one_app_per_identifier (post : nat -> request -> response)
    (api_key : option string) (apps : list app)
    (created : dict created_app) (log : list request) :
  create_apps post api_key apps = Ok (Metadata created, log) ->
  List.length log = List.length apps /\
  accepted post 0 log /\
  NoDup (keys created) /\
  (forall k, In k (keys created) <-> In k (map identifier apps)) /\
  (~ NoDup (map identifier apps) -> List.length created < List.length log).
Proof.
  intros Hrun.
  destruct (create_apps_inv _ _ _ _ Hrun)
    as [[Ha Hout] | [(Hne & Hk & Hout) | (Hne & Hk & sorted & _ & Hlen & _ & Hids & Hout)]];
    try discriminate Hout.
  symmetry in Hout.
  destruct (loop_run post _ _ _ _ _ _ Hout) as (reqs & Hlog & Hl & Hacc & Hkeys & Hnd).
  simpl in *. subst reqs.
  assert (Hin : forall k, In k (keys created) <-> In k (map identifier apps)).
  { intros k. rewrite Hkeys, <- Hids. tauto. }
  assert (HndK : NoDup (keys created)) by (apply Hnd; constructor).
  split; [lia|]. split; [exact Hacc|]. split; [exact HndK|].
  split; [exact Hin|].
  intros Hdup. rewrite Hl, Hlen.
  destruct (Nat.lt_ge_cases (List.length created) (List.length apps)) as [H|H];
    [exact H | exfalso].
  apply Hdup. apply NoDup_incl_NoDup with (l := keys created); auto.
  - unfold keys. now rewrite !length_map.
  - intros k. apply Hin.
Qed.

Definition employees_request : request :=
  {| req_name := "Employees";
     req_controls :=
       [("name",
         {| api_fulltype := "string"; api_label := "Name";
            api_required := false; api_in_list := true;
            api_in_text := false; api_lookups := None;
            api_lookup_app := None |})] |}.

(** What [willing_remote] leaves of the plan with [employees] twice. *)
Definition employees_twice_created : dict created_app :=
  [("employees",
    {| app_id := "id1"; created_name := "Employees"; created_controls := [] |})].

Lemma metadata_keeps_one_app_per_identifier_witness :
  List.length [employees_request; employees_request]
  = List.length [employees_plan; employees_plan] /\
  accepted willing_remote 0 [employees_request; employees_request] /\
  NoDup (keys employees_twice_created) /\
  (forall k,
     In k (keys employees_twice_created)
     <-> In k (map identifier [employees_plan; employees_plan])) /\
  (~ NoDup (map identifier [employees_plan; employees_plan]) ->
   List.length employees_twice_created
   < List.length [employees_request; employees_request]).
Proof.
  apply (metadata_keeps_one_app_per_identifier willing_remote (Some "key")
           [employees_plan; employees_plan] employees_twice_created
           [employees_request; employees_request]).
  reflexivity.
Defined.

(** ** No [lookup_app] without a definition to point to *)

(** Every request of the loop is built for one of the apps, from a table
    whose keys are identifiers of apps. *)
Lemma loop_requests (post : nat -> request -> response) (sorted : list app) :
  forall created ids sent reply log,
  create_loop post sorted created ids sent = Ok (reply, log) ->
  exists reqs,
    log = sent ++ reqs /\
    forall req, In req reqs ->
    exists a ids_a,
      In a sorted /\ req_name req = name a /\
      build_controls ids_a a = Ok (req_controls req) /\
      forall k, In k (keys ids_a) ->
        In k (keys ids) \/ In k (map identifier sorted).
Proof.
  induction sorted as [|a rest IH]; intros created ids sent reply log Hrun.
  - simpl in Hrun. inversion Hrun; subst. exists []. rewrite app_nil_r.
    split; [reflexivity|]. intros req [].
  - simpl in Hrun.
    destruct (build_controls ids a) as [ctrls| |] eqn:Hctrls; try discriminate.
    simpl in Hrun.
    set (body := {| req_name := name a; req_controls := ctrls |}) in *.
    assert (Hbody : exists a0 ids_a,
              In a0 (a :: rest) /\ req_name body = name a0 /\
              build_controls ids_a a0 = Ok (req_controls body) /\
              forall k, In k (keys ids_a) ->
                In k (keys ids) \/ In k (map identifier (a :: rest))).
    { exists a, ids. simpl. auto. }
    destruct (post (List.length sent) body) as [t|t|id rc].
    + inversion Hrun; subst. exists [body]. split; [reflexivity|].
      intros req [<-|[]]. exact Hbody.
    + inversion Hrun; subst. exists [body]. split; [reflexivity|].
      intros req [<-|[]]. exact Hbody.
    + destruct (IH _ _ _ _ _ Hrun) as (reqs & Hlog & Hreqs).
      exists (body :: reqs). split; [now rewrite Hlog, <- app_assoc|].
      intros req [<-|Hin]; [exact Hbody|].
      destruct (Hreqs req Hin) as (b & ids_b & Hb & Hn & Hbuild & Hkeys).
      exists b, ids_b. split; [now right|]. split; [exact Hn|].
      split; [exact Hbuild|].
      intros k Hk. destruct (Hkeys k Hk) as [H|H].
      * apply keys_dset_In in H. simpl. destruct H as [H| ->]; auto.
      * simpl. auto.
Qed.

(** Whatever the order and the outcome of the run: a control is sent
    with a [lookup_app] only if it is an applookup control of a
    definition of the input whose reference names a definition of the
    input, and the value is the URL of an app.  A reference to an
    identifier that no definition has is sent without [lookup_app]. *)
Theorem lookup_app_only_for_known_identifiers (post : nat -> request -> response)
    (api_key : option string) (apps : list app)
    (reply : reply) (log : list request) :
  create_apps post api_key apps = Ok (reply, log) ->
  forall req key ac,
  In req log -> dget (req_controls req) key = Some ac ->
  exists a ctrl,
    In a apps /\ req_name req = name a /\
    In (key, ctrl) (controls_of a) /\
    match api_lookup_app ac with
    | Some url =>
        contains "applookup" (api_fulltype ac) = true /\
        exists ref id,
          Agent.truthy (lookup_app_ref ctrl) = Some ref /\
          In ref (map identifier apps) /\
          url = lookup_url id
    | None => True
    end.
Proof.
  intros Hrun req key ac Hreq Hget.
  destruct (create_apps_inv _ _ _ _ Hrun)
    as [[Ha Hout] | [(Hne & Hk & Hout) | (Hne & Hk & sorted & _ & _ & Hincl & Hids & Hout)]].
  - inversion Hout; subst. contradiction.
  - inversion Hout; subst. contradiction.
  - symmetry in Hout.
    destruct (loop_requests post _ _ _ _ _ _ Hout) as (reqs & Hlog & Hreqs).
    simpl in Hlog. subst reqs.
    destruct (Hreqs req Hreq) as (a & ids_a & Ha & Hname & Hbuild & Hkeys).
    destruct (build_controls_source _ _ _ _ _ Hbuild Hget) as (ctrl & Hin & Hac).
    destruct (api_control_of_Ok _ _ _ Hac) as (_ & _ & Hlook).
    exists a, ctrl. split; [now apply Hincl|]. split; [exact Hname|].
    split; [exact Hin|].
    rewrite Hlook.
    destruct (contains "applookup" (api_fulltype ac)); [|exact I].
    destruct (Agent.truthy (lookup_app_ref ctrl)) as [ref|]; [|exact I].
    destruct (dget ids_a ref) as [id|] eqn:Hid; [|exact I].
    simpl. split; [reflexivity|]. exists ref, id. split; [reflexivity|].
    split; [|reflexivity].
    apply Hids. destruct (Hkeys ref) as [[]|H]; [|exact H].
    apply dget_In_keys. eauto.
Qed.

(** A plan whose only reference names no definition. *)
Definition orphan_plan : list app :=
  [{| name := "Teams"; identifier := "teams";
      controls := Some [("lead", reference_field "Lead" "nobody")] |}].

Definition orphan_request : request :=
  {| req_name := "Teams";
     req_controls :=
       [("lead",
         {| api_fulltype := "applookup/select"; api_label := "Lead";
            api_required := true; api_in_list := false;
            api_in_text := false; api_lookups := None;
            api_lookup_app := None |})] |}.

Lemma lookup_app_only_for_known_identifiers_witness :
  exists a ctrl,
    In a orphan_plan /\ req_name orphan_request = name a /\
    In ("lead", ctrl) (controls_of a) /\ True.
Proof.
  apply (lookup_app_only_for_known_identifiers willing_remote (Some "key")
           orphan_plan
           (Metadata [("teams",
                       {| app_id := "id0"; created_name := "Teams";
                          created_controls := [] |})])
           [orphan_request] eq_refl orphan_request "lead"
           {| api_fulltype := "applookup/select"; api_label := "Lead";
              api_required := true; api_in_list := false;
              api_in_text := false; api_lookups := None;
              api_lookup_app := None |}).
  - now left.
  - reflexivity.
Defined.

(** ** The conversion of lookups *)

Lemma dset_new {V : Type} (d : dict V) (k : string) (v : V) :
  ~ In k (keys d) -> dset d k v = d ++ [(k, v)].
Proof.
  induction d as [|[k0 v0] d IH]; simpl; [reflexivity|].
  destruct (String.eqb_spec k0 k) as [->|Hne]; [tauto|].
  intros H. rewrite IH; tauto.
Qed.

(** The item [{"key": k, "value": v}]. *)
Definition item_of (kv : string * string) : lookup_item :=
  {| item_key := Some (fst kv); item_value := Some (snd kv) |}.

(** On items that have their key and their value, the comprehension
    assigns the items one after the other. *)
Lemma lookups_dict_items (items : dict string) (acc : dict string) :
  lookups_dict (map item_of items) acc
  = Ok (fold_left (fun d item => dset d (fst item) (snd item)) items acc).
Proof.
  revert acc. induction items as [|[k v] items IH]; intros acc; simpl;
    [reflexivity | apply IH].
Qed.

Lemma fold_dset_distinct (items acc : dict string) :
  NoDup (keys acc ++ keys items) ->
  fold_left (fun d item => dset d (fst item) (snd item)) items acc
  = acc ++ items.
Proof.
  revert acc. induction items as [|[k v] items IH]; intros acc Hnd; simpl.
  - now rewrite app_nil_r.
  - simpl in Hnd.
    assert (Hk : ~ In k (keys acc)).
    { apply NoDup_remove_2 in Hnd. rewrite in_app_iff in Hnd. tauto. }
    rewrite (dset_new acc k v Hk), IH.
    + now rewrite <- app_assoc.
    + unfold keys in *. rewrite map_app, <- app_assoc. exact Hnd.
Qed.

Lemma fold_dset_last (items : dict string) (k : string) :
  dget (fold_left (fun d item => dset d (fst item) (snd item)) items []) k
  = dget (rev items) k.
Proof.
  induction items as [|[k0 v0] items IH] using rev_ind; [reflexivity|].
  rewrite fold_left_app, rev_app_distr. simpl.
  rewrite dget_dset. destruct (String.eqb k0 k); [reflexivity | exact IH].
Qed.

Lemma fold_dset_NoDup (items : dict string) :
  forall acc : dict string,
  NoDup (keys acc) ->
  NoDup (keys (fold_left (fun d item => dset d (fst item) (snd item))
                 items acc)).
Proof.
  induction items as [|[k v] items IH]; intros acc Hacc; simpl; [exact Hacc|].
  apply IH. now apply keys_dset_NoDup.
Qed.

(** The array form of ["lookups"], when every item has its key and its
    value, becomes a dict that holds, for every key, the value of the
    last item with that key; when the keys of the items are distinct the
    dict lists the items as they are, in order.  The dict form is passed
    on unchanged.  An item without key or without value makes the
    conversion raise [KeyError]. *)
Theorem convert_lookups_keeps_items :
  (forall items : dict string,
   exists d,
     convert_lookups (LookupsList (map item_of items)) = Ok d /\
     (forall k, dget d k = dget (rev items) k) /\
     NoDup (keys d) /\
     (NoDup (keys items) -> d = items)) /\
  (forall d, convert_lookups (LookupsDict d) = Ok d) /\
  (forall (before : dict string) item after,
     (item_key item = None ->
      convert_lookups (LookupsList (map item_of before ++ item :: after))
      = Raise (KeyError "key")) /\
     (item_key item <> None -> item_value item = None ->
      convert_lookups (LookupsList (map item_of before ++ item :: after))
      = Raise (KeyError "value"))).
Proof.
  split; [|split; [reflexivity|]].
  - intros items.
    exists (fold_left (fun d item => dset d (fst item) (snd item)) items []).
    split; [apply lookups_dict_items|].
    split; [apply fold_dset_last|].
    split; [apply fold_dset_NoDup; constructor|].
    intros Hnd. now rewrite fold_dset_distinct.
  - intros before item after.
    assert (H : forall acc,
              lookups_dict (map item_of before ++ item :: after) acc
              = lookups_dict (item :: after)
                  (fold_left (fun d item => dset d (fst item) (snd item))
                     before acc)).
    { induction before as [|[k v] before IH]; intros acc; simpl;
        [reflexivity | apply IH]. }
    unfold convert_lookups. rewrite H. simpl. split.
    + intros ->. reflexivity.
    + intros Hk ->. destruct (item_key item); [reflexivity | contradiction].
Qed.

Lemma convert_lookups_keeps_items_witness :
  exists d,
    convert_lookups
      (LookupsList (map item_of [("low", "Low"); ("high", "High")])) = Ok d /\
    d = [("low", "Low"); ("high", "High")].
Proof.
  destruct (proj1 convert_lookups_keeps_items [("low", "Low"); ("high", "High")])
    as (d & Hd & _ & _ & Hsame).
  exists d. split; [exact Hd|]. apply Hsame.
  simpl. repeat constructor; simpl; intuition discriminate.
Defined.

(** ** From the URL of create_apps to the comment of generate_types *)

Definition no_slash (s : string) : bool :=
  GeneratorFacts.all_chars (fun c => negb (Ascii.eqb c "/")) s.

Lemma split_on_from_nonempty (sep : ascii) (s cur : string) :
  split_on_from sep cur s <> [].
Proof.
  revert cur. induction s as [|c s IH]; intros cur; simpl; [discriminate|].
  destruct (Ascii.eqb c sep); [discriminate | apply IH].
Qed.

Lemma last_split_on_from (sep : ascii) (id : string) (s cur : string) :
  GeneratorFacts.all_chars (fun c => negb (Ascii.eqb c sep)) id = true ->
  last (split_on_from sep cur (s ++ String sep id)%string) ""%string = id.
Proof.
  intros Hid. revert cur. induction s as [|c s IH]; intros cur; simpl.
  - rewrite Ascii.eqb_refl, (GeneratorFacts.split_on_from_whole sep id "" Hid).
    reflexivity.
  - destruct (Ascii.eqb c sep).
    + specialize (IH ""%string).
      destruct (split_on_from sep "" (s ++ String sep id)) as [|x l] eqn:E.
      * now apply split_on_from_nonempty in E.
      * exact IH.
    + apply IH.
Qed.

(** The URL that [create_apps] stores for a resolved reference ends with
    the id of the target, and [generate_types] reads the id back from it
    whenever the id has no slash: for a control of kind
    [applookup/select] with this URL the comment names what the map from
    id to type name holds for the id. *)
Theorem lookup_url_read_back (id : string) :
  no_slash id = true ->
  last (split_on "/" (lookup_url id)) ""%string = id /\
  forall app_id_to_name ctrl,
    Generator.fulltype ctrl = Some "applookup/select"%string ->
    Generator.lookup_app ctrl = Some (Generator.VStr (lookup_url id)) ->
    Generator.field_comment app_id_to_name ctrl
    = (" // applookup -> URL zu '"
       ++ match dget app_id_to_name id with
          | Some n => n
          | None => "UnknownApp"
          end
       ++ "' Record")%string.
Proof.
  intros Hid.
  assert (Hlast : last (split_on "/" (lookup_url id)) ""%string = id).
  { unfold split_on, lookup_url, api_url.
    change ("https://my.living-apps.de/rest" ++ "/apps/" ++ id)%string
      with ("https://my.living-apps.de/rest/apps" ++ String "/" id)%string.
    now apply last_split_on_from. }
  split; [exact Hlast|].
  intros m ctrl Hft Hurl. unfold Generator.field_comment.
  rewrite Hft, Hurl. simpl Generator.split_value.
  cbv iota beta. rewrite Hlast. reflexivity.
Qed.

Lemma lookup_url_read_back_witness :
  last (split_on "/" (lookup_url "E1")) ""%string = "E1"%string.
Proof.
  apply (proj1 (lookup_url_read_back "E1" eq_refl)).
Defined.

End CreationFacts.

(* ================================================================== *)
(** * The generator: laws of the naming transform *)
(* ================================================================== *)

Module NamingLaws.
Import Py PyFacts Generator GeneratorFacts.
Local Open Scope string_scope.

(** A character of ASCII outside [[a-zA-Z0-9]]: a hyphen, an underscore,
    a space, a dot, ... *)
Definition is_ascii_separator (c : ascii) : bool :=
  negb (is_alnum c) && Nat.ltb (nat_of_ascii c) 128.

Ltac ascii_cases c :=
  destruct c as [[|] [|] [|] [|] [|] [|] [|] [|]];
  try reflexivity; try discriminate.

(** No byte of the four patterns of [_to_pascal_case] is such a
    character. *)
Lemma separator_not_in_patterns (c : ascii) :
  is_ascii_separator c = true ->
  all_chars (fun x => negb (Ascii.eqb x c)) "äöüß" = true.
Proof. ascii_cases c. Qed.

Lemma separator_not_alnum (c : ascii) :
  is_ascii_separator c = true -> is_alnum c = false.
Proof. ascii_cases c. Qed.

(** ** [replace] across a character that the pattern does not have *)

Lemma prefix_app_sep (old : string) (c : ascii) (t : string) :
  all_chars (fun x => negb (Ascii.eqb x c)) old = true ->
  forall s, prefix old (s ++ String c t) = prefix old s.
Proof.
  induction old as [|a old IH]; intros Hold s.
  - now rewrite !prefix_empty.
  - simpl in Hold. apply andb_true_iff in Hold. destruct Hold as [Ha Hold].
    destruct s as [|x s]; simpl.
    + destruct (ascii_dec a c) as [->|_]; [|reflexivity].
      rewrite Ascii.eqb_refl in Ha. discriminate Ha.
    + destruct (ascii_dec a x); [now apply IH | reflexivity].
Qed.

Lemma prefix_length (old s : string) :
  prefix old s = true -> String.length old <= String.length s.
Proof.
  revert s. induction old as [|a old IH]; intros s H; simpl; [lia|].
  destruct s as [|x s]; simpl in H; [discriminate|].
  destruct (ascii_dec a x); [|discriminate].
  apply IH in H. simpl. lia.
Qed.

Lemma replace_from_app_sep (a : ascii) (old' new : string) (c : ascii)
    (t : string) :
  all_chars (fun x => negb (Ascii.eqb x c)) (String a old') = true ->
  forall s k, k <= String.length s ->
  replace_from (String a old') new k (s ++ String c t)
  = replace_from (String a old') new k s
    ++ String c (replace_from (String a old') new 0 t).
Proof.
  intros Hold. set (old := String a old') in *.
  induction s as [|x s IH]; intros k Hk.
  - simpl in Hk. assert (k = 0) by lia. subst k.
    change ("" ++ String c t) with (String c t).
    assert (E : prefix old (String c t) = false).
    { unfold old. simpl. destruct (ascii_dec a c) as [->|_]; [|reflexivity].
      simpl in Hold. rewrite Ascii.eqb_refl in Hold. discriminate Hold. }
    cbn [replace_from]. rewrite E. reflexivity.
  - destruct k as [|k].
    + change (String x s ++ String c t) with (String x (s ++ String c t)).
      cbn [replace_from].
      change (String x (s ++ String c t)) with (String x s ++ String c t).
      rewrite (prefix_app_sep old c t Hold (String x s)).
      destruct (prefix old (String x s)) eqn:E.
      * apply prefix_length in E. simpl in E.
        rewrite IH by (unfold old in *; simpl in *; lia).
        now rewrite append_assoc.
      * rewrite IH by lia. reflexivity.
    + change (String x s ++ String c t) with (String x (s ++ String c t)).
      cbn [replace_from]. apply IH. simpl in Hk. lia.
Qed.

Lemma replace_app_sep (a : ascii) (old' new : string) (c : ascii)
    (s t : string) :
  all_chars (fun x => negb (Ascii.eqb x c)) (String a old') = true ->
  replace (String a old') new (s ++ String c t)
  = replace (String a old') new s ++ String c (replace (String a old') new t).
Proof.
  intros H. unfold replace. apply replace_from_app_sep; [exact H | lia].
Qed.

(** ** [split] and [join] across a space *)

Lemma split_from_app_space (x y cur : string) :
  split_from cur (x ++ String " " y) = (split_from cur x ++ split_from "" y)%list.
Proof.
  revert cur. induction x as [|c x IH]; intros cur.
  - simpl. destruct cur; reflexivity.
  - simpl. destruct (is_space c).
    + destruct cur; simpl; now rewrite IH.
    + apply IH.
Qed.

Lemma join_empty_cons (w : string) (ws : list string) :
  join "" (w :: ws) = w ++ join "" ws.
Proof.
  unfold join. destruct ws as [|w' ws]; simpl;
    [now rewrite append_empty_r | reflexivity].
Qed.

Lemma join_empty_app (l1 l2 : list string) :
  join "" (l1 ++ l2)%list = join "" l1 ++ join "" l2.
Proof.
  induction l1 as [|w l1 IH]; [reflexivity|].
  change ((w :: l1) ++ l2)%list with (w :: (l1 ++ l2))%list.
  now rewrite !join_empty_cons, IH, append_assoc.
Qed.

(** ** The transform word by word *)

Lemma umlauts_app_sep (c : ascii) (s t : string) :
  is_ascii_separator c = true ->
  replace "ß" "ss" (replace "ü" "ue" (replace "ö" "oe" (replace "ä" "ae"
    (s ++ String c t))))
  = replace "ß" "ss" (replace "ü" "ue" (replace "ö" "oe" (replace "ä" "ae" s)))
    ++ String c
         (replace "ß" "ss" (replace "ü" "ue" (replace "ö" "oe"
            (replace "ä" "ae" t)))).
Proof.
  intros Hc. pose proof (separator_not_in_patterns c Hc) as Hp.
  change "äöüß" with ("ä" ++ "ö" ++ "ü" ++ "ß") in Hp.
  rewrite !all_chars_app in Hp.
  apply andb_true_iff in Hp. destruct Hp as [H1 Hp].
  apply andb_true_iff in Hp. destruct Hp as [H2 Hp].
  apply andb_true_iff in Hp. destruct Hp as [H3 H4].
  change "ä" with (String (ascii_of_nat 195) (String (ascii_of_nat 164) "")) in *.
  change "ö" with (String (ascii_of_nat 195) (String (ascii_of_nat 182) "")) in *.
  change "ü" with (String (ascii_of_nat 195) (String (ascii_of_nat 188) "")) in *.
  change "ß" with (String (ascii_of_nat 195) (String (ascii_of_nat 159) "")) in *.
  rewrite (replace_app_sep _ _ _ c s t H1).
  rewrite (replace_app_sep _ _ _ c _ _ H2).
  rewrite (replace_app_sep _ _ _ c _ _ H3).
  rewrite (replace_app_sep _ _ _ c _ _ H4).
  reflexivity.
Qed.

(** The transform works on the two sides of a separator independently:
    the name of [s c t] is the name of [s] followed by the name of [t].
    So which separator stands between two parts makes no difference to
    the name, and keys that differ in their separators only get the same
    type name. *)
Theorem pascal_case_across_separator (s t : string) (c : ascii) :
  is_ascii_separator c = true ->
  _to_pascal_case (s ++ String c t) = _to_pascal_case s ++ _to_pascal_case t /\
  forall c', is_ascii_separator c' = true ->
    _to_pascal_case (s ++ String c' t) = _to_pascal_case (s ++ String c t).
Proof.
  assert (Hlaw : forall x, is_ascii_separator x = true ->
            _to_pascal_case (s ++ String x t)
            = _to_pascal_case s ++ _to_pascal_case t).
  { intros x Hx. unfold _to_pascal_case.
    rewrite (umlauts_app_sep x _ _ Hx).
    unfold sub_non_alnum. rewrite smap_app. simpl smap.
    rewrite (separator_not_alnum x Hx).
    unfold split. rewrite split_from_app_space, map_app.
    apply join_empty_app. }
  intros Hc. split; [now apply Hlaw|].
  intros c' Hc'. now rewrite !Hlaw.
Qed.

Lemma pascal_case_across_separator_witness :
  _to_pascal_case ("work" ++ String "-" "out")
  = _to_pascal_case "work" ++ _to_pascal_case "out" /\
  forall c', is_ascii_separator c' = true ->
    _to_pascal_case ("work" ++ String c' "out")
    = _to_pascal_case ("work" ++ String "-" "out").
Proof.
  apply (pascal_case_across_separator "work" "out" "-"). reflexivity.
Defined.

(** ** The characters of the generated names *)

(** Whatever the key of an app, the name of its interface and the
    singular used in its method names consist of ASCII letters and digits
    only. *)
Theorem generated_names_alphanumeric (app_key : string) :
  all_chars is_alnum (_to_pascal_case app_key) = true /\
  all_chars is_alnum (singular_name (_to_pascal_case app_key)) = true.
Proof.
  pose proof (pascal_case_alnum app_key) as H. split; [exact H|].
  unfold singular_name.
  destruct (endswith (_to_pascal_case app_key) "s").
  - now apply drop_last_alnum.
  - now rewrite all_chars_app, H.
Qed.

End NamingLaws.

(* ================================================================== *)
(** * claude_agent.py: generate_typescript *)
(* ================================================================== *)

Module TypescriptTool.
Import Py Generator.
Local Open Scope string_scope.







End TypescriptTool.

Module TypescriptToolFacts.
Import Py PyFacts Generator GeneratorFacts TypescriptTool.
Local Open Scope string_scope.

Ltac ascii_cases c :=
  destruct c as [[|] [|] [|] [|] [|] [|] [|] [|]];
  try reflexivity; try discriminate.










End TypescriptToolFacts.
